(** * AirCanvas: gesture classification, stroke capture, mesh inflation and
    object layout, embedded from the TypeScript sources.

    Conventions of the embedding.
    - A JavaScript [number] is modelled by a mathematical real ([R]); rounding
      of IEEE doubles (and of the [Float32Array] of vertex positions) is
      outside the model.  Comparisons of the source ([<], [>=], [===]) are the
      boolean tests [ltb], [geb], [eqb_num] below.
    - Every class becomes a record of its fields and every method a function
      from the old record to the new one; the clock ([performance.now()]) is an
      explicit argument.
    - Reading [a[i]] past the end of an array gives [undefined] and the field
      access that follows throws a [TypeError]; such a method returns [None]. *)

From Stdlib Require Import Reals Lra Lia List String Bool Arith.
From Stdlib Require Import DecimalString DecimalNat.
Import ListNotations.

Local Open Scope R_scope.

(** ** Numbers *)

Module Num.

Definition ltb (a b : R) : bool := if Rlt_dec a b then true else false.
Definition gtb (a b : R) : bool := ltb b a.
Definition geb (a b : R) : bool := negb (ltb a b).
Definition leb (a b : R) : bool := negb (ltb b a).
Definition eqb_num (a b : R) : bool := if Req_dec_T a b then true else false.

(** [Math.max] and [Math.min] on two numbers. *)
Definition max (a b : R) : R := if ltb a b then b else a.
Definition min (a b : R) : R := if ltb b a then b else a.

End Num.

(** ** types.ts *)

Record Point2D := mkPoint2D { x : R; y : R }.

Record Point3D := mkPoint3D { x3 : R; y3 : R; z3 : R }.

Record Stroke := mkStroke {
  points : list Point2D;
  color : string;
  width : R;
  closed : bool
}.

Record HandLandmarks := mkHandLandmarks {
  landmarks : list Point2D;
  worldLandmarks : option (list Point3D)
}.

Inductive GestureType :=
| none | draw | pinch | palm | fist | poke | swipe.

Record GestureState := mkGestureState {
  current : GestureType;
  previous : GestureType;
  duration : R;
  velocity : Point2D;
  confidence : R
}.

(** ** constants.ts *)

Module LANDMARKS.
Definition WRIST : nat := 0.
Definition THUMB_CMC : nat := 1.
Definition THUMB_MCP : nat := 2.
Definition THUMB_IP : nat := 3.
Definition THUMB_TIP : nat := 4.
Definition INDEX_MCP : nat := 5.
Definition INDEX_PIP : nat := 6.
Definition INDEX_DIP : nat := 7.
Definition INDEX_TIP : nat := 8.
Definition MIDDLE_MCP : nat := 9.
Definition MIDDLE_PIP : nat := 10.
Definition MIDDLE_DIP : nat := 11.
Definition MIDDLE_TIP : nat := 12.
Definition RING_MCP : nat := 13.
Definition RING_PIP : nat := 14.
Definition RING_DIP : nat := 15.
Definition RING_TIP : nat := 16.
Definition PINKY_MCP : nat := 17.
Definition PINKY_PIP : nat := 18.
Definition PINKY_DIP : nat := 19.
Definition PINKY_TIP : nat := 20.
End LANDMARKS.

Module GESTURE.
Definition PINCH_THRESHOLD : R := 40.
Definition PALM_HOLD_TIME : R := 500.
Definition FIST_HOLD_TIME : R := 1000.
Definition SWIPE_VELOCITY : R := 800.
Definition MIN_STROKE_LENGTH : R := 50.
Definition FINGER_CURL_THRESHOLD : R := 0.6.
Definition PALM_STABILITY_THRESHOLD : R := 30.
End GESTURE.

Module STROKE.
Definition WIDTH : R := 10.
Definition MIN_POINT_DISTANCE : R := 8.
End STROKE.

Module SCENE.
Definition MAX_OBJECTS : nat := 10.
Definition CAMERA_Z : R := 10.
Definition OBJECT_DEPTH : R := 0.8.
Definition SUBDIVISION_LEVEL : nat := 2.
Definition INFLATION_AMOUNT : R := 1.2.
Definition BOB_AMPLITUDE : R := 0.1.
Definition BOB_SPEED_MIN : R := 0.5.
Definition BOB_SPEED_MAX : R := 1.5.
Definition ROTATION_SPEED_MAX : R := 0.3.
Definition DRIFT_SPEED : R := 0.02.
Definition COLLISION_RADIUS : R := 1.5.
End SCENE.

(** ** drawingCanvas.ts *)

Module DrawingCanvas.

Definition JITTER_THRESHOLD : R := 3.

(** The length at which the smoothing buffer starts to evict (the literal
    [10] of [addPoint] and [updateLivePosition]). *)
Definition BUFFER_SIZE : nat := 10.

(** The fields of the class that the stroke logic reads or writes; the canvas
    element and its 2D context only serve rendering. *)
Record t := mk {
  currentStroke : option Stroke;
  completedStrokes : list Stroke;
  livePosition : option Point2D;
  filteredPosition : option Point2D;
  recentPoints : list Point2D
}.

Definition init : t := mk None [] None None [].

Definition distance (p1 p2 : Point2D) : R :=
  let dx := x p1 - x p2 in
  let dy := y p1 - y p2 in
  sqrt (dx * dx + dy * dy).

Definition startStroke (point : Point2D) (c : string) (d : t) : t :=
  mk (Some (mkStroke [point] c STROKE.WIDTH false))
     (completedStrokes d)
     (Some point)
     (Some point)
     [point].

(** [applyJitterFilter]: the point it returns and the new [filteredPosition]. *)
Definition applyJitterFilter (point : Point2D) (fp : option Point2D)
  : Point2D * option Point2D :=
  match fp with
  | None => (point, Some point)
  | Some f =>
      if Num.ltb (distance point f) JITTER_THRESHOLD
      then (f, Some f)
      else (point, Some point)
  end.

(** [recentPoints.push(filtered)] followed by one [shift()] when the buffer
    has grown past its capacity. *)
Definition pushRecent (filtered : Point2D) (buf : list Point2D) : list Point2D :=
  let buf' := buf ++ [filtered] in
  if Nat.ltb BUFFER_SIZE (List.length buf') then tl buf' else buf'.

Definition sumX (ps : list Point2D) : R := fold_left (fun s p => s + x p) ps 0.
Definition sumY (ps : list Point2D) : R := fold_left (fun s p => s + y p) ps 0.

Definition getSmoothedPosition (buf : list Point2D) : Point2D :=
  match buf with
  | [] => mkPoint2D 0 0
  | _ => mkPoint2D (sumX buf / INR (List.length buf))
                   (sumY buf / INR (List.length buf))
  end.

(** [points[points.length - 1]]: [None] is JavaScript's [undefined]. *)
Definition lastPoint (ps : list Point2D) : option Point2D :=
  nth_error ps (List.length ps - 1).

Definition addPoint (point : Point2D) (d : t) : option t :=
  match currentStroke d with
  | None => Some d
  | Some s =>
      let '(filtered, fp) := applyJitterFilter point (filteredPosition d) in
      let buf := pushRecent filtered (recentPoints d) in
      let smoothed := getSmoothedPosition buf in
      match lastPoint (points s) with
      | None => None
      | Some lp =>
          let dist := distance smoothed lp in
          let s' :=
            if Num.geb dist STROKE.MIN_POINT_DISTANCE
            then mkStroke (points s ++ [smoothed]) (color s) (width s) (closed s)
            else s in
          Some (mk (Some s') (completedStrokes d) (Some smoothed) fp buf)
      end
  end.

Definition updateLivePosition (point : Point2D) (d : t) : t :=
  let '(filtered, fp) := applyJitterFilter point (filteredPosition d) in
  let buf := pushRecent filtered (recentPoints d) in
  mk (currentStroke d) (completedStrokes d)
     (Some (getSmoothedPosition buf)) fp buf.

Definition clearLivePosition (d : t) : t :=
  mk (currentStroke d) (completedStrokes d) None None [].

Definition pauseStroke (d : t) : t := d.

Definition discardStroke (d : t) : t :=
  mk None (completedStrokes d) (livePosition d) (filteredPosition d)
     (recentPoints d).

(** The loop of [calculateStrokeLength]: [acc] is [length], [prev] is
    [points[i - 1]] and [rest] holds [points[i]] onwards. *)
Fixpoint strokeLengthLoop (acc : R) (prev : Point2D) (rest : list Point2D) : R :=
  match rest with
  | [] => acc
  | q :: rest' => strokeLengthLoop (acc + distance prev q) q rest'
  end.

Definition calculateStrokeLength (d : t) : R :=
  match currentStroke d with
  | None => 0
  | Some s =>
      if Nat.ltb (List.length (points s)) 2 then 0
      else
        match points s with
        | [] => 0
        | p :: rest => strokeLengthLoop 0 p rest
        end
  end.

(** [closeStroke]: the value returned and the canvas afterwards. *)
Definition closeStroke (d : t) : option Stroke * t :=
  match currentStroke d with
  | None => (None, d)
  | Some s =>
      let length := calculateStrokeLength d in
      if Num.ltb length GESTURE.MIN_STROKE_LENGTH
      then (None, discardStroke d)
      else
        if Nat.ltb 2 (List.length (points s))
        then
          let closedStroke := mkStroke (points s) (color s) (width s) true in
          (Some closedStroke,
           mk None (completedStrokes d ++ [closedStroke])
              (livePosition d) (filteredPosition d) (recentPoints d))
        else (None, discardStroke d)
  end.

Definition clearAll (d : t) : t :=
  mk None [] (livePosition d) (filteredPosition d) (recentPoints d).

(** [removeCompletedStroke]; [index] is what [indexOf(stroke)] finds among
    the completed strokes, [None] standing for [-1]. *)
Definition removeCompletedStroke (index : option nat) (d : t) : t :=
  match index with
  | None => d
  | Some i =>
      mk (currentStroke d)
         (firstn i (completedStrokes d) ++ skipn (S i) (completedStrokes d))
         (livePosition d) (filteredPosition d) (recentPoints d)
  end.

(** The 2D context calls that build a path, in the order they are made. *)
Inductive CanvasCommand :=
| BeginPath
| CanvasMoveTo (px py : R)
| CanvasLineTo (px py : R)
| QuadraticCurveTo (cpx cpy px py : R).

(** The loop of [drawSmoothCurve] from index [i] on: [pts] holds
    [points[i]] onwards and [first] says whether [i] is [0]. *)
Fixpoint smoothSegments (first : bool) (pts : list Point2D)
  : list CanvasCommand :=
  match pts with
  | p0 :: (p1 :: rest) as tail =>
      (if first then
         CanvasLineTo ((x p0 + x p1) / 2) ((y p0 + y p1) / 2)
       else
         match rest with
         | [] => QuadraticCurveTo (x p0) (y p0) (x p1) (y p1)
         | _ :: _ =>
             QuadraticCurveTo (x p0) (y p0)
                              ((x p0 + x p1) / 2) ((y p0 + y p1) / 2)
         end)
      :: smoothSegments false tail
  | _ => []
  end.

Definition drawSmoothCurve (pts : list Point2D) : list CanvasCommand :=
  match pts with
  | [] | [_] => []
  | [p0; p1] =>
      [BeginPath; CanvasMoveTo (x p0) (y p0); CanvasLineTo (x p1) (y p1)]
  | p0 :: _ =>
      BeginPath :: CanvasMoveTo (x p0) (y p0) :: smoothSegments true pts
  end.

(** [drawStrokePath].  A closed stroke without points gets [undefined]
    pushed, a list of length 1 for which [drawSmoothCurve] returns at
    once, as it does for the empty list. *)
Definition drawStrokePath (stroke : Stroke) : list CanvasCommand :=
  let pts :=
    if closed stroke then
      points stroke ++ match points stroke with
                       | [] => []
                       | p :: _ => [p]
                       end
    else points stroke in
  drawSmoothCurve pts.

End DrawingCanvas.

(** ** gestureDetector.ts *)

Module GestureDetector.

Record t := mk {
  lastLandmarks : option HandLandmarks;
  lastTime : R;
  gestureStartTime : R;
  currentGesture : GestureType;
  previousGesture : GestureType;
  palmHistory : list Point2D;
  velocityHistory : list Point2D
}.

Definition init : t := mk None 0 0 none none [] [].

(** What [detect] returns: a [GestureState], to which the non-null branch
    adds the field [pinchDistance]. *)
Record Detected := mkDetected {
  state : GestureState;
  pinchDistance : option R
}.

Definition gesture_eqb (a b : GestureType) : bool :=
  match a, b with
  | none, none | draw, draw | pinch, pinch | palm, palm
  | fist, fist | poke, poke | swipe, swipe => true
  | _, _ => false
  end.

(** [Math.hypot] on two arguments. *)
Definition hypot (a b : R) : R := sqrt (a * a + b * b).

Definition distance (p1 p2 : Point2D) : R := hypot (x p1 - x p2) (y p1 - y p2).

(** [landmarks.landmarks[i]]. *)
Definition lm (l : HandLandmarks) (i : nat) : option Point2D :=
  nth_error (landmarks l) i.

Definition bind {A B} (m : option A) (k : A -> option B) : option B :=
  match m with
  | Some a => k a
  | None => None
  end.

Notation "v <- m ;; k" := (bind m (fun v => k))
  (at level 61, m at next level, right associativity).

(** [a && b] where either side may throw: [b] is evaluated only when [a] is
    true. *)
Definition and_then (a b : option bool) : option bool :=
  v <- a ;; if v then b else Some false.

Definition not_ (a : option bool) : option bool :=
  v <- a ;; Some (negb v).

Definition createState (g : t) (gesture : GestureType) (velocity : Point2D)
  (duration : R) : GestureState :=
  mkGestureState gesture (previousGesture g) duration velocity 1.0.

Definition getPalmCenter (l : HandLandmarks) : option Point2D :=
  wrist <- lm l LANDMARKS.WRIST ;;
  indexMcp <- lm l LANDMARKS.INDEX_MCP ;;
  pinkyMcp <- lm l LANDMARKS.PINKY_MCP ;;
  Some (mkPoint2D ((x wrist + x indexMcp + x pinkyMcp) / 3)
                  ((y wrist + y indexMcp + y pinkyMcp) / 3)).

Definition calculateVelocity (g : t) (l : HandLandmarks) (dt : R)
  : option Point2D :=
  match lastLandmarks g with
  | None => Some (mkPoint2D 0 0)
  | Some last =>
      if Num.eqb_num dt 0 then Some (mkPoint2D 0 0)
      else
        currentPalm <- getPalmCenter l ;;
        lastPalm <- getPalmCenter last ;;
        Some (mkPoint2D ((x currentPalm - x lastPalm) / dt)
                        ((y currentPalm - y lastPalm) / dt))
  end.

Definition isFingerExtended (l : HandLandmarks) (tipIdx pipIdx : nat)
  : option bool :=
  tip <- lm l tipIdx ;;
  pip <- lm l pipIdx ;;
  Some (Num.ltb (y tip) (y pip)).

Definition isPointingIndex (l : HandLandmarks) : option bool :=
  indexOpen <- isFingerExtended l LANDMARKS.INDEX_TIP LANDMARKS.INDEX_PIP ;;
  middleClosed <- not_ (isFingerExtended l LANDMARKS.MIDDLE_TIP LANDMARKS.MIDDLE_PIP) ;;
  ringClosed <- not_ (isFingerExtended l LANDMARKS.RING_TIP LANDMARKS.RING_PIP) ;;
  pinkyClosed <- not_ (isFingerExtended l LANDMARKS.PINKY_TIP LANDMARKS.PINKY_PIP) ;;
  Some (indexOpen && middleClosed && ringClosed && pinkyClosed)%bool.

Definition isOpenPalm (l : HandLandmarks) : option bool :=
  and_then (isFingerExtended l LANDMARKS.INDEX_TIP LANDMARKS.INDEX_PIP)
  (and_then (isFingerExtended l LANDMARKS.MIDDLE_TIP LANDMARKS.MIDDLE_PIP)
  (and_then (isFingerExtended l LANDMARKS.RING_TIP LANDMARKS.RING_PIP)
            (isFingerExtended l LANDMARKS.PINKY_TIP LANDMARKS.PINKY_PIP))).

Definition isFist (l : HandLandmarks) : option bool :=
  and_then (not_ (isFingerExtended l LANDMARKS.INDEX_TIP LANDMARKS.INDEX_PIP))
  (and_then (not_ (isFingerExtended l LANDMARKS.MIDDLE_TIP LANDMARKS.MIDDLE_PIP))
  (and_then (not_ (isFingerExtended l LANDMARKS.RING_TIP LANDMARKS.RING_PIP))
            (not_ (isFingerExtended l LANDMARKS.PINKY_TIP LANDMARKS.PINKY_PIP)))).

(** The [velocity] argument is not read by the body. *)
Definition detectGestureType (l : HandLandmarks) (velocity : Point2D)
  : option GestureType :=
  thumbTip <- lm l LANDMARKS.THUMB_TIP ;;
  indexTip <- lm l LANDMARKS.INDEX_TIP ;;
  let pinchDistance := distance thumbTip indexTip in
  if Num.ltb pinchDistance 60 then Some pinch
  else
    pointing <- isPointingIndex l ;;
    if pointing then Some draw
    else
      open <- isOpenPalm l ;;
      if open then Some palm
      else
        closedHand <- isFist l ;;
        if closedHand then Some fist
        else Some none.

(** [detect], with [performance.now()] passed as [now]. *)
Definition detect (now : R) (frame : option HandLandmarks) (g : t)
  : option (Detected * t) :=
  let dt := if Num.gtb (lastTime g) 0 then (now - lastTime g) / 1000 else 0 in
  let g1 := mk (lastLandmarks g) now (gestureStartTime g) (currentGesture g)
               (previousGesture g) (palmHistory g) (velocityHistory g) in
  match frame with
  | None =>
      Some (mkDetected (createState g1 none (mkPoint2D 0 0) 0) None, g1)
  | Some l =>
      velocity <- calculateVelocity g1 l dt ;;
      detectedGesture <- detectGestureType l velocity ;;
      let g2 :=
        if gesture_eqb detectedGesture (currentGesture g1) then g1
        else mk (lastLandmarks g1) (lastTime g1) now detectedGesture
                (currentGesture g1) (palmHistory g1) (velocityHistory g1) in
      let duration := now - gestureStartTime g2 in
      let g3 := mk (Some l) (lastTime g2) (gestureStartTime g2)
                   (currentGesture g2) (previousGesture g2)
                   (palmHistory g2) (velocityHistory g2) in
      thumbTip <- lm l LANDMARKS.THUMB_TIP ;;
      indexTip <- lm l LANDMARKS.INDEX_TIP ;;
      Some (mkDetected (createState g3 (currentGesture g3) velocity duration)
                       (Some (distance thumbTip indexTip)),
            g3)
  end.

Definition getIndexTip (l : HandLandmarks) : option Point2D :=
  lm l LANDMARKS.INDEX_TIP.

Definition getPinchCenter (l : HandLandmarks) : option Point2D :=
  thumb <- lm l LANDMARKS.THUMB_TIP ;;
  index <- lm l LANDMARKS.INDEX_TIP ;;
  Some (mkPoint2D ((x thumb + x index) / 2) ((y thumb + y index) / 2)).

End GestureDetector.

(** ** balloonInflator.ts *)

Module BalloonInflator.

(** What the class asks of three.js, recorded as data.  A [THREE.Shape] is the
    sequence of path calls made on it; a buffer geometry is its [position]
    and [normal] attributes (absent attributes are [None]). *)
Inductive PathCommand :=
| MoveTo (px py : R)
| LineTo (px py : R)
| AbsArc (aX aY aRadius aStartAngle aEndAngle : R) (aClockwise : bool)
| ClosePath.

Definition Shape := list PathCommand.

Record Geometry := mkGeometry {
  position : option (list Point3D);
  normal : option (list Point3D)
}.

(** three.js's [Box3]: [None] is the empty box, whose centre is the origin. *)
Record Box3 := mkBox3 { bmin : Point3D; bmax : Point3D }.

Definition expandByPoint (b : Box3) (p : Point3D) : Box3 :=
  mkBox3 (mkPoint3D (Num.min (x3 (bmin b)) (x3 p))
                    (Num.min (y3 (bmin b)) (y3 p))
                    (Num.min (z3 (bmin b)) (z3 p)))
         (mkPoint3D (Num.max (x3 (bmax b)) (x3 p))
                    (Num.max (y3 (bmax b)) (y3 p))
                    (Num.max (z3 (bmax b)) (z3 p))).

Definition computeBoundingBox (ps : list Point3D) : option Box3 :=
  match ps with
  | [] => None
  | p :: rest => Some (fold_left expandByPoint rest (mkBox3 p p))
  end.

Definition getCenter (b : option Box3) : Point3D :=
  match b with
  | None => mkPoint3D 0 0 0
  | Some b =>
      mkPoint3D ((x3 (bmin b) + x3 (bmax b)) * 0.5)
                ((y3 (bmin b) + y3 (bmax b)) * 0.5)
                ((z3 (bmin b) + z3 (bmax b)) * 0.5)
  end.

Definition getStrokeCenter (pts : list Point2D) : Point2D :=
  let sum :=
    fold_left (fun acc p => mkPoint2D (x acc + x p) (y acc + y p)) pts
              (mkPoint2D 0 0) in
  mkPoint2D (x sum / INR (List.length pts)) (y sum / INR (List.length pts)).

(** [Math.floor] of a non-negative number, as an array index. *)
Definition floor_index (r : R) : nat := Z.to_nat (Int_part r).

(** [simplifyPoints]; the index it computes is below [points.length]. *)
Definition simplifyPoints (pts : list Point2D) (targetCount : nat)
  : list Point2D :=
  if Nat.leb (List.length pts) targetCount then pts
  else
    let step := INR (List.length pts) / INR targetCount in
    map (fun i =>
           let index := Nat.min (floor_index (INR i * step))
                                (List.length pts - 1) in
           nth index pts (mkPoint2D 0 0))
        (seq 0 targetCount).

(** One iteration of the loop of [inflateGeometry], for the vertex [v];
    [amount] is [SCENE.INFLATION_AMOUNT]. *)
Definition inflateVertex (amount : R) (center v : Point3D) : Point3D :=
  let dx := x3 v - x3 center in
  let dy := y3 v - y3 center in
  let dz := z3 v - z3 center in
  let dist := sqrt (dx * dx + dy * dy + dz * dz) in
  if Num.gtb dist 0.001 then
    let inflateAmount := amount * 0.1 in
    mkPoint3D (x3 v + (dx / dist) * inflateAmount)
              (y3 v + (dy / dist) * inflateAmount)
              (z3 v + (dz / dist) * inflateAmount)
  else v.

(** The accumulators of [getStrokeSize] start at [Infinity] and
    [-Infinity]: [None] is that initial value, [Some v] a number. *)
Definition minAcc (acc : option R) (v : R) : option R :=
  match acc with
  | None => Some v
  | Some a => Some (Num.min a v)
  end.

Definition maxAcc (acc : option R) (v : R) : option R :=
  match acc with
  | None => Some v
  | Some a => Some (Num.max a v)
  end.

Record Bounds := mkBounds {
  minX : option R; maxX : option R; minY : option R; maxY : option R
}.

(** [getStrokeSize]: width and height; [None] is the [-Infinity] that the
    subtraction gives when the loop never ran. *)
Definition getStrokeSize (pts : list Point2D) : option R * option R :=
  let b :=
    fold_left
      (fun b p => mkBounds (minAcc (minX b) (x p)) (maxAcc (maxX b) (x p))
                           (minAcc (minY b) (y p)) (maxAcc (maxY b) (y p)))
      pts (mkBounds None None None None) in
  (match minX b, maxX b with
   | Some lo, Some hi => Some (hi - lo)
   | _, _ => None
   end,
   match minY b, maxY b with
   | Some lo, Some hi => Some (hi - lo)
   | _, _ => None
   end).

(** The scale that [createBalloonMesh] gives the mesh:
    [Math.max(width, height) / 600]. *)
Definition balloonScale (stroke : Stroke) : option R :=
  match getStrokeSize (points stroke) with
  | (Some w, Some h) => Some (Num.max w h / 600)
  | _ => None
  end.

Section ThreeJs.

(** [new THREE.CatmullRomCurve3(pts, true, 'catmullrom', 0.5).getPoints(n)]. *)
Variable catmullRomGetPoints : list Point3D -> nat -> list Point3D.

(** [geometry.computeVertexNormals()], from the new positions. *)
Variable computeVertexNormals : list Point3D -> list Point3D.

Definition createShape (pts : list Point2D) : option Shape :=
  if Nat.ltb (List.length pts) 3 then
    Some [AbsArc 0 0 1 0 (PI * 2) false]
  else
    let center := getStrokeCenter pts in
    let normalizedPoints :=
      map (fun p => mkPoint2D ((x p - x center) / 50)
                              (- (y p - y center) / 50)) pts in
    let sampledPoints :=
      catmullRomGetPoints
        (map (fun p => mkPoint3D (x p) (y p) 0) normalizedPoints) 64 in
    match sampledPoints with
    | [] => None
    | p0 :: rest =>
        Some (MoveTo (x3 p0) (y3 p0)
              :: map (fun p => LineTo (x3 p) (y3 p)) rest ++ [ClosePath])
    end.

(** The shape that [createBalloonMesh] extrudes. *)
Definition balloonShape (stroke : Stroke) : option Shape :=
  createShape (simplifyPoints (points stroke) 20).

Definition inflateGeometryWith (amount : R) (geometry : Geometry) : Geometry :=
  match position geometry, normal geometry with
  | Some ps, Some _ =>
      let center := getCenter (computeBoundingBox ps) in
      let inflatedPositions := map (inflateVertex amount center) ps in
      mkGeometry (Some inflatedPositions)
                 (Some (computeVertexNormals inflatedPositions))
  | _, _ => geometry
  end.

Definition inflateGeometry (geometry : Geometry) : Geometry :=
  inflateGeometryWith SCENE.INFLATION_AMOUNT geometry.

End ThreeJs.

End BalloonInflator.

(** ** objectManager.ts *)

Module ObjectManager.

Record Mesh := mkMesh {
  mesh_position : Point3D;
  mesh_rotation : Point3D;
  mesh_scale : Point3D
}.

Record BalloonObject := mkBalloonObject {
  id : string;
  mesh : Mesh;
  object_color : string;
  originalStroke : Stroke;
  position : Point3D;
  targetPosition : Point3D;
  rotation : Point3D;
  rotationSpeed : Point3D;
  bobOffset : R;
  bobSpeed : R;
  scale : R;
  targetScale : R;
  createdAt : R;
  isGrabbed : bool;
  squishAmount : R
}.

(** Objects are shared and mutated in place: the array [objects] holds
    references, and the store maps a reference to the object's fields. *)
Definition Ref := nat.
Definition Store := Ref -> BalloonObject.

Definition write (r : Ref) (o : BalloonObject) (h : Store) : Store :=
  fun r' => if Nat.eqb r' r then o else h r'.

(** A tween handed to the animation engine by [removeObject]; its
    [onComplete] runs later, see [complete]. *)
Inductive Tween :=
| FadeOut (r : Ref)
| Pop (r : Ref)
| Shrink (r : Ref).

Record t := mk {
  objects : list Ref;
  store : Store;
  sceneChildren : list Ref;
  tweens : list Tween;
  idCounter : nat
}.

Definition sub (a b : Point3D) : Point3D :=
  mkPoint3D (x3 a - x3 b) (y3 a - y3 b) (z3 a - z3 b).

Definition add (a b : Point3D) : Point3D :=
  mkPoint3D (x3 a + x3 b) (y3 a + y3 b) (z3 a + z3 b).

Definition multiplyScalar (a : Point3D) (s : R) : Point3D :=
  mkPoint3D (x3 a * s) (y3 a * s) (z3 a * s).

Definition length3 (a : Point3D) : R :=
  sqrt (x3 a * x3 a + y3 a * y3 a + z3 a * z3 a).

(** [Vector3.normalize]: division by [length() || 1]. *)
Definition normalize (a : Point3D) : Point3D :=
  let l := length3 a in
  multiplyScalar a (1 / (if Num.eqb_num l 0 then 1 else l)).

Definition set_mesh_position (o : BalloonObject) (p : Point3D) : BalloonObject :=
  mkBalloonObject (id o)
    (mkMesh p (mesh_rotation (mesh o)) (mesh_scale (mesh o)))
    (object_color o) (originalStroke o) (position o) (targetPosition o) (rotation o)
    (rotationSpeed o) (bobOffset o) (bobSpeed o) (scale o) (targetScale o)
    (createdAt o) (isGrabbed o) (squishAmount o).

Definition set_mesh_rotation (o : BalloonObject) (p : Point3D) : BalloonObject :=
  mkBalloonObject (id o)
    (mkMesh (mesh_position (mesh o)) p (mesh_scale (mesh o)))
    (object_color o) (originalStroke o) (position o) (targetPosition o) (rotation o)
    (rotationSpeed o) (bobOffset o) (bobSpeed o) (scale o) (targetScale o)
    (createdAt o) (isGrabbed o) (squishAmount o).

Definition set_mesh_scale (o : BalloonObject) (p : Point3D) : BalloonObject :=
  mkBalloonObject (id o)
    (mkMesh (mesh_position (mesh o)) (mesh_rotation (mesh o)) p)
    (object_color o) (originalStroke o) (position o) (targetPosition o) (rotation o)
    (rotationSpeed o) (bobOffset o) (bobSpeed o) (scale o) (targetScale o)
    (createdAt o) (isGrabbed o) (squishAmount o).

Definition set_targetPosition (o : BalloonObject) (p : Point3D) : BalloonObject :=
  mkBalloonObject (id o) (mesh o) (object_color o) (originalStroke o)
    (position o) p
    (rotation o) (rotationSpeed o) (bobOffset o) (bobSpeed o) (scale o)
    (targetScale o) (createdAt o) (isGrabbed o) (squishAmount o).

(** The body of the loop of [softCollisionAvoidance]: the object at [r]
    against the object at [other]. *)
Definition avoid (r : Ref) (deltaTime : R) (h : Store) (other : Ref) : Store :=
  let obj := h r in
  if String.eqb (id (h other)) (id obj) then h
  else
    let diff := sub (mesh_position (mesh obj)) (mesh_position (mesh (h other))) in
    let dist := length3 diff in
    if (Num.ltb dist SCENE.COLLISION_RADIUS && Num.gtb dist 0.001)%bool then
      let pushForce :=
        ((SCENE.COLLISION_RADIUS - dist) / SCENE.COLLISION_RADIUS)
        * deltaTime * 2 in
      let diff := multiplyScalar (normalize diff) pushForce in
      let obj := set_mesh_position obj (add (mesh_position (mesh obj)) diff) in
      let obj :=
        set_targetPosition obj
          (add (targetPosition obj) (multiplyScalar diff 0.5)) in
      write r obj h
    else h.

Definition softCollisionAvoidance (objs : list Ref) (r : Ref) (deltaTime : R)
  (h : Store) : Store :=
  fold_left (avoid r deltaTime) objs h.

(** The body of the loop of [update], for the object at [r]. *)
Definition updateObject (objs : list Ref) (deltaTime elapsedTime : R)
  (h : Store) (r : Ref) : Store :=
  let obj := h r in
  if isGrabbed obj then h
  else
    let obj :=
      set_mesh_rotation obj
        (add (mesh_rotation (mesh obj))
             (multiplyScalar (rotationSpeed obj) deltaTime)) in
    let bobAmount :=
      sin (elapsedTime * bobSpeed obj + bobOffset obj) * SCENE.BOB_AMPLITUDE in
    let obj :=
      set_mesh_position obj
        (mkPoint3D (x3 (mesh_position (mesh obj)))
                   (y3 (targetPosition obj) + bobAmount)
                   (z3 (mesh_position (mesh obj)))) in
    let obj :=
      set_mesh_position obj
        (mkPoint3D (x3 (mesh_position (mesh obj))
                    + sin (elapsedTime * 0.2 + bobOffset obj)
                      * SCENE.DRIFT_SPEED * deltaTime)
                   (y3 (mesh_position (mesh obj)))
                   (z3 (mesh_position (mesh obj)))) in
    let h := write r obj h in
    let h := softCollisionAvoidance objs r deltaTime h in
    let obj := h r in
    if Num.gtb (squishAmount obj) 0 then
      let squish := 1 - squishAmount obj * 0.3 in
      let expand := 1 + squishAmount obj * 0.15 in
      write r (set_mesh_scale obj
                 (mkPoint3D (scale obj * expand) (scale obj * squish)
                            (scale obj * expand))) h
    else h.

Definition update (deltaTime elapsedTime : R) (m : t) : t :=
  mk (objects m)
     (fold_left (updateObject (objects m) deltaTime elapsedTime) (objects m)
                (store m))
     (sceneChildren m) (tweens m) (idCounter m).

(** [Array.prototype.indexOf] on references; [None] is [-1]. *)
Fixpoint indexOf (l : list Ref) (r : Ref) : option nat :=
  match l with
  | [] => None
  | r' :: rest =>
      if Nat.eqb r' r then Some 0%nat
      else option_map S (indexOf rest r)
  end.

(** [splice(index, 1)]. *)
Fixpoint splice1 (l : list Ref) (index : nat) : list Ref :=
  match l, index with
  | [], _ => []
  | _ :: rest, O => rest
  | r :: rest, S i => r :: splice1 rest i
  end.

(** [removeObject], up to the point where the promise is returned: the
    array is spliced and the first tween is handed over. *)
Definition removeObject (r : Ref) (fade : bool) (m : t) : t :=
  match indexOf (objects m) r with
  | None => m
  | Some index =>
      mk (splice1 (objects m) index) (store m) (sceneChildren m)
         (tweens m ++ [if fade then FadeOut r else Pop r]) (idCounter m)
  end.

(** [scene.remove(mesh)]. *)
Definition sceneRemove (r : Ref) (children : list Ref) : list Ref :=
  filter (fun r' => negb (Nat.eqb r' r)) children.

(** The [onComplete] of a tween, run by the animation engine when the tween
    ends: a pop starts the shrink, the end of a fade or shrink removes the
    mesh from the scene and disposes of it. *)
Definition complete (tw : Tween) (m : t) : t :=
  match tw with
  | Pop r =>
      mk (objects m) (store m) (sceneChildren m) (tweens m ++ [Shrink r])
         (idCounter m)
  | FadeOut r | Shrink r =>
      mk (objects m) (store m) (sceneRemove r (sceneChildren m)) (tweens m)
         (idCounter m)
  end.

(** [pokeObject] hands two tweens, of [squishAmount] and of the rotation of
    the mesh, to the animation engine; it sets no field itself. *)
Definition pokeObject (r : Ref) (h : Store) : Store := h.

Definition rotateObject (r : Ref) (deltaX deltaY : R) (h : Store) : Store :=
  let rot := mesh_rotation (mesh (h r)) in
  write r
    (set_mesh_rotation (h r)
       (mkPoint3D (x3 rot + deltaY) (y3 rot + deltaX) (z3 rot)))
    h.

Definition set_isGrabbed (o : BalloonObject) (b : bool) : BalloonObject :=
  mkBalloonObject (id o) (mesh o) (object_color o) (originalStroke o)
    (position o) (targetPosition o) (rotation o) (rotationSpeed o)
    (bobOffset o) (bobSpeed o) (scale o) (targetScale o) (createdAt o)
    b (squishAmount o).

Definition set_position (o : BalloonObject) (p : Point3D) : BalloonObject :=
  mkBalloonObject (id o) (mesh o) (object_color o) (originalStroke o)
    p (targetPosition o) (rotation o) (rotationSpeed o)
    (bobOffset o) (bobSpeed o) (scale o) (targetScale o) (createdAt o)
    (isGrabbed o) (squishAmount o).

(** [Math.max(lo, Math.min(hi, v))]. *)
Definition clamp (lo hi v : R) : R := Num.max lo (Num.min hi v).

(** The body of the loop of [findBalancedPosition] for the object at [r];
    [newPos] is the position so far. *)
Definition balance (r : Ref) (h : Store) (newPos : Point3D) (other : Ref)
  : Point3D :=
  if String.eqb (id (h other)) (id (h r)) then newPos
  else
    let diff := sub newPos (position (h other)) in
    let dist := length3 diff in
    if Num.ltb dist SCENE.COLLISION_RADIUS then
      let pushForce :=
        (SCENE.COLLISION_RADIUS - dist) / SCENE.COLLISION_RADIUS in
      add newPos (multiplyScalar (normalize diff) (pushForce * 0.5))
    else newPos.

(** The target that [findBalancedPosition] computes, which is also where
    it sends the mesh by a tween. *)
Definition balancedPosition (objs : list Ref) (r : Ref) (h : Store)
  : Point3D :=
  let newPos := fold_left (balance r h) objs (position (h r)) in
  mkPoint3D (clamp (-4) 4 (x3 newPos))
            (clamp (-3) 3 (y3 newPos))
            (clamp (-2) 2 (z3 newPos)).

Definition findBalancedPosition (objs : list Ref) (r : Ref) (h : Store)
  : Store :=
  write r (set_targetPosition (h r) (balancedPosition objs r h)) h.

(** [grabObject], [moveGrabbedObject] and [releaseObject]: the fields they
    set.  [worldPos] is what [scene.screenToWorld] returned. *)
Definition grabObject (r : Ref) (h : Store) : Store :=
  write r (set_isGrabbed (h r) true) h.

Definition moveGrabbedObject (r : Ref) (worldPos : Point3D) (h : Store)
  : Store :=
  if isGrabbed (h r) then
    write r (set_position (set_mesh_position (h r) worldPos) worldPos) h
  else h.

Definition releaseObject (objs : list Ref) (r : Ref) (h : Store) : Store :=
  let obj := set_isGrabbed (h r) false in
  let obj := set_targetPosition obj (mesh_position (mesh obj)) in
  let h := write r obj h in
  fold_left
    (fun h other =>
       if String.eqb (id (h other)) (id (h r)) then h
       else findBalancedPosition objs other h)
    objs h.

(** The id of the object created when the counter is [n], the template
    literal [balloon_${n}]: the decimal digits of the counter. *)
Definition balloonId (n : nat) : string :=
  "balloon_" ++ NilEmpty.string_of_uint (Nat.to_uint n).

(** [createFromStroke] up to the wait for the inflation.  [r] is the
    reference of the new object, [newMesh] the mesh that
    [createBalloonMesh] returned, [random k] the value of the call number
    [k] of [Math.random()] and [now] the value of [Date.now()]. *)
Definition createFromStroke (r : Ref) (newMesh : Mesh) (random : nat -> R)
  (now : R) (stroke : Stroke) (m : t) : t :=
  let mesh :=
    mkMesh (mesh_position newMesh) (mesh_rotation newMesh)
           (mkPoint3D 0.001 0.001 0.001) in
  let balloonObject :=
    mkBalloonObject (balloonId (idCounter m)) mesh (color stroke) stroke
      (mesh_position mesh) (mesh_position mesh)
      (mkPoint3D (random 0%nat * PI * 2) (random 1%nat * PI * 2)
                 (random 2%nat * PI * 2))
      (mkPoint3D ((random 3%nat - 0.5) * SCENE.ROTATION_SPEED_MAX)
                 ((random 4%nat - 0.5) * SCENE.ROTATION_SPEED_MAX)
                 ((random 5%nat - 0.5) * SCENE.ROTATION_SPEED_MAX))
      (random 6%nat * PI * 2)
      (SCENE.BOB_SPEED_MIN
       + random 7%nat * (SCENE.BOB_SPEED_MAX - SCENE.BOB_SPEED_MIN))
      1 1 now false 0 in
  mk (objects m ++ [r]) (write r balloonObject (store m))
     (sceneChildren m ++ [r]) (tweens m) (S (idCounter m)).

(** The rest of [createFromStroke], run when the inflation has ended. *)
Definition createFromStroke_settle (r : Ref) (m : t) : t :=
  mk (objects m) (findBalancedPosition (objects m) r (store m))
     (sceneChildren m) (tweens m) (idCounter m).

(** The callback that [clearAll] schedules for the index [i], run when its
    delay of [i * 0.1] seconds is over. *)
Definition clearAllCallback (m : t) (i : nat) : t :=
  match nth_error (objects m) i with
  | Some r => removeObject r true m
  | None => m
  end.

(** [clearAll]: the callbacks run in the order of their delays, the fades
    they started end, and the array is emptied. *)
Definition clearAll (m : t) : t :=
  let m1 :=
    fold_left clearAllCallback (seq 0 (List.length (objects m))) m in
  let started := skipn (List.length (tweens m)) (tweens m1) in
  let m2 := fold_left (fun m tw => complete tw m) started m1 in
  mk [] (store m2) (sceneChildren m2) (tweens m2) (idCounter m2).

End ObjectManager.


(** ** scene3D.ts: the orbit camera *)

Module Scene3D.

(** The camera fields of the class, and the position of the camera. *)
Record t := mk {
  cameraDistance : R;
  cameraTheta : R;
  cameraPhi : R;
  cameraTarget : Point3D;
  camera_position : Point3D
}.

Definition updateCameraPosition (s : t) : t :=
  let x := cameraDistance s * sin (cameraPhi s) * sin (cameraTheta s) in
  let y := cameraDistance s * cos (cameraPhi s) in
  let z := cameraDistance s * sin (cameraPhi s) * cos (cameraTheta s) in
  mk (cameraDistance s) (cameraTheta s) (cameraPhi s) (cameraTarget s)
     (mkPoint3D (x3 (cameraTarget s) + x)
                (y3 (cameraTarget s) + y)
                (z3 (cameraTarget s) + z)).

(** The field initialisers and the call of [updateCameraPosition] in the
    constructor; a new [PerspectiveCamera] is at the origin. *)
Definition init : t :=
  updateCameraPosition
    (mk SCENE.CAMERA_Z 0 (PI / 2) (mkPoint3D 0 0 0) (mkPoint3D 0 0 0)).

Definition orbitCamera (deltaTheta deltaPhi : R) (s : t) : t :=
  let theta := cameraTheta s + deltaTheta in
  let phi := cameraPhi s + deltaPhi in
  let phi := Num.max 0.1 (Num.min (PI - 0.1) phi) in
  updateCameraPosition
    (mk (cameraDistance s) theta phi (cameraTarget s) (camera_position s)).

Definition zoomCamera (delta : R) (s : t) : t :=
  let distance := cameraDistance s + delta * 5 in
  let distance := Num.max 3 (Num.min 30 distance) in
  updateCameraPosition
    (mk distance (cameraTheta s) (cameraPhi s) (cameraTarget s)
        (camera_position s)).

Definition resetCamera (s : t) : t :=
  updateCameraPosition
    (mk SCENE.CAMERA_Z 0 (PI / 2) (mkPoint3D 0 0 0) (camera_position s)).

End Scene3D.

(** ** handTracker.ts *)

Module HandTracker.

Record t := mk {
  hasCallback : bool;
  canvasWidth : R;
  canvasHeight : R
}.

(** The two fields of MediaPipe's [Results] that [onResults] reads; [None]
    is an absent field. *)
Record Results := mkResults {
  multiHandLandmarks : option (list (list Point3D));
  multiHandWorldLandmarks : option (list (list Point3D))
}.

Definition setCanvasSize (width height : R) (h : t) : t :=
  mk (hasCallback h) width height.

(** [onResults]: [None] when the callback is not called, otherwise the
    value it is called with. *)
Definition onResults (results : Results) (h : t)
  : option (option HandLandmarks) :=
  if negb (hasCallback h) then None
  else
    match multiHandLandmarks results with
    | Some (landmarks :: _) =>
        let worldLandmarks :=
          match multiHandWorldLandmarks results with
          | Some (w :: _) => Some w
          | _ => None
          end in
        let convertedLandmarks :=
          map (fun lm => mkPoint2D ((1 - x3 lm) * canvasWidth h)
                                   (y3 lm * canvasHeight h))
              landmarks in
        let convertedWorldLandmarks :=
          option_map
            (map (fun lm => mkPoint3D (- x3 lm) (- y3 lm) (z3 lm)))
            worldLandmarks in
        Some (Some (mkHandLandmarks convertedLandmarks
                                    convertedWorldLandmarks))
    | _ => Some None
    end.

End HandTracker.

(** ** main.ts: the gesture handlers of [AirCanvas] *)

Module AirCanvas.

Notation "v <- m ;; k" := (GestureDetector.bind m (fun v => k))
  (at level 61, m at next level, right associativity).

(** The fields of the class that the handlers of a hand frame read or
    write, with the three components they drive. *)
Record t := mk {
  isDrawing : bool;
  currentColor : string;
  lastGestureState : option GestureState;
  currentLandmarks : option HandLandmarks;
  palmHoldStart : R;
  handDetected : bool;
  grabbedObject : option ObjectManager.Ref;
  lastPinchPosition : option Point2D;
  gestureDetector : GestureDetector.t;
  drawingCanvas : DrawingCanvas.t;
  objectManager : ObjectManager.t
}.

(** A new [AirCanvas] around a new detector and canvas and the object
    manager [m]. *)
Definition init (m : ObjectManager.t) : t :=
  mk false "#FFB3BA" None None 0 false None None
     GestureDetector.init DrawingCanvas.init m.

(** What a frame reads from outside the class: the clock, at the call in
    [detect] and at the two calls in [handlePalm], the object that
    [getObjectAtPosition] finds with its ray, and the point that
    [screenToWorld] returns. *)
Record World := mkWorld {
  now : R;
  palmNow : R;
  palmNow' : R;
  hitObject : option ObjectManager.Ref;
  worldPos : Point3D
}.

Definition set_isDrawing (b : bool) (a : t) : t :=
  mk b (currentColor a) (lastGestureState a) (currentLandmarks a)
     (palmHoldStart a) (handDetected a) (grabbedObject a)
     (lastPinchPosition a) (gestureDetector a) (drawingCanvas a)
     (objectManager a).

Definition set_lastGestureState (s : option GestureState) (a : t) : t :=
  mk (isDrawing a) (currentColor a) s (currentLandmarks a)
     (palmHoldStart a) (handDetected a) (grabbedObject a)
     (lastPinchPosition a) (gestureDetector a) (drawingCanvas a)
     (objectManager a).

Definition set_hand (frame : option HandLandmarks) (a : t) : t :=
  mk (isDrawing a) (currentColor a) (lastGestureState a) frame
     (palmHoldStart a)
     (match frame with Some _ => true | None => false end)
     (grabbedObject a) (lastPinchPosition a) (gestureDetector a)
     (drawingCanvas a) (objectManager a).

Definition set_palmHoldStart (v : R) (a : t) : t :=
  mk (isDrawing a) (currentColor a) (lastGestureState a) (currentLandmarks a)
     v (handDetected a) (grabbedObject a)
     (lastPinchPosition a) (gestureDetector a) (drawingCanvas a)
     (objectManager a).

Definition set_grabbedObject (r : option ObjectManager.Ref) (a : t) : t :=
  mk (isDrawing a) (currentColor a) (lastGestureState a) (currentLandmarks a)
     (palmHoldStart a) (handDetected a) r
     (lastPinchPosition a) (gestureDetector a) (drawingCanvas a)
     (objectManager a).

Definition set_lastPinchPosition (p : option Point2D) (a : t) : t :=
  mk (isDrawing a) (currentColor a) (lastGestureState a) (currentLandmarks a)
     (palmHoldStart a) (handDetected a) (grabbedObject a)
     p (gestureDetector a) (drawingCanvas a) (objectManager a).

Definition set_gestureDetector (g : GestureDetector.t) (a : t) : t :=
  mk (isDrawing a) (currentColor a) (lastGestureState a) (currentLandmarks a)
     (palmHoldStart a) (handDetected a) (grabbedObject a)
     (lastPinchPosition a) g (drawingCanvas a) (objectManager a).

Definition set_drawingCanvas (d : DrawingCanvas.t) (a : t) : t :=
  mk (isDrawing a) (currentColor a) (lastGestureState a) (currentLandmarks a)
     (palmHoldStart a) (handDetected a) (grabbedObject a)
     (lastPinchPosition a) (gestureDetector a) d (objectManager a).

Definition set_objectManager (m : ObjectManager.t) (a : t) : t :=
  mk (isDrawing a) (currentColor a) (lastGestureState a) (currentLandmarks a)
     (palmHoldStart a) (handDetected a) (grabbedObject a)
     (lastPinchPosition a) (gestureDetector a) (drawingCanvas a) m.

(** A method of the object manager that works on the objects only. *)
Definition onObjects
  (f : list ObjectManager.Ref -> ObjectManager.Store -> ObjectManager.Store)
  (a : t) : t :=
  let m := objectManager a in
  set_objectManager
    (ObjectManager.mk (ObjectManager.objects m)
       (f (ObjectManager.objects m) (ObjectManager.store m))
       (ObjectManager.sceneChildren m) (ObjectManager.tweens m)
       (ObjectManager.idCounter m))
    a.

(** The skeleton of [renderPreviewOverlay]: the pairs of landmarks it joins
    by a line.  Reading the coordinates of a landmark that the frame does
    not have throws. *)
Definition connections : list (nat * nat) :=
  [(0, 1); (1, 2); (2, 3); (3, 4);
   (0, 5); (5, 6); (6, 7); (7, 8);
   (0, 9); (9, 10); (10, 11); (11, 12);
   (0, 13); (13, 14); (14, 15); (15, 16);
   (0, 17); (17, 18); (18, 19); (19, 20);
   (5, 9); (9, 13); (13, 17)]%nat.

Definition renderPreviewOverlay (l : HandLandmarks) : option unit :=
  fold_left
    (fun done c =>
       _ <- done ;;
       _ <- GestureDetector.lm l (fst c) ;;
       _ <- GestureDetector.lm l (snd c) ;;
       Some tt)
    connections (Some tt).

(** The release of the grabbed object, as [handlePalm] and the default
    case of [handleGesture] do it. *)
Definition releaseGrabbed (a : t) : t :=
  match grabbedObject a with
  | Some r =>
      set_lastPinchPosition None
        (set_grabbedObject None
           (onObjects (fun objs => ObjectManager.releaseObject objs r) a))
  | None => a
  end.

Definition handleDraw (w : World) (position : Point2D) (a : t) : option t :=
  let a :=
    set_drawingCanvas
      (DrawingCanvas.updateLivePosition position (drawingCanvas a)) a in
  match hitObject w with
  | Some hit => Some (onObjects (fun _ => ObjectManager.pokeObject hit) a)
  | None =>
      if negb (isDrawing a) then
        Some (set_drawingCanvas
                (DrawingCanvas.startStroke position (currentColor a)
                   (drawingCanvas a))
                (set_isDrawing true a))
      else
        d <- DrawingCanvas.addPoint position (drawingCanvas a) ;;
        Some (set_drawingCanvas d a)
  end.

Definition handlePinch (w : World) (l : HandLandmarks) (a : t) : option t :=
  pinchCenter <- GestureDetector.getPinchCenter l ;;
  let a :=
    if isDrawing a then
      set_drawingCanvas (DrawingCanvas.pauseStroke (drawingCanvas a))
        (set_isDrawing false a)
    else a in
  match grabbedObject a with
  | None =>
      match hitObject w with
      | Some hit =>
          Some (set_lastPinchPosition (Some pinchCenter)
                  (onObjects (fun _ => ObjectManager.grabObject hit)
                     (set_grabbedObject (Some hit) a)))
      | None => Some a
      end
  | Some grabbed =>
      let a :=
        match lastPinchPosition a with
        | Some last =>
            let deltaX := x pinchCenter - x last in
            let deltaY := y pinchCenter - y last in
            onObjects
              (fun _ =>
                 ObjectManager.rotateObject grabbed
                   (deltaX * 0.02) (deltaY * 0.02))
              (onObjects
                 (fun _ =>
                    ObjectManager.moveGrabbedObject grabbed (worldPos w))
                 a)
        | None => a
        end in
      Some (set_lastPinchPosition (Some pinchCenter) a)
  end.

(** [closeAndInflate], up to the start of the closing animation; the
    balloon is created when the animation has ended. *)
Definition closeAndInflate (a : t) : t :=
  let (stroke, d) := DrawingCanvas.closeStroke (drawingCanvas a) in
  let a := set_drawingCanvas (DrawingCanvas.clearLivePosition d) a in
  match stroke with
  | None => a
  | Some _ => set_isDrawing false a
  end.

Definition handlePalm (w : World) (a : t) : t :=
  let a := releaseGrabbed a in
  let a :=
    if Num.eqb_num (palmHoldStart a) 0
    then set_palmHoldStart (palmNow w) a
    else a in
  let holdDuration := palmNow' w - palmHoldStart a in
  if Num.geb holdDuration GESTURE.PALM_HOLD_TIME
  then set_palmHoldStart 0 (closeAndInflate a)
  else a.

Definition handleSwipe (w : World) (position : Point2D) (a : t) : t :=
  match hitObject w with
  | Some hit =>
      set_objectManager
        (ObjectManager.removeObject hit false (objectManager a)) a
  | None => a
  end.

(** [indexTip] is [undefined] for a frame without the landmark 8; the two
    handlers that read its coordinates then throw. *)
Definition handleGesture (w : World) (state : GestureState)
  (l : HandLandmarks) (a : t) : option t :=
  let indexTip := GestureDetector.getIndexTip l in
  a <- match current state with
       | draw => position <- indexTip ;; handleDraw w position a
       | pinch => handlePinch w l a
       | palm => Some (handlePalm w a)
       | swipe => position <- indexTip ;; Some (handleSwipe w position a)
       | _ => Some (releaseGrabbed a)
       end ;;
  match lastGestureState a with
  | Some lastState =>
      if negb (GestureDetector.gesture_eqb (current state)
                 (current lastState))
      then
        let a := set_palmHoldStart 0 a in
        if GestureDetector.gesture_eqb (current lastState) draw
        then Some (set_drawingCanvas
                     (DrawingCanvas.clearLivePosition (drawingCanvas a)) a)
        else Some a
      else Some a
  | None => Some a
  end.

Definition onHandResults (w : World) (frame : option HandLandmarks) (a : t)
  : option t :=
  let a := set_hand frame a in
  match frame with
  | None => Some (if isDrawing a then set_isDrawing false a else a)
  | Some l =>
      _ <- renderPreviewOverlay l ;;
      detected <- GestureDetector.detect (now w) (Some l)
                    (gestureDetector a) ;;
      let gestureState := GestureDetector.state (fst detected) in
      a <- handleGesture w gestureState l
             (set_gestureDetector (snd detected) a) ;;
      Some (set_lastGestureState (Some gestureState) a)
  end.

End AirCanvas.
(** * Specification vocabulary *)

(** ** Stroke capture *)

Module DrawingCanvasSpec.
Import DrawingCanvas.

(** Arc length as the glossary has it: the sum of the distances between
    consecutive points of the polyline. *)
Fixpoint arcLength (ps : list Point2D) : R :=
  match ps with
  | p :: (q :: _) as rest => distance p q + arcLength rest
  | _ => 0
  end.

(** The arithmetic mean of a sequence of points. *)
Definition mean (ps : list Point2D) : Point2D :=
  mkPoint2D (fold_right Rplus 0 (map x ps) / INR (List.length ps))
            (fold_right Rplus 0 (map y ps) / INR (List.length ps)).

(** The last [n] elements of a list (all of it when it is shorter). *)
Definition lastn {A} (n : nat) (l : list A) : list A :=
  skipn (List.length l - n) l.

(** Any two consecutive points are at least [STROKE.MIN_POINT_DISTANCE]
    apart. *)
Fixpoint spaced (ps : list Point2D) : Prop :=
  match ps with
  | p :: (q :: _) as rest =>
      STROKE.MIN_POINT_DISTANCE <= distance p q /\ spaced rest
  | _ => True
  end.

(** The calls a client can make on the canvas. *)
Inductive Op :=
| StartStroke (point : Point2D) (c : string)
| AddPoint (point : Point2D)
| UpdateLivePosition (point : Point2D)
| ClearLivePosition
| PauseStroke
| CloseStroke
| DiscardStroke
| ClearAll
| RemoveCompletedStroke (index : option nat).

Definition step (op : Op) (d : t) : option t :=
  match op with
  | StartStroke p c => Some (startStroke p c d)
  | AddPoint p => addPoint p d
  | UpdateLivePosition p => Some (updateLivePosition p d)
  | ClearLivePosition => Some (clearLivePosition d)
  | PauseStroke => Some (pauseStroke d)
  | CloseStroke => Some (snd (closeStroke d))
  | DiscardStroke => Some (discardStroke d)
  | ClearAll => Some (clearAll d)
  | RemoveCompletedStroke i => Some (removeCompletedStroke i d)
  end.

(** The canvases that a sequence of calls produces from a new one. *)
Inductive reachable : t -> Prop :=
| reachable_init : reachable init
| reachable_step (d d' : t) (op : Op) :
    reachable d -> step op d = Some d' -> reachable d'.

(** [n] calls of [addPoint] with the same raw point. *)
Fixpoint addPoints (n : nat) (point : Point2D) (d : t) : option t :=
  match n with
  | O => Some d
  | S n' =>
      match addPoint point d with
      | Some d' => addPoints n' point d'
      | None => None
      end
  end.

(** [n] pushes of the same filtered point into the smoothing buffer. *)
Fixpoint pushN (n : nat) (f : Point2D) (buf : list Point2D) : list Point2D :=
  match n with
  | O => buf
  | S n' => pushN n' f (pushRecent f buf)
  end.

(** What holds of every canvas a client can produce. *)
Definition invariant (d : t) : Prop :=
  (forall s, currentStroke d = Some s ->
             points s <> [] /\ spaced (points s))
  /\ Forall (fun s => spaced (points s)) (completedStrokes d)
  /\ (List.length (recentPoints d) <= BUFFER_SIZE)%nat.

(** The four corners of a 10 by 10 pixel square. *)
Definition square10 : list Point2D :=
  [mkPoint2D 0 0; mkPoint2D 10 0; mkPoint2D 10 10; mkPoint2D 0 10].

(** The square, in progress on a fresh canvas. *)
Definition squareCanvas : t :=
  mk (Some (mkStroke square10 "#FFB3BA" STROKE.WIDTH false)) [] None None [].

(** A stroke begun at the origin. *)
Definition startedCanvas : t := startStroke (mkPoint2D 0 0) "#FFB3BA" init.

(** A short run: the finger jumps 100 pixels to the right and stays. *)
Definition heldCanvas1 : t :=
  mk (Some (mkStroke [mkPoint2D 0 0; mkPoint2D 50 0] "#FFB3BA" STROKE.WIDTH false))
     [] (Some (mkPoint2D 50 0)) (Some (mkPoint2D 100 0))
     [mkPoint2D 0 0; mkPoint2D 100 0].

Definition heldStroke : Stroke :=
  mkStroke [mkPoint2D 0 0; mkPoint2D 50 0; mkPoint2D (200 / 3) 0]
           "#FFB3BA" STROKE.WIDTH false.

Definition heldCanvas2 : t :=
  mk (Some heldStroke)
     [] (Some (mkPoint2D (200 / 3) 0)) (Some (mkPoint2D 100 0))
     [mkPoint2D 0 0; mkPoint2D 100 0; mkPoint2D 100 0].

(** Where the pen is after a sequence of path calls. *)
Definition penAfter (cmds : list CanvasCommand) : option Point2D :=
  match last cmds BeginPath with
  | BeginPath => None
  | CanvasMoveTo px py | CanvasLineTo px py | QuadraticCurveTo _ _ px py =>
      Some (mkPoint2D px py)
  end.

(** What holds of the strokes of every canvas a client can produce, besides
    the spacing of their points. *)
Definition strokesInvariant (d : t) : Prop :=
  (forall s, currentStroke d = Some s ->
             closed s = false /\ width s = STROKE.WIDTH)
  /\ Forall (fun s => closed s = true
                      /\ width s = STROKE.WIDTH
                      /\ (3 <= List.length (points s))%nat
                      /\ GESTURE.MIN_STROKE_LENGTH <= arcLength (points s))
            (completedStrokes d).

(** A closed triangle with sides 30, 40 and 50. *)
Definition triangleStroke : Stroke :=
  mkStroke [mkPoint2D 0 0; mkPoint2D 30 0; mkPoint2D 30 40]
           "#BAE1FF" STROKE.WIDTH true.

End DrawingCanvasSpec.

(** ** Gesture classification *)

Module GestureDetectorSpec.
Import GestureDetector.

(** A frame from the hand tracker carries the 21 landmarks of MediaPipe. *)
Definition wellFormed (l : HandLandmarks) : Prop :=
  List.length (landmarks l) = 21%nat.

Definition wellFormedDetector (g : t) : Prop :=
  forall l, lastLandmarks g = Some l -> wellFormed l.

(** The gestures that [detectGestureType] has a [return] for. *)
Definition classified : list GestureType := [none; draw; pinch; palm; fist].

(** [detect] on a null frame leaves every field but [lastTime] as it was. *)
Definition touchTime (now : R) (g : t) : t :=
  mk (lastLandmarks g) now (gestureStartTime g) (currentGesture g)
     (previousGesture g) (palmHistory g) (velocityHistory g).

(** A hand given by the landmarks that the classifier reads; the others are
    at the origin. *)
Definition hand (thumbTip indexPip indexTip middlePip middleTip
                 ringPip ringTip pinkyPip pinkyTip : Point2D) : HandLandmarks :=
  let o := mkPoint2D 0 0 in
  mkHandLandmarks
    [o; o; o; o; thumbTip; o; indexPip; o; indexTip; o; middlePip; o;
     middleTip; o; ringPip; o; ringTip; o; pinkyPip; o; pinkyTip]
    None.

(** Index finger up, the other three fingers down, and the thumb tip 10
    pixels from the index tip. *)
Definition pointingPinchFrame : HandLandmarks :=
  hand (mkPoint2D 0 50)
       (mkPoint2D 0 100) (mkPoint2D 10 50)
       (mkPoint2D 0 100) (mkPoint2D 0 100)
       (mkPoint2D 0 100) (mkPoint2D 0 100)
       (mkPoint2D 0 100) (mkPoint2D 0 100).

(** The same hand elsewhere on the screen: every landmark moved by
    [(a, b)]. *)
Definition translate (a b : R) (l : HandLandmarks) : HandLandmarks :=
  mkHandLandmarks
    (map (fun p => mkPoint2D (x p + a) (y p + b)) (landmarks l))
    (worldLandmarks l).

(** The detectors that a sequence of calls of [detect] produces from a new
    one. *)
Inductive reachableDetector : t -> Prop :=
| reachableDetector_init : reachableDetector init
| reachableDetector_step (now : R) (frame : option HandLandmarks)
    (g g' : t) (r : Detected) :
    reachableDetector g -> detect now frame g = Some (r, g') ->
    reachableDetector g'.

End GestureDetectorSpec.

(** ** Curve fitting and mesh inflation *)

Module BalloonInflatorSpec.
Import BalloonInflator.

(** The distance from a vertex to a point. *)
Definition distanceTo (v c : Point3D) : R :=
  sqrt ((x3 v - x3 c) * (x3 v - x3 c)
        + (y3 v - y3 c) * (y3 v - y3 c)
        + (z3 v - z3 c) * (z3 v - z3 c)).

(** The circle of radius 1 about the origin, as one full arc. *)
Definition unitCircle : Shape := [AbsArc 0 0 1 0 (PI * 2) false].

(** A shape that bounds a region: a full turn of an arc of positive radius,
    or a polygon of at least three vertices whose path is closed. *)
Inductive closedCurve : Shape -> Prop :=
| closedCurve_circle (cx cy r a0 a1 : R) (cw : bool) :
    0 < r -> a1 - a0 = PI * 2 -> closedCurve [AbsArc cx cy r a0 a1 cw]
| closedCurve_polygon (p0 : Point3D) (rest : list Point3D) :
    (2 <= List.length rest)%nat ->
    closedCurve (MoveTo (x3 p0) (y3 p0)
                 :: map (fun p => LineTo (x3 p) (y3 p)) rest ++ [ClosePath]).

(** A curve sampler that returns [n + 1] points, all at the origin, and a
    normal computation that returns the positions. *)
Definition flatSampler (pts : list Point3D) (n : nat) : list Point3D :=
  repeat (mkPoint3D 0 0 0) (S n).

Definition positionNormals (ps : list Point3D) : list Point3D := ps.

(** A stroke of two points. *)
Definition twoPointStroke : Stroke :=
  mkStroke [mkPoint2D 0 0; mkPoint2D 100 0] "#FFB3BA" STROKE.WIDTH true.

(** A geometry of two vertices, one unit either side of the origin. *)
Definition segmentGeometry : Geometry :=
  mkGeometry (Some [mkPoint3D 1 0 0; mkPoint3D (-1) 0 0])
             (Some [mkPoint3D 0 0 1; mkPoint3D 0 0 1]).

(** The points that [createShape] hands to the spline: centred on the
    centroid, scaled down by 50, the vertical axis flipped. *)
Definition normalizedPoints (pts : list Point2D) : list Point2D :=
  let center := getStrokeCenter pts in
  map (fun p => mkPoint2D ((x p - x center) / 50)
                          (- (y p - y center) / 50)) pts.

(** A stroke drawn elsewhere on the screen. *)
Definition shifted (a b : R) (pts : list Point2D) : list Point2D :=
  map (fun p => mkPoint2D (x p + a) (y p + b)) pts.

End BalloonInflatorSpec.

(** ** Object layout *)

Module ObjectManagerSpec.
Import ObjectManager.

(** The distance between the meshes of two objects. *)
Definition separation (a b : BalloonObject) : R :=
  length3 (sub (mesh_position (mesh a)) (mesh_position (mesh b))).

(** The push that [softCollisionAvoidance] applies at distance [dist]. *)
Definition pushAt (dist deltaTime : R) : R :=
  ((SCENE.COLLISION_RADIUS - dist) / SCENE.COLLISION_RADIUS) * deltaTime * 2.

(** Two stores that differ at most in the object at [r]. *)
Definition agreeExcept (r : Ref) (h1 h2 : Store) : Prop :=
  forall r', r' <> r -> h1 r' = h2 r'.

(** An object after the rotation, bobbing and drift of one update, before
    its collision pass. *)
Definition drifted (deltaTime elapsedTime : R) (o : BalloonObject)
  : BalloonObject :=
  let o1 :=
    set_mesh_rotation o
      (add (mesh_rotation (mesh o))
           (multiplyScalar (rotationSpeed o) deltaTime)) in
  set_mesh_position o1
    (mkPoint3D (x3 (mesh_position (mesh o))
                + sin (elapsedTime * 0.2 + bobOffset o)
                  * SCENE.DRIFT_SPEED * deltaTime)
               (y3 (targetPosition o)
                + sin (elapsedTime * bobSpeed o + bobOffset o)
                  * SCENE.BOB_AMPLITUDE)
               (z3 (mesh_position (mesh o)))).

Definition origin : Point3D := mkPoint3D 0 0 0.

(** An object at rest at the origin. *)
Definition restingObject (name : string) (grabbed : bool) : BalloonObject :=
  mkBalloonObject name (mkMesh origin origin (mkPoint3D 1 1 1)) "#FFB3BA"
    (mkStroke [] "#FFB3BA" STROKE.WIDTH true)
    origin origin origin origin 0 1 1 1 0 grabbed 0.

(** Two objects at the same place, the first of them grabbed. *)
Definition coincidentScene : t :=
  mk [0%nat; 1%nat]
     (fun r => if Nat.eqb r 0 then restingObject "balloon_0" true
               else restingObject "balloon_1" false)
     [0%nat; 1%nat] [] 2.

(** The elements at even and at odd positions of a list, counted from 0. *)
Fixpoint evens {A} (l : list A) : list A :=
  match l with
  | a :: rest => a :: match rest with
                      | _ :: rest' => evens rest'
                      | [] => []
                      end
  | [] => []
  end.

Fixpoint odds {A} (l : list A) : list A :=
  match l with
  | _ :: rest => match rest with
                 | b :: rest' => b :: odds rest'
                 | [] => []
                 end
  | [] => []
  end.

(** Two states of an object that differ at most in the target position. *)
Definition sameButTarget (o o' : BalloonObject) : Prop :=
  id o' = id o /\ mesh o' = mesh o /\ position o' = position o
  /\ isGrabbed o' = isGrabbed o.

(** The region that [findBalancedPosition] keeps targets in. *)
Definition inBounds (p : Point3D) : Prop :=
  -4 <= x3 p <= 4 /\ -3 <= y3 p <= 3 /\ -2 <= z3 p <= 2.

(** A manager with no objects, as the constructor leaves it; [h] gives
    the fields of the objects to come before they are written. *)
Definition empty (h : Store) : t := mk [] h [] [] 0.

Definition withStore (h : Store) (m : t) : t :=
  mk (objects m) h (sceneChildren m) (tweens m) (idCounter m).

(** The managers that the methods produce from an empty one; an object
    that is created has a reference that is not in the array. *)
Inductive reachableManager (h0 : Store) : t -> Prop :=
| reachableManager_empty : reachableManager h0 (empty h0)
| reachableManager_create (r : Ref) (newMesh : Mesh) (random : nat -> R)
    (now : R) (stroke : Stroke) (m : t) :
    reachableManager h0 m -> ~ In r (objects m) ->
    reachableManager h0 (createFromStroke r newMesh random now stroke m)
| reachableManager_settle (r : Ref) (m : t) :
    reachableManager h0 m -> reachableManager h0 (createFromStroke_settle r m)
| reachableManager_update (deltaTime elapsedTime : R) (m : t) :
    reachableManager h0 m -> reachableManager h0 (update deltaTime elapsedTime m)
| reachableManager_remove (r : Ref) (fade : bool) (m : t) :
    reachableManager h0 m -> reachableManager h0 (removeObject r fade m)
| reachableManager_complete (tw : Tween) (m : t) :
    reachableManager h0 m -> reachableManager h0 (complete tw m)
| reachableManager_clearAll (m : t) :
    reachableManager h0 m -> reachableManager h0 (clearAll m)
| reachableManager_grab (r : Ref) (m : t) :
    reachableManager h0 m ->
    reachableManager h0 (withStore (grabObject r (store m)) m)
| reachableManager_move (r : Ref) (worldPos : Point3D) (m : t) :
    reachableManager h0 m ->
    reachableManager h0 (withStore (moveGrabbedObject r worldPos (store m)) m)
| reachableManager_rotate (r : Ref) (deltaX deltaY : R) (m : t) :
    reachableManager h0 m ->
    reachableManager h0 (withStore (rotateObject r deltaX deltaY (store m)) m)
| reachableManager_release (r : Ref) (m : t) :
    reachableManager h0 m ->
    reachableManager h0 (withStore (releaseObject (objects m) r (store m)) m).

(** The ids in the array were given out by the counter, and no two
    objects of the array have the same id. *)
Definition idsInvariant (m : t) : Prop :=
  NoDup (objects m)
  /\ (forall r, In r (objects m) ->
        exists k, (k < idCounter m)%nat /\ id (store m r) = balloonId k)
  /\ (forall r1 r2, In r1 (objects m) -> In r2 (objects m) ->
        id (store m r1) = id (store m r2) -> r1 = r2).

(** The manager after [n] strokes were made into objects with the
    references 0 to [n - 1]. *)
Fixpoint crowd (h : Store) (n : nat) : t :=
  match n with
  | O => empty h
  | S k =>
      createFromStroke k (mkMesh origin origin origin) (fun _ => 0) 0
        (mkStroke [] "#FFB3BA" STROKE.WIDTH true) (crowd h k)
  end.

(** Three objects at rest in one scene. *)
Definition threeObjects : t :=
  mk [0%nat; 1%nat; 2%nat]
     (fun r => restingObject "balloon" false)
     [0%nat; 1%nat; 2%nat] [] 3.

End ObjectManagerSpec.


(** ** The orbit camera *)

Module Scene3DSpec.
Import Scene3D.

(** The cameras that the constructor and the three camera methods
    produce. *)
Inductive reachableCamera : t -> Prop :=
| reachableCamera_init : reachableCamera init
| reachableCamera_orbit (deltaTheta deltaPhi : R) (s : t) :
    reachableCamera s -> reachableCamera (orbitCamera deltaTheta deltaPhi s)
| reachableCamera_zoom (delta : R) (s : t) :
    reachableCamera s -> reachableCamera (zoomCamera delta s)
| reachableCamera_reset (s : t) :
    reachableCamera s -> reachableCamera (resetCamera s).

(** What the methods keep true of the fields. *)
Definition cameraInvariant (s : t) : Prop :=
  3 <= cameraDistance s <= 30
  /\ 0.1 <= cameraPhi s <= PI - 0.1
  /\ cameraTarget s = mkPoint3D 0 0 0
  /\ camera_position s = camera_position (updateCameraPosition s).

(** A drag far past the pole followed by a zoom far out. *)
Definition draggedCamera : t := zoomCamera 10 (orbitCamera 1 5 init).

End Scene3DSpec.

(** ** Hand tracking *)

Module HandTrackerSpec.
Import HandTracker.

(** A result with two hands of three landmarks each. *)
Definition twoHands : Results :=
  mkResults
    (Some [[mkPoint3D 0.25 0.5 0; mkPoint3D 0.75 0.25 0; mkPoint3D 1 1 0];
           [mkPoint3D 0 0 0; mkPoint3D 0 0 0; mkPoint3D 0 0 0]])
    None.

Definition tracker : t := mk true 640 480.

End HandTrackerSpec.

(** ** The gesture handlers *)

Module AirCanvasSpec.
Import AirCanvas.

(** The gesture that the detector classifies a frame as; the velocity is
    not read by the classifier. *)
Definition gestureOf (l : HandLandmarks) : option GestureType :=
  GestureDetector.detectGestureType l (mkPoint2D 0 0).

(** The detector holds no frame, or one with the 21 landmarks. *)
Definition ready (a : t) : Prop :=
  GestureDetectorSpec.wellFormedDetector (gestureDetector a).

(** The gesture of the last frame with a hand, if there was one. *)
Definition lastGesture (a : t) : option GestureType :=
  option_map current (lastGestureState a).

(** The time from which a palm frame measures the hold. *)
Definition holdStart (w : World) (a : t) : R :=
  if Num.eqb_num (palmHoldStart a) 0 then palmNow w else palmHoldStart a.

(** The two halves of [handleGesture]: the handler chosen by the gesture,
    and the resets that follow it when the gesture has changed. *)
Definition dispatch (w : World) (st : GestureState) (l : HandLandmarks)
  (indexTip : option Point2D) (a : t) : option t :=
  match current st with
  | draw => position <- indexTip ;; handleDraw w position a
  | pinch => handlePinch w l a
  | palm => Some (handlePalm w a)
  | swipe => position <- indexTip ;; Some (handleSwipe w position a)
  | _ => Some (releaseGrabbed a)
  end.

Definition gestureChanged (st : GestureState) (a : t) : bool :=
  match lastGestureState a with
  | Some lastState =>
      negb (GestureDetector.gesture_eqb (current st) (current lastState))
  | None => false
  end.

Definition settle (st : GestureState) (a : t) : t :=
  if gestureChanged st a then
    let a := set_palmHoldStart 0 a in
    if match lastGestureState a with
       | Some lastState =>
           GestureDetector.gesture_eqb (current lastState) draw
       | None => false
       end
    then set_drawingCanvas
           (DrawingCanvas.clearLivePosition (drawingCanvas a)) a
    else a
  else a.

(** Two states of the object manager with the same array of objects, the
    same meshes in the scene and the same removals under way. *)
Definition sameArray (m m' : ObjectManager.t) : Prop :=
  ObjectManager.objects m' = ObjectManager.objects m
  /\ ObjectManager.sceneChildren m' = ObjectManager.sceneChildren m
  /\ ObjectManager.tweens m' = ObjectManager.tweens m.

(** Index finger up, the other fingers down, the thumb far from the index
    tip. *)
Definition pointingFrame : HandLandmarks :=
  GestureDetectorSpec.hand (mkPoint2D 200 50)
       (mkPoint2D 0 100) (mkPoint2D 0 50)
       (mkPoint2D 0 100) (mkPoint2D 0 100)
       (mkPoint2D 0 100) (mkPoint2D 0 100)
       (mkPoint2D 0 100) (mkPoint2D 0 100).

(** The four fingers up, the thumb far from the index tip. *)
Definition openPalmFrame : HandLandmarks :=
  GestureDetectorSpec.hand (mkPoint2D 200 50)
       (mkPoint2D 0 100) (mkPoint2D 0 50)
       (mkPoint2D 0 100) (mkPoint2D 0 50)
       (mkPoint2D 0 100) (mkPoint2D 0 50)
       (mkPoint2D 0 100) (mkPoint2D 0 50).

(** A new application with the two objects of [coincidentScene]. *)
Definition fresh : t := init ObjectManagerSpec.coincidentScene.

(** An application in the middle of a stroke of three points. *)
Definition midStroke : t :=
  mk true "#FFB3BA" None None 0 true None None
     GestureDetector.init
     (DrawingCanvas.mk
        (Some (mkStroke [mkPoint2D 0 0; mkPoint2D 10 0; mkPoint2D 20 0]
                 "#FFB3BA" STROKE.WIDTH false))
        [] None None [])
     ObjectManagerSpec.coincidentScene.

(** An application that takes itself to be drawing and has no stroke. *)
Definition blocked : t :=
  mk true "#FFB3BA" None None 0 true None None
     GestureDetector.init DrawingCanvas.init
     ObjectManagerSpec.coincidentScene.

(** An application that holds the first object of the scene. *)
Definition holding : t :=
  mk false "#FFB3BA" None None 0 true (Some 0%nat) (Some (mkPoint2D 0 0))
     GestureDetector.init DrawingCanvas.init
     ObjectManagerSpec.coincidentScene.

(** Readings of a frame in which the ray finds no object. *)
Definition clearWorld (t0 : R) : World :=
  mkWorld t0 t0 t0 None (mkPoint3D 0 0 0).

(** Readings of a palm frame whose hold began at 1000 and is read at
    1600. *)
Definition heldWorld : World :=
  mkWorld 1600 1000 1600 None (mkPoint3D 0 0 0).

End AirCanvasSpec.
(** * Properties *)

(** ** Comparisons and distances *)

Module NumFacts.

Lemma ltb_lt (a b : R) : Num.ltb a b = true <-> a < b.
Proof.
  unfold Num.ltb. destruct (Rlt_dec a b); split; intros; try easy.
Qed.

Lemma ltb_ge (a b : R) : Num.ltb a b = false <-> b <= a.
Proof.
  unfold Num.ltb. destruct (Rlt_dec a b); split; intros; try easy; lra.
Qed.

Lemma gtb_gt (a b : R) : Num.gtb a b = true <-> b < a.
Proof. apply ltb_lt. Qed.

Lemma gtb_le (a b : R) : Num.gtb a b = false <-> a <= b.
Proof. apply ltb_ge. Qed.

Lemma geb_ge (a b : R) : Num.geb a b = true <-> b <= a.
Proof.
  unfold Num.geb. rewrite negb_true_iff. apply ltb_ge.
Qed.

Lemma geb_lt (a b : R) : Num.geb a b = false <-> a < b.
Proof.
  unfold Num.geb. rewrite negb_false_iff. apply ltb_lt.
Qed.

Lemma eqb_num_eq (a b : R) : Num.eqb_num a b = true <-> a = b.
Proof.
  unfold Num.eqb_num. destruct (Req_dec_T a b); split; intros; easy.
Qed.

Lemma eqb_num_neq (a b : R) : Num.eqb_num a b = false <-> a <> b.
Proof.
  unfold Num.eqb_num. destruct (Req_dec_T a b); split; intros; easy.
Qed.

(** A square root is known as soon as its square is. *)
Lemma sqrt_eq (a r : R) : 0 <= r -> a = r * r -> sqrt a = r.
Proof.
  intros Hr ->. now apply sqrt_square.
Qed.

Lemma sqrt_lt_bound (a r : R) : 0 <= a -> 0 < r -> a < r * r -> sqrt a < r.
Proof.
  intros Ha Hr Hlt.
  rewrite <- (sqrt_square r) by lra.
  apply sqrt_lt_1; nra.
Qed.

Lemma sqrt_ge_bound (a r : R) : 0 <= r -> r * r <= a -> r <= sqrt a.
Proof.
  intros Hr Hle.
  rewrite <- (sqrt_square r) at 1 by lra.
  apply sqrt_le_1; nra.
Qed.

End NumFacts.

(** ** Stroke capture *)

Module DrawingCanvasFacts.
Import DrawingCanvas DrawingCanvasSpec.

Lemma strokeLengthLoop_arcLength (rest : list Point2D) (acc : R) (p : Point2D) :
  strokeLengthLoop acc p rest = acc + arcLength (p :: rest).
Proof.
  revert acc p. induction rest as [|q rest IH]; intros acc p.
  - simpl. lra.
  - cbn [strokeLengthLoop]. rewrite IH.
    change (arcLength (p :: q :: rest))
      with (distance p q + arcLength (q :: rest)).
    lra.
Qed.

(** [calculateStrokeLength] computes the arc length of the stroke in
    progress. *)
Lemma calculateStrokeLength_arcLength (d : t) (s : Stroke) :
  currentStroke d = Some s ->
  calculateStrokeLength d = arcLength (points s).
Proof.
  intros H. unfold calculateStrokeLength. rewrite H.
  destruct (points s) as [|p [|q rest]]; try reflexivity.
  replace (Nat.ltb (List.length (p :: q :: rest)) 2) with false by reflexivity.
  rewrite strokeLengthLoop_arcLength. lra.
Qed.

Lemma distance_nonneg (p q : Point2D) : 0 <= distance p q.
Proof. apply sqrt_pos. Qed.

Lemma arcLength_nonneg (ps : list Point2D) : 0 <= arcLength ps.
Proof.
  induction ps as [|p [|q rest] IH]; simpl; try lra.
  pose proof (distance_nonneg p q). simpl in IH. lra.
Qed.

Lemma arcLength_square10 : arcLength square10 = 30.
Proof.
  unfold square10, arcLength, distance. cbn [x y].
  rewrite !(NumFacts.sqrt_eq _ 10); lra.
Qed.

(** C1. For a stroke in progress, [closeStroke] returns null and discards
    the stroke when the arc length of the polyline is below
    [GESTURE.MIN_STROKE_LENGTH] or fewer than 3 points were captured;
    otherwise it returns a copy of the stroke with [closed = true].  In both
    cases no stroke is in progress afterwards.  The 10 by 10 square is
    rejected at the threshold of 50 pixels. *)
Theorem closeStroke_policy (d : t) (s : Stroke) :
  currentStroke d = Some s ->
  let r := closeStroke d in
  currentStroke (snd r) = None
  /\ (arcLength (points s) < GESTURE.MIN_STROKE_LENGTH
      \/ (List.length (points s) < 3)%nat ->
      fst r = None /\ snd r = discardStroke d)
  /\ (~ (arcLength (points s) < GESTURE.MIN_STROKE_LENGTH
         \/ (List.length (points s) < 3)%nat) ->
      exists c,
        fst r = Some c
        /\ closed c = true
        /\ points c = points s /\ color c = color s /\ width c = width s
        /\ completedStrokes (snd r) = completedStrokes d ++ [c])
  /\ (points s = square10 -> GESTURE.MIN_STROKE_LENGTH = 50 /\ fst r = None).
Proof.
  intros Hcur r. subst r.
  assert (Hlen := calculateStrokeLength_arcLength d s Hcur).
  unfold closeStroke. rewrite Hcur, Hlen.
  destruct (Num.ltb (arcLength (points s)) GESTURE.MIN_STROKE_LENGTH) eqn:Hshort.
  - apply NumFacts.ltb_lt in Hshort. cbn [fst snd].
    split; [reflexivity|]. split; [now split|]. split.
    + intros Hno. exfalso. apply Hno. now left.
    + now split.
  - apply NumFacts.ltb_ge in Hshort.
    destruct (Nat.ltb 2 (List.length (points s))) eqn:Hcount.
    + apply Nat.ltb_lt in Hcount. cbn [fst snd currentStroke].
      split; [reflexivity|]. split; [|split].
      * intros [Hlt | Hfew]; [lra | lia].
      * intros _. eexists. split; [reflexivity|]. cbn. repeat split.
      * intros Hsq. rewrite Hsq, arcLength_square10 in Hshort.
        unfold GESTURE.MIN_STROKE_LENGTH in Hshort. lra.
    + apply Nat.ltb_ge in Hcount. cbn [fst snd].
      split; [reflexivity|]. split; [now split|]. split.
      * intros Hno. exfalso. apply Hno. right. lia.
      * now split.
Qed.

Lemma closeStroke_policy_witness : fst (closeStroke squareCanvas) = None.
Proof.
  exact (proj2 (proj2 (proj2 (proj2
    (closeStroke_policy squareCanvas _ eq_refl))) eq_refl)).
Defined.

(** *** The smoothing buffer *)

Lemma lastn_short {A} (n : nat) (l : list A) :
  (List.length l <= n)%nat -> lastn n l = l.
Proof.
  intros H. unfold lastn.
  replace (List.length l - n)%nat with 0%nat by lia. reflexivity.
Qed.

Lemma lastn_length {A} (n : nat) (l : list A) :
  List.length (lastn n l) = Nat.min n (List.length l).
Proof.
  unfold lastn. rewrite length_skipn. lia.
Qed.

Lemma lastn_app_lastn {A} (n : nat) (l l' : list A) :
  lastn n (lastn n l ++ l') = lastn n (l ++ l').
Proof.
  destruct (Nat.le_gt_cases (List.length l) n) as [Hle | Hgt].
  - now rewrite (lastn_short n l).
  - unfold lastn at 1 3.
    rewrite !length_app, lastn_length.
    rewrite Nat.min_l by lia.
    unfold lastn.
    rewrite !skipn_app, length_skipn, skipn_skipn.
    f_equal.
    + f_equal. lia.
    + f_equal. lia.
Qed.

Lemma pushRecent_lastn (f : Point2D) (buf : list Point2D) :
  (List.length buf <= BUFFER_SIZE)%nat ->
  pushRecent f buf = lastn BUFFER_SIZE (buf ++ [f]).
Proof.
  intros Hlen. unfold pushRecent, lastn.
  rewrite length_app. cbn [List.length].
  destruct (Nat.ltb BUFFER_SIZE (List.length buf + 1)) eqn:Hfull.
  - apply Nat.ltb_lt in Hfull.
    replace (List.length buf + 1 - BUFFER_SIZE)%nat with 1%nat by lia.
    reflexivity.
  - apply Nat.ltb_ge in Hfull.
    replace (List.length buf + 1 - BUFFER_SIZE)%nat with 0%nat by lia.
    reflexivity.
Qed.

Lemma pushRecent_length (f : Point2D) (buf : list Point2D) :
  (List.length buf <= BUFFER_SIZE)%nat ->
  (0 < List.length (pushRecent f buf) <= BUFFER_SIZE)%nat.
Proof.
  intros Hlen. rewrite pushRecent_lastn by assumption.
  rewrite lastn_length, length_app. cbn [List.length].
  unfold BUFFER_SIZE in *. lia.
Qed.

Lemma pushN_lastn (n : nat) (f : Point2D) (buf : list Point2D) :
  (List.length buf <= BUFFER_SIZE)%nat ->
  pushN n f buf = lastn BUFFER_SIZE (buf ++ repeat f n).
Proof.
  revert buf. induction n as [|n IH]; intros buf Hlen.
  - cbn [pushN repeat]. rewrite app_nil_r. symmetry. now apply lastn_short.
  - cbn [pushN repeat].
    rewrite IH by (apply pushRecent_length; assumption).
    rewrite pushRecent_lastn by assumption.
    rewrite lastn_app_lastn, <- app_assoc. reflexivity.
Qed.

(** A full buffer's worth of the same point leaves nothing else in it. *)
Lemma pushN_full (f : Point2D) (buf : list Point2D) :
  (List.length buf <= BUFFER_SIZE)%nat ->
  pushN BUFFER_SIZE f buf = repeat f BUFFER_SIZE.
Proof.
  intros Hlen. rewrite pushN_lastn by assumption.
  unfold lastn. rewrite length_app, repeat_length.
  replace (List.length buf + BUFFER_SIZE - BUFFER_SIZE)%nat
    with (List.length buf + 0)%nat by lia.
  rewrite skipn_app, Nat.add_0_r, skipn_all.
  replace (List.length buf - List.length buf)%nat with 0%nat by lia.
  reflexivity.
Qed.

Lemma fold_left_sum {A} (g : A -> R) (l : list A) (a : R) :
  fold_left (fun s p => s + g p) l a = a + fold_right Rplus 0 (map g l).
Proof.
  revert a. induction l as [|p l IH]; intros a; cbn.
  - lra.
  - rewrite IH. lra.
Qed.

(** [getSmoothedPosition] is the arithmetic mean of a non-empty buffer. *)
Lemma getSmoothedPosition_mean (buf : list Point2D) :
  buf <> [] -> getSmoothedPosition buf = mean buf.
Proof.
  intros Hne. destruct buf as [|p buf]; [contradiction|].
  unfold getSmoothedPosition, mean, sumX, sumY.
  rewrite !fold_left_sum. f_equal; f_equal; lra.
Qed.

Lemma sum_repeat (v : R) (n : nat) :
  fold_right Rplus 0 (repeat v n) = INR n * v.
Proof.
  induction n as [|n IH].
  - cbn. lra.
  - cbn [repeat fold_right]. rewrite IH, S_INR. lra.
Qed.

Lemma mean_repeat (f : Point2D) (n : nat) :
  (0 < n)%nat -> mean (repeat f n) = f.
Proof.
  intros Hn. unfold mean.
  rewrite !map_repeat, !sum_repeat, repeat_length.
  assert (INR n <> 0) by (apply not_0_INR; lia).
  destruct f as [fx fy]. cbn [x y]. f_equal; field; assumption.
Qed.

(** *** The jitter filter *)

Lemma distance_sym (p q : Point2D) : distance p q = distance q p.
Proof. unfold distance. f_equal. ring. Qed.

Lemma distance_refl (p : Point2D) : distance p p = 0.
Proof.
  unfold distance. cbv zeta.
  replace ((x p - x p) * (x p - x p) + (y p - y p) * (y p - y p)) with 0 by ring.
  apply sqrt_0.
Qed.

Lemma applyJitterFilter_snd (p : Point2D) (fp : option Point2D) :
  snd (applyJitterFilter p fp) = Some (fst (applyJitterFilter p fp)).
Proof.
  unfold applyJitterFilter. destruct fp as [f|]; [|reflexivity].
  now destruct (Num.ltb (distance p f) JITTER_THRESHOLD).
Qed.

(** Once a raw point has been through the filter, the same raw point gives
    the same filtered point again. *)
Lemma applyJitterFilter_stable (p : Point2D) (fp : option Point2D) :
  let f := fst (applyJitterFilter p fp) in
  applyJitterFilter p (Some f) = (f, Some f).
Proof.
  assert (Hpp : Num.ltb (distance p p) JITTER_THRESHOLD = true).
  { apply NumFacts.ltb_lt. rewrite distance_refl. unfold JITTER_THRESHOLD. lra. }
  unfold applyJitterFilter. destruct fp as [f0|]; cbn [fst].
  - destruct (Num.ltb (distance p f0) JITTER_THRESHOLD) eqn:Hnear; cbn [fst].
    + now rewrite Hnear.
    + now rewrite Hpp.
  - now rewrite Hpp.
Qed.

(** *** The polyline *)

Lemma lastPoint_snoc (ps : list Point2D) (q : Point2D) :
  lastPoint (ps ++ [q]) = Some q.
Proof.
  unfold lastPoint. rewrite length_app. cbn [List.length].
  replace (List.length ps + 1 - 1)%nat with (List.length ps) by lia.
  rewrite nth_error_app2 by lia.
  now rewrite Nat.sub_diag.
Qed.

Lemma lastPoint_defined (ps : list Point2D) :
  ps <> [] -> exists front lp, ps = front ++ [lp] /\ lastPoint ps = Some lp.
Proof.
  intros Hne. destruct (exists_last Hne) as [front [lp ->]].
  exists front, lp. split; [reflexivity | apply lastPoint_snoc].
Qed.

Lemma spaced_snoc (front : list Point2D) (lp q : Point2D) :
  spaced (front ++ [lp]) ->
  STROKE.MIN_POINT_DISTANCE <= distance lp q ->
  spaced ((front ++ [lp]) ++ [q]).
Proof.
  induction front as [|a front IH]; intros Hsp Hd.
  - cbn. tauto.
  - destruct front as [|b front].
    + cbn in *. tauto.
    + cbn [app spaced] in *. destruct Hsp as [Hab Hrest].
      split; [assumption | now apply IH].
Qed.

Lemma spaced_nth (ps : list Point2D) (i : nat) (p q : Point2D) :
  spaced ps ->
  nth_error ps i = Some p -> nth_error ps (S i) = Some q ->
  STROKE.MIN_POINT_DISTANCE <= distance p q.
Proof.
  revert i. induction ps as [|a ps IH]; intros i Hsp Hp Hq.
  - destruct i; discriminate.
  - destruct ps as [|b ps]; [destruct i; discriminate|].
    destruct Hsp as [Hab Hrest]. destruct i as [|i].
    + cbn in Hp, Hq. now inversion Hp; inversion Hq; subst.
    + apply (IH i); assumption.
Qed.

(** *** One call of [addPoint] *)

Lemma addPoint_step (point : Point2D) (d : t) (s : Stroke) :
  currentStroke d = Some s ->
  points s <> [] ->
  let f := fst (applyJitterFilter point (filteredPosition d)) in
  let buf := pushRecent f (recentPoints d) in
  exists s',
    addPoint point d
    = Some (mk (Some s') (completedStrokes d)
               (Some (getSmoothedPosition buf)) (Some f) buf)
    /\ points s' <> []
    /\ (spaced (points s) -> spaced (points s'))
    /\ (points s' = points s
        \/ points s' = points s ++ [getSmoothedPosition buf]).
Proof.
  intros Hcur Hne f buf. unfold addPoint. rewrite Hcur.
  pose proof (applyJitterFilter_snd point (filteredPosition d)) as Hsnd.
  destruct (applyJitterFilter point (filteredPosition d)) as [f0 fp0] eqn:Hf.
  cbn [fst snd] in *. subst f fp0. fold buf.
  destruct (lastPoint_defined (points s) Hne) as [front [lp [Hps Hlast]]].
  rewrite Hlast.
  destruct (Num.geb (distance (getSmoothedPosition buf) lp)
                    STROKE.MIN_POINT_DISTANCE) eqn:Hfar.
  - eexists. split; [reflexivity|]. cbn [points]. split; [|split].
    + intros Heq. now apply app_eq_nil in Heq.
    + intros Hsp. rewrite Hps in *. apply spaced_snoc; [assumption|].
      apply NumFacts.geb_ge in Hfar. now rewrite distance_sym.
    + now right.
  - exists s. repeat split; trivial. now left.
Qed.

Lemma addPoints_steady (n : nat) (point f : Point2D) (d : t) (s : Stroke) :
  currentStroke d = Some s ->
  points s <> [] ->
  filteredPosition d = Some f ->
  applyJitterFilter point (Some f) = (f, Some f) ->
  exists d' s',
    addPoints n point d = Some d'
    /\ currentStroke d' = Some s' /\ points s' <> []
    /\ filteredPosition d' = Some f
    /\ recentPoints d' = pushN n f (recentPoints d)
    /\ ((0 < n)%nat ->
        livePosition d' = Some (getSmoothedPosition (recentPoints d'))).
Proof.
  revert d s. induction n as [|n IH]; intros d s Hcur Hne Hfp Hst.
  - exists d, s. cbn. repeat split; trivial. lia.
  - destruct (addPoint_step point d s Hcur Hne) as [s1 [Hadd [Hne1 _]]].
    rewrite Hfp, Hst in Hadd. cbn [fst] in Hadd.
    cbn [addPoints]. rewrite Hadd.
    match type of Hadd with
    | _ = Some ?d1 =>
        destruct (IH d1 s1 eq_refl Hne1 eq_refl Hst)
          as [d' [s' [Hrun [Hcur' [Hne' [Hfp' [Hbuf Hlive]]]]]]]
    end.
    exists d', s'. cbn [recentPoints] in Hbuf.
    repeat split; trivial.
    intros _. destruct n as [|n].
    + cbn in Hrun. inversion Hrun; subst d'. reflexivity.
    + apply Hlive. lia.
Qed.

(** [n + 1] calls with the same raw point: every call after the first sees
    the filtered point of the first. *)
Lemma addPoints_same (n : nat) (point : Point2D) (d : t) (s : Stroke) :
  currentStroke d = Some s ->
  points s <> [] ->
  let f := fst (applyJitterFilter point (filteredPosition d)) in
  exists d',
    addPoints (S n) point d = Some d'
    /\ recentPoints d' = pushN (S n) f (recentPoints d)
    /\ livePosition d' = Some (getSmoothedPosition (recentPoints d')).
Proof.
  intros Hcur Hne f.
  destruct (addPoint_step point d s Hcur Hne) as [s1 [Hadd [Hne1 _]]].
  fold f in Hadd.
  pose proof (applyJitterFilter_stable point (filteredPosition d)) as Hst.
  cbv zeta in Hst. fold f in Hst.
  cbn [addPoints]. rewrite Hadd.
  match type of Hadd with
  | _ = Some ?d1 =>
      destruct (addPoints_steady n point f d1 s1 eq_refl Hne1 eq_refl Hst)
        as [d' [s' [Hrun [_ [_ [_ [Hbuf Hlive]]]]]]]
  end.
  exists d'. cbn [recentPoints] in Hbuf. split; [assumption|].
  split; [assumption|].
  destruct n as [|n].
  - cbn in Hrun. inversion Hrun; subst d'. reflexivity.
  - apply Hlive. lia.
Qed.

(** *** The invariant of the canvas *)

Lemma Forall_keep_firstn {A} (P : A -> Prop) (n : nat) (l : list A) :
  Forall P l -> Forall P (firstn n l).
Proof.
  intros H. revert n. induction H as [|a l Ha _ IH]; intros [|n]; cbn;
    constructor; auto.
Qed.

Lemma Forall_keep_skipn {A} (P : A -> Prop) (n : nat) (l : list A) :
  Forall P l -> Forall P (skipn n l).
Proof.
  intros H. revert n. induction H as [|a l Ha Hl IH]; intros [|n]; cbn; auto.
Qed.

Lemma invariant_init : invariant init.
Proof.
  unfold invariant, init. cbn. repeat split.
  - discriminate.
  - discriminate.
  - constructor.
  - unfold BUFFER_SIZE. lia.
Qed.

Lemma invariant_step (op : Op) (d d' : t) :
  invariant d -> step op d = Some d' -> invariant d'.
Proof.
  intros [Hcur [Hdone Hbuf]] Hstep.
  destruct op; cbn [step] in Hstep.
  - (* startStroke *)
    inversion Hstep; subst d'. unfold invariant, startStroke. cbn.
    repeat split; trivial.
    + inversion H; subst s. cbn. discriminate.
    + inversion H; subst s. cbn. trivial.
    + unfold BUFFER_SIZE. lia.
  - (* addPoint *)
    destruct (currentStroke d) as [s|] eqn:Hs.
    + destruct (Hcur s eq_refl) as [Hne Hsp].
      destruct (addPoint_step point d s Hs Hne) as [s' [Hadd [Hne' [Hsp' _]]]].
      rewrite Hadd in Hstep. inversion Hstep; subst d'.
      unfold invariant. cbn. repeat split; trivial.
      * inversion H; subst s0. assumption.
      * inversion H; subst s0. now apply Hsp'.
      * now apply pushRecent_length.
    + unfold addPoint in Hstep. rewrite Hs in Hstep.
      inversion Hstep; subst d'. unfold invariant. rewrite Hs. tauto.
  - (* updateLivePosition *)
    inversion Hstep; subst d'. unfold updateLivePosition.
    destruct (applyJitterFilter point (filteredPosition d)) as [f fp].
    unfold invariant. cbn. repeat split; trivial.
    + now apply Hcur.
    + now apply Hcur.
    + now apply pushRecent_length.
  - (* clearLivePosition *)
    inversion Hstep; subst d'. unfold invariant, clearLivePosition. cbn.
    repeat split; trivial; try (now apply Hcur). unfold BUFFER_SIZE. lia.
  - (* pauseStroke *)
    inversion Hstep; subst d'. unfold pauseStroke, invariant. tauto.
  - (* closeStroke *)
    inversion Hstep; subst d'. unfold closeStroke.
    destruct (currentStroke d) as [s|] eqn:Hs.
    + destruct (Hcur s eq_refl) as [Hne Hsp].
      destruct (Num.ltb _ _); [|destruct (Nat.ltb _ _)];
        unfold invariant, discardStroke; cbn; repeat split;
        trivial; try discriminate.
      apply Forall_app. split; [assumption|]. constructor; [assumption|constructor].
    + unfold invariant. cbn. rewrite Hs. tauto.
  - (* discardStroke *)
    inversion Hstep; subst d'. unfold invariant, discardStroke. cbn.
    repeat split; trivial; discriminate.
  - (* clearAll *)
    inversion Hstep; subst d'. unfold invariant, clearAll. cbn.
    repeat split; trivial; discriminate.
  - (* removeCompletedStroke *)
    inversion Hstep; subst d'. unfold removeCompletedStroke.
    destruct index as [i|]; [|unfold invariant; tauto].
    unfold invariant.
    cbn [currentStroke completedStrokes recentPoints].
    repeat split; trivial; try (now apply Hcur).
    apply Forall_app.
    split; [now apply Forall_keep_firstn | now apply Forall_keep_skipn].
Qed.

Lemma reachable_invariant (d : t) : reachable d -> invariant d.
Proof.
  induction 1 as [|d d' op _ IH Hstep].
  - apply invariant_init.
  - exact (invariant_step op d d' IH Hstep).
Qed.

(** [addPoint] never throws on a canvas that a client can produce. *)
Lemma addPoint_total (point : Point2D) (d : t) :
  reachable d -> exists d', addPoint point d = Some d'.
Proof.
  intros Hr. destruct (reachable_invariant d Hr) as [Hcur _].
  destruct (currentStroke d) as [s|] eqn:Hs.
  - destruct (Hcur s eq_refl) as [Hne _].
    destruct (addPoint_step point d s Hs Hne) as [s' [Hadd _]].
    eexists. exact Hadd.
  - exists d. unfold addPoint. now rewrite Hs.
Qed.

(** *** A concrete run *)

Lemma reachable_started : reachable startedCanvas.
Proof.
  exact (reachable_step init startedCanvas
           (StartStroke (mkPoint2D 0 0) "#FFB3BA") reachable_init eq_refl).
Qed.

Lemma distance_horizontal (a b c : R) :
  c <= a -> distance (mkPoint2D a b) (mkPoint2D c b) = a - c.
Proof.
  intros H. unfold distance. cbn [x y].
  apply NumFacts.sqrt_eq; [lra | ring].
Qed.

Lemma addPoint_started :
  addPoint (mkPoint2D 100 0) startedCanvas = Some heldCanvas1.
Proof.
  unfold addPoint, startedCanvas, startStroke, applyJitterFilter, heldCanvas1.
  cbn [currentStroke filteredPosition recentPoints completedStrokes init
       points color width closed].
  rewrite distance_horizontal by lra.
  replace (Num.ltb (100 - 0) JITTER_THRESHOLD) with false
    by (symmetry; apply NumFacts.ltb_ge; unfold JITTER_THRESHOLD; lra).
  replace (getSmoothedPosition (pushRecent (mkPoint2D 100 0) [mkPoint2D 0 0]))
    with (mkPoint2D 50 0)
    by (unfold getSmoothedPosition, sumX, sumY; cbn; f_equal; lra).
  unfold lastPoint. cbn [List.length Nat.sub nth_error].
  rewrite distance_horizontal by lra.
  replace (Num.geb (50 - 0) STROKE.MIN_POINT_DISTANCE) with true
    by (symmetry; apply NumFacts.geb_ge; unfold STROKE.MIN_POINT_DISTANCE; lra).
  reflexivity.
Qed.

Lemma addPoint_held :
  addPoint (mkPoint2D 100 0) heldCanvas1 = Some heldCanvas2.
Proof.
  unfold addPoint, applyJitterFilter, heldCanvas1, heldCanvas2, heldStroke.
  cbn [currentStroke filteredPosition recentPoints completedStrokes
       points color width closed].
  rewrite distance_horizontal by lra.
  replace (Num.ltb (100 - 100) JITTER_THRESHOLD) with true
    by (symmetry; apply NumFacts.ltb_lt; unfold JITTER_THRESHOLD; lra).
  replace (getSmoothedPosition
             (pushRecent (mkPoint2D 100 0) [mkPoint2D 0 0; mkPoint2D 100 0]))
    with (mkPoint2D (200 / 3) 0)
    by (unfold getSmoothedPosition, sumX, sumY; cbn; f_equal; lra).
  unfold lastPoint. cbn [List.length Nat.sub nth_error].
  rewrite distance_horizontal by lra.
  replace (Num.geb (200 / 3 - 50) STROKE.MIN_POINT_DISTANCE) with true
    by (symmetry; apply NumFacts.geb_ge; unfold STROKE.MIN_POINT_DISTANCE; lra).
  reflexivity.
Qed.

Lemma reachable_held : reachable heldCanvas2.
Proof.
  apply (reachable_step heldCanvas1 _ (AddPoint (mkPoint2D 100 0)));
    [|exact addPoint_held].
  apply (reachable_step startedCanvas _ (AddPoint (mkPoint2D 100 0)));
    [|exact addPoint_started].
  exact reachable_started.
Qed.

Lemma closeStroke_held :
  fst (closeStroke heldCanvas2)
  = Some (mkStroke (points heldStroke) "#FFB3BA" STROKE.WIDTH true).
Proof.
  unfold closeStroke, calculateStrokeLength, heldCanvas2, heldStroke.
  cbn [currentStroke points color width List.length Nat.ltb Nat.leb
       strokeLengthLoop].
  rewrite (distance_sym (mkPoint2D 0 0) (mkPoint2D 50 0)),
    (distance_sym (mkPoint2D 50 0) (mkPoint2D (200 / 3) 0)).
  rewrite !distance_horizontal by lra.
  replace (Num.ltb (0 + (50 - 0) + (200 / 3 - 50)) GESTURE.MIN_STROKE_LENGTH)
    with false
    by (symmetry; apply NumFacts.ltb_ge; unfold GESTURE.MIN_STROKE_LENGTH; lra).
  reflexivity.
Qed.

(** *** Smoothing *)

(** C5, as the code has it.  During stroke capture every call of [addPoint]
    succeeds; the buffer afterwards is the last [BUFFER_SIZE] (10) entries of
    the old buffer followed by the jitter-filtered point [f], so it holds
    between 1 and 10 points; the smoothed point emitted (the live position,
    and the point appended to the polyline when one is appended) is the
    arithmetic mean of that buffer.  After [BUFFER_SIZE] calls with the same
    raw point the buffer holds [f] only and the smoothed point is [f]
    exactly, where [f] is the raw point when no filtered position is held or
    the raw point lies at least [JITTER_THRESHOLD] from it, and the held
    filtered position otherwise. *)
Theorem smoothing_mean (d : t) (s : Stroke) (point : Point2D) :
  reachable d ->
  currentStroke d = Some s ->
  let f := fst (applyJitterFilter point (filteredPosition d)) in
  (exists d' s',
     addPoint point d = Some d'
     /\ recentPoints d' = lastn BUFFER_SIZE (recentPoints d ++ [f])
     /\ (0 < List.length (recentPoints d') <= BUFFER_SIZE)%nat
     /\ livePosition d' = Some (mean (recentPoints d'))
     /\ currentStroke d' = Some s'
     /\ (points s' = points s
         \/ points s' = points s ++ [mean (recentPoints d')]))
  /\ (exists d',
        addPoints BUFFER_SIZE point d = Some d'
        /\ recentPoints d' = repeat f BUFFER_SIZE
        /\ livePosition d' = Some f)
  /\ (filteredPosition d = None -> f = point)
  /\ (forall fp, filteredPosition d = Some fp ->
                 JITTER_THRESHOLD <= distance point fp -> f = point)
  /\ (forall fp, filteredPosition d = Some fp ->
                 distance point fp < JITTER_THRESHOLD -> f = fp).
Proof.
  intros Hreach Hcur f.
  destruct (reachable_invariant d Hreach) as [Hinv [_ Hbuf]].
  destruct (Hinv s Hcur) as [Hne _].
  split; [|split; [|split; [|split]]].
  - destruct (addPoint_step point d s Hcur Hne) as [s' [Hadd [_ [_ Hpts]]]].
    fold f in Hadd, Hpts.
    pose proof (pushRecent_length f (recentPoints d) Hbuf) as Hlen.
    assert (Hnonempty : pushRecent f (recentPoints d) <> []).
    { intros Heq. rewrite Heq in Hlen. cbn in Hlen. lia. }
    eexists. exists s'. split; [exact Hadd|].
    cbn [recentPoints livePosition currentStroke].
    rewrite <- (getSmoothedPosition_mean _ Hnonempty).
    repeat split; trivial; try apply Hlen.
    now apply pushRecent_lastn.
  - destruct (addPoints_same (pred BUFFER_SIZE) point d s Hcur Hne)
      as [d' [Hrun [Hbuf' Hlive]]].
    fold f in Hbuf'.
    change (S (pred BUFFER_SIZE)) with BUFFER_SIZE in Hrun, Hbuf'.
    rewrite pushN_full in Hbuf' by assumption.
    exists d'. split; [assumption|]. split; [assumption|].
    rewrite Hlive, Hbuf', getSmoothedPosition_mean by discriminate.
    f_equal. apply mean_repeat. unfold BUFFER_SIZE. lia.
  - intros Hnone. subst f. now rewrite Hnone.
  - intros fp Hfp Hfar. subst f. rewrite Hfp. cbn [applyJitterFilter].
    apply NumFacts.ltb_ge in Hfar. now rewrite Hfar.
  - intros fp Hfp Hnear. subst f. rewrite Hfp. cbn [applyJitterFilter].
    apply NumFacts.ltb_lt in Hnear. now rewrite Hnear.
Qed.

Lemma smoothing_mean_witness :
  let f := fst (applyJitterFilter (mkPoint2D 0 0)
                  (filteredPosition startedCanvas)) in
  exists d',
    addPoints BUFFER_SIZE (mkPoint2D 0 0) startedCanvas = Some d'
    /\ recentPoints d' = repeat f BUFFER_SIZE
    /\ livePosition d' = Some f.
Proof.
  exact (proj1 (proj2
    (smoothing_mean startedCanvas _ (mkPoint2D 0 0) reachable_started eq_refl))).
Defined.

(** C5 as stated fails on raw points: a stroke begun at the origin and fed 10
    raw points (1, 0), one pixel away and so below the jitter floor, emits
    the smoothed point (0, 0), not (1, 0). *)
Lemma smoothing_raw_counterexample :
  exists d',
    addPoints BUFFER_SIZE (mkPoint2D 1 0) startedCanvas = Some d'
    /\ livePosition d' = Some (mkPoint2D 0 0)
    /\ livePosition d' <> Some (mkPoint2D 1 0).
Proof.
  destruct (addPoints_same (pred BUFFER_SIZE) (mkPoint2D 1 0) startedCanvas
              _ eq_refl) as [d' [Hrun [Hbuf Hlive]]].
  { discriminate. }
  assert (Hf : fst (applyJitterFilter (mkPoint2D 1 0)
                      (filteredPosition startedCanvas)) = mkPoint2D 0 0).
  { cbn [startedCanvas startStroke filteredPosition applyJitterFilter].
    rewrite distance_horizontal by lra.
    replace (Num.ltb (1 - 0) JITTER_THRESHOLD) with true
      by (symmetry; apply NumFacts.ltb_lt; unfold JITTER_THRESHOLD; lra).
    reflexivity. }
  rewrite Hf in Hbuf.
  change (S (pred BUFFER_SIZE)) with BUFFER_SIZE in Hrun, Hbuf.
  rewrite pushN_full in Hbuf by (cbn; unfold BUFFER_SIZE; lia).
  assert (Hzero : livePosition d' = Some (mkPoint2D 0 0)).
  { rewrite Hlive, Hbuf, getSmoothedPosition_mean by discriminate.
    f_equal. apply mean_repeat. unfold BUFFER_SIZE. lia. }
  exists d'. split; [assumption|]. split; [assumption|].
  rewrite Hzero. intros Heq. inversion Heq. lra.
Qed.

(** *** Point spacing *)

(** C6. In every stroke that [closeStroke] returns, and in every stroke kept
    among the completed ones, any two consecutive points of the polyline are
    at least [STROKE.MIN_POINT_DISTANCE] apart, whatever sequence of calls
    produced the canvas. *)
Theorem finished_stroke_spacing (d : t) (c : Stroke) (i : nat) (p q : Point2D) :
  reachable d ->
  fst (closeStroke d) = Some c \/ In c (completedStrokes d) ->
  nth_error (points c) i = Some p ->
  nth_error (points c) (S i) = Some q ->
  STROKE.MIN_POINT_DISTANCE <= distance p q.
Proof.
  intros Hreach Hc Hp Hq.
  destruct (reachable_invariant d Hreach) as [Hcur [Hdone _]].
  apply (spaced_nth (points c) i); trivial.
  destruct Hc as [Hclose | Hin].
  - unfold closeStroke in Hclose.
    destruct (currentStroke d) as [s|] eqn:Hs; [|discriminate].
    destruct (Num.ltb _ _); [discriminate|].
    destruct (Nat.ltb _ _); [|discriminate].
    inversion Hclose; subst c. cbn [points]. now apply Hcur.
  - rewrite Forall_forall in Hdone. now apply Hdone.
Qed.

Lemma finished_stroke_spacing_witness :
  STROKE.MIN_POINT_DISTANCE <= distance (mkPoint2D 0 0) (mkPoint2D 50 0).
Proof.
  exact (finished_stroke_spacing heldCanvas2 _ 0 _ _
           reachable_held (or_introl closeStroke_held) eq_refl eq_refl).
Defined.

(** *** Further properties of the canvas *)

(** X1. The jitter filter never returns a point as far as
    [JITTER_THRESHOLD] from the raw point: it returns the raw point itself,
    or the held position when the raw point is closer than the threshold to
    it, and in that case the held position is kept. *)
Theorem jitter_filter_bound (point : Point2D) (fp : option Point2D) :
  distance point (fst (applyJitterFilter point fp)) < JITTER_THRESHOLD
  /\ (fst (applyJitterFilter point fp) = point
      \/ exists f, fp = Some f
                   /\ distance point f < JITTER_THRESHOLD
                   /\ applyJitterFilter point fp = (f, Some f)).
Proof.
  assert (Hzero : distance point point < JITTER_THRESHOLD).
  { rewrite distance_refl. unfold JITTER_THRESHOLD. lra. }
  unfold applyJitterFilter. destruct fp as [f|]; cbn [fst].
  - destruct (Num.ltb (distance point f) JITTER_THRESHOLD) eqn:Hnear; cbn [fst].
    + apply NumFacts.ltb_lt in Hnear. split; [assumption|].
      right. exists f. now repeat split.
    + split; [assumption | now left].
  - split; [assumption | now left].
Qed.

Lemma sum_bounds (g : Point2D -> R) (lo hi : R) (ps : list Point2D) :
  (forall p, In p ps -> lo <= g p <= hi) ->
  INR (List.length ps) * lo <= fold_right Rplus 0 (map g ps)
                            <= INR (List.length ps) * hi.
Proof.
  induction ps as [|p ps IH]; intros Hin.
  - cbn. lra.
  - cbn [map fold_right]. rewrite length_cons, S_INR.
    assert (Hp := Hin p (or_introl eq_refl)).
    assert (Hps : forall q, In q ps -> lo <= g q <= hi)
      by (intros q Hq; apply Hin; now right).
    specialize (IH Hps). lra.
Qed.

(** X2. The smoothed position lies within the range of the buffer: between
    any bounds that hold of the abscissas (ordinates) of all buffered
    points. *)
Theorem smoothed_within_buffer (buf : list Point2D) (lo hi : R) :
  buf <> [] ->
  ((forall p, In p buf -> lo <= x p <= hi) ->
   lo <= x (getSmoothedPosition buf) <= hi)
  /\ ((forall p, In p buf -> lo <= y p <= hi) ->
      lo <= y (getSmoothedPosition buf) <= hi).
Proof.
  intros Hne. rewrite getSmoothedPosition_mean by assumption.
  assert (Hn : 0 < INR (List.length buf)).
  { apply lt_0_INR. destruct buf; [contradiction | cbn; lia]. }
  unfold mean. cbn [x y].
  split; intros Hin.
  - pose proof (sum_bounds x lo hi buf Hin) as [Hlo Hhi].
    split.
    + apply (Rmult_le_reg_r (INR (List.length buf))); [assumption|].
      unfold Rdiv. rewrite Rmult_assoc, Rinv_l by lra. lra.
    + apply (Rmult_le_reg_r (INR (List.length buf))); [assumption|].
      unfold Rdiv. rewrite Rmult_assoc, Rinv_l by lra. lra.
  - pose proof (sum_bounds y lo hi buf Hin) as [Hlo Hhi].
    split.
    + apply (Rmult_le_reg_r (INR (List.length buf))); [assumption|].
      unfold Rdiv. rewrite Rmult_assoc, Rinv_l by lra. lra.
    + apply (Rmult_le_reg_r (INR (List.length buf))); [assumption|].
      unfold Rdiv. rewrite Rmult_assoc, Rinv_l by lra. lra.
Qed.

Lemma smoothed_within_buffer_witness :
  0 <= x (getSmoothedPosition [mkPoint2D 0 0; mkPoint2D 100 0]) <= 100.
Proof.
  apply (proj1 (smoothed_within_buffer [mkPoint2D 0 0; mkPoint2D 100 0] 0 100
                  ltac:(discriminate))).
  intros p [<- | [<- | []]]; cbn; lra.
Defined.

Lemma strokesInvariant_init : strokesInvariant init.
Proof.
  split; [discriminate | constructor].
Qed.

Lemma strokesInvariant_step (op : Op) (d d' : t) :
  strokesInvariant d -> step op d = Some d' -> strokesInvariant d'.
Proof.
  intros [Hcur Hdone] Hstep.
  destruct op; cbn [step] in Hstep.
  - inversion Hstep; subst d'. unfold strokesInvariant, startStroke. cbn.
    split; [|assumption]. intros s Hs. inversion Hs; subst s. now split.
  - unfold addPoint in Hstep.
    destruct (currentStroke d) as [s|] eqn:Hs.
    + destruct (Hcur s eq_refl) as [Hopen Hwidth].
      destruct (applyJitterFilter point (filteredPosition d)) as [f fp].
      destruct (lastPoint (points s)); [|discriminate].
      inversion Hstep; subst d'. unfold strokesInvariant. cbn.
      split; [|assumption]. intros s' Hs'. inversion Hs'; subst s'.
      destruct (Num.geb _ _); cbn; now split.
    + inversion Hstep; subst d'. unfold strokesInvariant. rewrite Hs.
      now split.
  - inversion Hstep; subst d'. unfold updateLivePosition.
    destruct (applyJitterFilter point (filteredPosition d)) as [f fp].
    now split.
  - inversion Hstep; subst d'. now split.
  - inversion Hstep; subst d'. now split.
  - inversion Hstep; subst d'. unfold closeStroke.
    destruct (currentStroke d) as [s|] eqn:Hs.
    + destruct (Hcur s eq_refl) as [Hopen Hwidth].
      rewrite (calculateStrokeLength_arcLength d s Hs).
      destruct (Num.ltb _ _) eqn:Hshort;
        [split; [discriminate | assumption]|].
      destruct (Nat.ltb _ _) eqn:Hcount;
        [|split; [discriminate | assumption]].
      apply NumFacts.ltb_ge in Hshort. apply Nat.ltb_lt in Hcount.
      split; [discriminate|]. cbn [snd completedStrokes].
      apply Forall_app. split; [assumption|].
      constructor; [|constructor]. cbn. repeat split; trivial.
    + split; [|assumption]. cbn. now rewrite Hs.
  - inversion Hstep; subst d'. split; [discriminate | assumption].
  - inversion Hstep; subst d'. split; [discriminate | constructor].
  - inversion Hstep; subst d'. unfold removeCompletedStroke.
    destruct index as [i|]; [|now split].
    split; [assumption|]. cbn [completedStrokes].
    apply Forall_app.
    split; [now apply Forall_keep_firstn | now apply Forall_keep_skipn].
Qed.

(** X3. On every canvas that a sequence of calls produces, the stroke in
    progress is open and has the width [STROKE.WIDTH], and every completed
    stroke is closed, has that width, at least 3 points and an arc length of
    at least [GESTURE.MIN_STROKE_LENGTH]. *)
Theorem strokes_wellformed (d : t) : reachable d -> strokesInvariant d.
Proof.
  induction 1 as [|d d' op _ IH Hstep].
  - apply strokesInvariant_init.
  - exact (strokesInvariant_step op d d' IH Hstep).
Qed.

Lemma strokes_wellformed_witness :
  strokesInvariant (snd (closeStroke heldCanvas2)).
Proof.
  apply strokes_wellformed.
  exact (reachable_step heldCanvas2 _ CloseStroke reachable_held eq_refl).
Defined.

Lemma idle_canvas (d : t) (point : Point2D) :
  currentStroke d = None ->
  addPoint point d = Some d /\ closeStroke d = (None, d).
Proof.
  intros Hidle. unfold addPoint, closeStroke. now rewrite Hidle.
Qed.

Lemma closeStroke_clears (d : t) : currentStroke (snd (closeStroke d)) = None.
Proof.
  unfold closeStroke. destruct (currentStroke d) as [s|] eqn:Hs; [|assumption].
  destruct (Num.ltb _ _); [reflexivity|].
  destruct (Nat.ltb _ _); reflexivity.
Qed.

(** X4. After [discardStroke], and after [closeStroke] whatever it
    returned, no stroke is in progress: a further [addPoint] changes
    nothing, a further [closeStroke] returns null and changes nothing, and
    [discardStroke] has kept the completed strokes. *)
Theorem stroke_ended (d : t) (point : Point2D) :
  (currentStroke (discardStroke d) = None
   /\ completedStrokes (discardStroke d) = completedStrokes d
   /\ addPoint point (discardStroke d) = Some (discardStroke d)
   /\ closeStroke (discardStroke d) = (None, discardStroke d))
  /\ (currentStroke (snd (closeStroke d)) = None
      /\ addPoint point (snd (closeStroke d)) = Some (snd (closeStroke d))
      /\ closeStroke (snd (closeStroke d)) = (None, snd (closeStroke d))).
Proof.
  split.
  - split; [reflexivity|]. split; [reflexivity|].
    now apply idle_canvas.
  - split; [apply closeStroke_clears|].
    apply idle_canvas, closeStroke_clears.
Qed.

(** *** Rendering paths *)

Lemma last_cons_nonempty {A} (a d : A) (l : list A) :
  l <> [] -> last (a :: l) d = last l d.
Proof. destruct l; [contradiction | reflexivity]. Qed.

Lemma last_default {A} (d d' : A) (l : list A) :
  l <> [] -> last l d = last l d'.
Proof.
  induction l as [|a l IH]; intros Hne; [contradiction|].
  destruct l as [|b l]; [reflexivity|].
  rewrite !(last_cons_nonempty a) by discriminate.
  apply IH. discriminate.
Qed.

Lemma last_cons_shift {A} (a d : A) (l : list A) :
  last (a :: l) d = last l a.
Proof.
  destruct l as [|b l]; [reflexivity|].
  rewrite last_cons_nonempty by discriminate.
  apply last_default. discriminate.
Qed.

Lemma smoothSegments_cons (first : bool) (p0 p1 : Point2D)
  (rest : list Point2D) :
  exists cmd,
    smoothSegments first (p0 :: p1 :: rest)
    = cmd :: smoothSegments false (p1 :: rest).
Proof. eexists. reflexivity. Qed.

Lemma smoothSegments_length (first : bool) (pts : list Point2D) :
  List.length (smoothSegments first pts) = pred (List.length pts).
Proof.
  revert first. induction pts as [|p0 pts IH]; intros first; [reflexivity|].
  destruct pts as [|p1 rest]; [reflexivity|].
  destruct (smoothSegments_cons first p0 p1 rest) as [cmd ->].
  cbn [List.length]. rewrite IH. reflexivity.
Qed.

Lemma smoothSegments_nonempty (first : bool) (p0 p1 : Point2D)
  (rest : list Point2D) :
  smoothSegments first (p0 :: p1 :: rest) <> [].
Proof. cbn [smoothSegments]. discriminate. Qed.

(** The segments after the first end at the last point. *)
Lemma smoothSegments_pen (p0 p1 : Point2D) (rest : list Point2D) :
  penAfter (smoothSegments false (p0 :: p1 :: rest))
  = Some (mkPoint2D (x (last rest p1)) (y (last rest p1))).
Proof.
  revert p0 p1. induction rest as [|p2 rest IH]; intros p0 p1.
  - reflexivity.
  - unfold penAfter in *.
    change (smoothSegments false (p0 :: p1 :: p2 :: rest))
      with (QuadraticCurveTo (x p0) (y p0)
              ((x p0 + x p1) / 2) ((y p0 + y p1) / 2)
            :: smoothSegments false (p1 :: p2 :: rest)).
    rewrite last_cons_nonempty by apply smoothSegments_nonempty.
    rewrite IH. destruct rest as [|p3 rest]; [reflexivity|].
    rewrite (last_cons_nonempty p2) by discriminate.
    now rewrite (last_default p2 p1) by discriminate.
Qed.

(** X5. [drawSmoothCurve] draws nothing for fewer than 2 points; for 2 or
    more it begins a path at the first point, makes one line or curve call
    per pair of consecutive points, and leaves the pen on the last point.
    So the path of a closed stroke of at least 2 points, which
    [drawStrokePath] extends by the first point, ends where it began. *)
Theorem smooth_curve_path (pts : list Point2D) (p0 : Point2D) :
  ((List.length pts < 2)%nat -> drawSmoothCurve pts = [])
  /\ ((2 <= List.length pts)%nat -> hd_error pts = Some p0 ->
      (exists cmds,
         drawSmoothCurve pts
         = BeginPath :: CanvasMoveTo (x p0) (y p0) :: cmds
         /\ List.length cmds = pred (List.length pts))
      /\ penAfter (drawSmoothCurve pts)
         = Some (mkPoint2D (x (last pts p0)) (y (last pts p0)))
      /\ forall c w,
           penAfter (drawStrokePath (mkStroke pts c w true))
           = Some (mkPoint2D (x p0) (y p0))).
Proof.
  split.
  - intros Hshort. destruct pts as [|a [|b rest]]; try reflexivity.
    cbn in Hshort. lia.
  - intros Hlong Hhd.
    destruct pts as [|a [|b rest]]; cbn in Hlong; try lia.
    inversion Hhd; subst a. clear Hhd Hlong.
    assert (Hpen : forall q ps,
               penAfter (drawSmoothCurve (p0 :: q :: ps))
               = Some (mkPoint2D (x (last ps q)) (y (last ps q)))).
    { intros q [|q' ps]; [reflexivity|].
      unfold drawSmoothCurve, penAfter.
      rewrite !last_cons_nonempty
        by (try discriminate; apply smoothSegments_nonempty).
      change (smoothSegments true (p0 :: q :: q' :: ps))
        with (CanvasLineTo ((x p0 + x q) / 2) ((y p0 + y q) / 2)
              :: smoothSegments false (q :: q' :: ps)).
      rewrite last_cons_nonempty by apply smoothSegments_nonempty.
      rewrite (last_cons_shift q' q).
      exact (smoothSegments_pen q q' ps). }
    split; [|split].
    + destruct rest as [|c rest].
      * eexists. split; reflexivity.
      * eexists. split; [reflexivity|].
        rewrite smoothSegments_length. reflexivity.
    + rewrite Hpen, !last_cons_shift. reflexivity.
    + intros c w. unfold drawStrokePath. cbn [closed points app].
      rewrite Hpen. rewrite last_last. reflexivity.
Qed.

Lemma smooth_curve_path_witness :
  penAfter (drawStrokePath triangleStroke) = Some (mkPoint2D 0 0).
Proof.
  exact (proj2 (proj2 (proj2 (smooth_curve_path (points triangleStroke)
                                (mkPoint2D 0 0)) ltac:(cbn; lia) eq_refl))
           "#BAE1FF"%string STROKE.WIDTH).
Defined.

End DrawingCanvasFacts.

(** ** Gesture classification *)

Module GestureDetectorFacts.
Import GestureDetector GestureDetectorSpec.

Lemma distance_lt_bound (p q : Point2D) (r : R) :
  0 < r ->
  (x p - x q) * (x p - x q) + (y p - y q) * (y p - y q) < r * r ->
  distance p q < r.
Proof.
  intros Hr Hsq. unfold distance, hypot.
  apply NumFacts.sqrt_lt_bound; [|assumption|assumption].
  apply Rplus_le_le_0_compat; apply Rle_0_sqr.
Qed.

Lemma lm_defined (l : HandLandmarks) (i : nat) :
  wellFormed l -> (i < 21)%nat -> exists p, lm l i = Some p.
Proof.
  intros Hwf Hi. unfold lm.
  destruct (nth_error (landmarks l) i) as [p|] eqn:Hnth.
  - now exists p.
  - apply nth_error_None in Hnth. unfold wellFormed in Hwf. lia.
Qed.

Lemma isFingerExtended_defined (l : HandLandmarks) (tipIdx pipIdx : nat) :
  wellFormed l -> (tipIdx < 21)%nat -> (pipIdx < 21)%nat ->
  exists b, isFingerExtended l tipIdx pipIdx = Some b.
Proof.
  intros Hwf Ht Hp. unfold isFingerExtended.
  destruct (lm_defined l tipIdx Hwf Ht) as [tip ->].
  destruct (lm_defined l pipIdx Hwf Hp) as [pip ->].
  cbn. eauto.
Qed.

Lemma getPalmCenter_defined (l : HandLandmarks) :
  wellFormed l -> exists c, getPalmCenter l = Some c.
Proof.
  intros Hwf. unfold getPalmCenter, LANDMARKS.WRIST, LANDMARKS.INDEX_MCP,
    LANDMARKS.PINKY_MCP.
  destruct (lm_defined l 0 Hwf) as [p0 ->]; [lia|].
  destruct (lm_defined l 5 Hwf) as [p5 ->]; [lia|].
  destruct (lm_defined l 17 Hwf) as [p17 ->]; [lia|].
  cbn. eauto.
Qed.

Lemma calculateVelocity_defined (g : t) (l : HandLandmarks) (dt : R) :
  wellFormed l -> wellFormedDetector g ->
  exists v, calculateVelocity g l dt = Some v.
Proof.
  intros Hwf Hg. unfold calculateVelocity.
  destruct (lastLandmarks g) as [last|] eqn:Hlast; [|eauto].
  destruct (Num.eqb_num dt 0); [eauto|].
  destruct (getPalmCenter_defined l Hwf) as [c ->].
  destruct (getPalmCenter_defined last (Hg last Hlast)) as [c' ->].
  cbn. eauto.
Qed.

(** Whatever [detectGestureType] returns is one of the five classified
    gestures. *)
Lemma detectGestureType_classified (l : HandLandmarks) (v : Point2D)
  (gesture : GestureType) :
  detectGestureType l v = Some gesture -> In gesture classified.
Proof.
  unfold detectGestureType, bind, classified.
  destruct (lm l LANDMARKS.THUMB_TIP); [|discriminate].
  destruct (lm l LANDMARKS.INDEX_TIP); [|discriminate].
  destruct (Num.ltb _ 60).
  { intros H; inversion H; cbn; tauto. }
  destruct (isPointingIndex l) as [[|]|]; try discriminate.
  { intros H; inversion H; cbn; tauto. }
  destruct (isOpenPalm l) as [[|]|]; try discriminate.
  { intros H; inversion H; cbn; tauto. }
  destruct (isFist l) as [[|]|]; try discriminate;
    intros H; inversion H; cbn; tauto.
Qed.

Lemma detectGestureType_defined (l : HandLandmarks) (v : Point2D) :
  wellFormed l -> exists gesture, detectGestureType l v = Some gesture.
Proof.
  intros Hwf.
  destruct (isFingerExtended_defined l LANDMARKS.INDEX_TIP LANDMARKS.INDEX_PIP Hwf)
    as [bi Hi]; [unfold LANDMARKS.INDEX_TIP; lia | unfold LANDMARKS.INDEX_PIP; lia |].
  destruct (isFingerExtended_defined l LANDMARKS.MIDDLE_TIP LANDMARKS.MIDDLE_PIP Hwf)
    as [bm Hm]; [unfold LANDMARKS.MIDDLE_TIP; lia | unfold LANDMARKS.MIDDLE_PIP; lia |].
  destruct (isFingerExtended_defined l LANDMARKS.RING_TIP LANDMARKS.RING_PIP Hwf)
    as [br Hr]; [unfold LANDMARKS.RING_TIP; lia | unfold LANDMARKS.RING_PIP; lia |].
  destruct (isFingerExtended_defined l LANDMARKS.PINKY_TIP LANDMARKS.PINKY_PIP Hwf)
    as [bp Hp]; [unfold LANDMARKS.PINKY_TIP; lia | unfold LANDMARKS.PINKY_PIP; lia |].
  destruct (lm_defined l LANDMARKS.THUMB_TIP Hwf) as [tt Htt];
    [unfold LANDMARKS.THUMB_TIP; lia|].
  destruct (lm_defined l LANDMARKS.INDEX_TIP Hwf) as [it Hit];
    [unfold LANDMARKS.INDEX_TIP; lia|].
  unfold detectGestureType, isPointingIndex, isOpenPalm, isFist, and_then, not_.
  rewrite Htt, Hit, Hi, Hm, Hr, Hp. cbn [bind].
  destruct (Num.ltb _ 60); [eauto|].
  destruct bi, bm, br, bp; cbn; eauto.
Qed.

Lemma gesture_eqb_eq (a b : GestureType) : gesture_eqb a b = true <-> a = b.
Proof.
  destruct a, b; cbn; split; intros; try discriminate; reflexivity.
Qed.

(** [detect] on a frame: it returns, and what it returns and leaves behind
    is determined by the gesture classified and the clock. *)
Lemma detect_frame (now : R) (l : HandLandmarks) (g : t) :
  wellFormed l -> wellFormedDetector g ->
  exists v gesture r g',
    detectGestureType l v = Some gesture
    /\ detect now (Some l) g = Some (r, g')
    /\ current (state r) = gesture
    /\ currentGesture g' = gesture
    /\ gestureStartTime g'
       = (if gesture_eqb gesture (currentGesture g)
          then gestureStartTime g else now)
    /\ duration (state r) = now - gestureStartTime g'
    /\ lastLandmarks g' = Some l.
Proof.
  intros Hwf Hg. unfold detect.
  set (dt := if Num.gtb (lastTime g) 0 then _ else _).
  set (g1 := mk _ now _ _ _ _ _).
  assert (Hg1 : wellFormedDetector g1) by exact Hg.
  destruct (calculateVelocity_defined g1 l dt Hwf Hg1) as [v Hv].
  destruct (detectGestureType_defined l v Hwf) as [gesture Hgesture].
  destruct (lm_defined l LANDMARKS.THUMB_TIP Hwf) as [tt Htt];
    [unfold LANDMARKS.THUMB_TIP; lia|].
  destruct (lm_defined l LANDMARKS.INDEX_TIP Hwf) as [it Hit];
    [unfold LANDMARKS.INDEX_TIP; lia|].
  rewrite Hv. cbn [bind]. rewrite Hgesture. cbn [bind].
  rewrite Htt, Hit. cbn [bind].
  exists v, gesture. eexists. eexists.
  split; [exact Hgesture|]. split; [reflexivity|].
  subst g1. cbn [currentGesture].
  destruct (gesture_eqb gesture (currentGesture g)) eqn:Heq; cbn.
  - apply gesture_eqb_eq in Heq. rewrite <- Heq. repeat split; trivial.
  - repeat split; trivial.
Qed.


(** What [detect] returned on a frame, read back from its result. *)
Lemma detect_frame_inv (now : R) (l : HandLandmarks) (g : t)
  (r : Detected) (g' : t) :
  detect now (Some l) g = Some (r, g') ->
  exists v gesture,
    detectGestureType l v = Some gesture
    /\ current (state r) = gesture
    /\ duration (state r)
       = now - (if gesture_eqb gesture (currentGesture g)
                then gestureStartTime g else now).
Proof.
  unfold detect.
  set (dt := if Num.gtb (lastTime g) 0 then _ else _).
  set (g1 := mk _ now _ _ _ _ _).
  destruct (calculateVelocity g1 l dt) as [v|]; [|discriminate].
  cbn [bind].
  destruct (detectGestureType l v) as [gesture|] eqn:Hgesture; [|discriminate].
  cbn [bind].
  destruct (lm l LANDMARKS.THUMB_TIP); [|discriminate].
  destruct (lm l LANDMARKS.INDEX_TIP); [|discriminate].
  cbn [bind]. intros H. inversion H; subst r g'. clear H.
  exists v, gesture. split; [assumption|].
  subst g1. cbn [currentGesture].
  destruct (gesture_eqb gesture (currentGesture g)) eqn:Heq; cbn.
  - apply gesture_eqb_eq in Heq. now rewrite <- Heq.
  - now split.
Qed.

Lemma detectGestureType_pinch (l : HandLandmarks) (thumbTip indexTip : Point2D) :
  lm l LANDMARKS.THUMB_TIP = Some thumbTip ->
  lm l LANDMARKS.INDEX_TIP = Some indexTip ->
  distance thumbTip indexTip < 60 ->
  forall v, detectGestureType l v = Some pinch.
Proof.
  intros Htt Hit Hnear v. unfold detectGestureType.
  rewrite Htt, Hit. cbn [bind].
  apply NumFacts.ltb_lt in Hnear. now rewrite Hnear.
Qed.

(** The frame [pointingPinchFrame]. *)
Lemma pointingPinchFrame_wellFormed : wellFormed pointingPinchFrame.
Proof. reflexivity. Qed.

Lemma pointingPinchFrame_tips :
  lm pointingPinchFrame LANDMARKS.THUMB_TIP = Some (mkPoint2D 0 50)
  /\ lm pointingPinchFrame LANDMARKS.INDEX_TIP = Some (mkPoint2D 10 50).
Proof. split; reflexivity. Qed.

Lemma pointingPinchFrame_near :
  distance (mkPoint2D 0 50) (mkPoint2D 10 50) < GESTURE.PINCH_THRESHOLD.
Proof.
  unfold GESTURE.PINCH_THRESHOLD.
  apply distance_lt_bound; cbn [x y]; lra.
Qed.

Lemma pointingPinchFrame_pointing :
  isPointingIndex pointingPinchFrame = Some true.
Proof.
  unfold isPointingIndex, isFingerExtended, not_, lm, pointingPinchFrame, hand.
  cbn [landmarks nth_error bind y LANDMARKS.INDEX_TIP LANDMARKS.INDEX_PIP
       LANDMARKS.MIDDLE_TIP LANDMARKS.MIDDLE_PIP LANDMARKS.RING_TIP
       LANDMARKS.RING_PIP LANDMARKS.PINKY_TIP LANDMARKS.PINKY_PIP].
  replace (Num.ltb 50 100) with true
    by (symmetry; apply NumFacts.ltb_lt; lra).
  replace (Num.ltb 100 100) with false
    by (symmetry; apply NumFacts.ltb_ge; lra).
  reflexivity.
Qed.

Lemma init_wellFormed : wellFormedDetector init.
Proof. intros l H. discriminate. Qed.

(** C2. A frame whose thumb tip is closer to the index tip than
    [GESTURE.PINCH_THRESHOLD] is classified as pinch, by [detectGestureType]
    and so by [detect]; a frame that is in the draw pose as well is still
    pinch and not draw.  (The test in the code is against 60, which is
    above the configured 40.) *)
Theorem pinch_before_draw (now : R) (g : t) (l : HandLandmarks)
  (thumbTip indexTip : Point2D) :
  wellFormed l -> wellFormedDetector g ->
  lm l LANDMARKS.THUMB_TIP = Some thumbTip ->
  lm l LANDMARKS.INDEX_TIP = Some indexTip ->
  distance thumbTip indexTip < GESTURE.PINCH_THRESHOLD ->
  (forall v, detectGestureType l v = Some pinch)
  /\ (exists r g',
        detect now (Some l) g = Some (r, g') /\ current (state r) = pinch)
  /\ (isPointingIndex l = Some true ->
      forall v, detectGestureType l v = Some pinch
                /\ detectGestureType l v <> Some draw).
Proof.
  intros Hwf Hg Htt Hit Hnear.
  assert (Hpinch : forall v, detectGestureType l v = Some pinch).
  { apply (detectGestureType_pinch l thumbTip indexTip); trivial.
    unfold GESTURE.PINCH_THRESHOLD in Hnear. lra. }
  split; [exact Hpinch|]. split.
  - destruct (detect_frame now l g Hwf Hg)
      as [v [gesture [r [g' [Hgesture [Hdet [Hcur _]]]]]]].
    exists r, g'. split; [assumption|].
    rewrite Hpinch in Hgesture. inversion Hgesture. congruence.
  - intros _ v. rewrite Hpinch. split; [reflexivity | discriminate].
Qed.

Lemma pinch_before_draw_witness :
  isPointingIndex pointingPinchFrame = Some true
  /\ detectGestureType pointingPinchFrame (mkPoint2D 0 0) = Some pinch
  /\ detectGestureType pointingPinchFrame (mkPoint2D 0 0) <> Some draw.
Proof.
  split; [exact pointingPinchFrame_pointing|].
  exact (proj2 (proj2
    (pinch_before_draw 0 init pointingPinchFrame _ _
       pointingPinchFrame_wellFormed init_wellFormed
       (proj1 pointingPinchFrame_tips) (proj2 pointingPinchFrame_tips)
       pointingPinchFrame_near))
    pointingPinchFrame_pointing (mkPoint2D 0 0)).
Defined.

(** C3, as the code has it.  On a null frame [detect] returns the gesture
    none with zero velocity and zero duration, and changes no field of the
    detector but [lastTime]: the current gesture, the previous gesture and
    the time the current gesture started are kept.  So when the next frame
    shows the gesture that was current before the null frame, the duration
    reported is counted from the start of that gesture, before the null
    frame. *)
Theorem detect_null_frame (now : R) (g : t) :
  exists r,
    detect now None g = Some (r, touchTime now g)
    /\ current (state r) = none
    /\ velocity (state r) = mkPoint2D 0 0
    /\ duration (state r) = 0
    /\ previous (state r) = previousGesture g
    /\ gestureStartTime (touchTime now g) = gestureStartTime g
    /\ currentGesture (touchTime now g) = currentGesture g
    /\ forall now' l r' g',
         detect now' (Some l) (touchTime now g) = Some (r', g') ->
         current (state r') = currentGesture g ->
         duration (state r') = now' - gestureStartTime g.
Proof.
  eexists. split; [reflexivity|].
  do 6 (split; [reflexivity|]).
  intros now' l r' g' Hdet Hsame.
  destruct (detect_frame_inv now' l _ r' g' Hdet)
    as [v [gesture [_ [Hcur Hdur]]]].
  cbn [touchTime currentGesture gestureStartTime] in Hdur.
  rewrite Hdur.
  replace (gesture_eqb gesture (currentGesture g)) with true; [reflexivity|].
  symmetry. apply gesture_eqb_eq. congruence.
Qed.

(** C3 as stated fails: a pinch first seen at time 100, a null frame at time
    200 and the same pinch at time 300 give a reported duration of 200, the
    time since the pinch began, not a duration restarted at the null frame. *)
Lemma null_frame_timer_counterexample :
  exists r1 g1 r2 g2 r3 g3,
    detect 100 (Some pointingPinchFrame) init = Some (r1, g1)
    /\ current (state r1) = pinch
    /\ duration (state r1) = 0
    /\ detect 200 None g1 = Some (r2, g2)
    /\ current (state r2) = none
    /\ detect 300 (Some pointingPinchFrame) g2 = Some (r3, g3)
    /\ current (state r3) = pinch
    /\ duration (state r3) = 200.
Proof.
  assert (Hpinch : forall v, detectGestureType pointingPinchFrame v = Some pinch).
  { apply (detectGestureType_pinch _ _ _ (proj1 pointingPinchFrame_tips)
             (proj2 pointingPinchFrame_tips)).
    pose proof pointingPinchFrame_near as H.
    unfold GESTURE.PINCH_THRESHOLD in H. lra. }
  destruct (detect_frame 100 pointingPinchFrame init
              pointingPinchFrame_wellFormed init_wellFormed)
    as [v1 [k1 [r1 [g1 [Hk1 [Hd1 [Hc1 [Hg1 [Hs1 [Hdur1 Hl1]]]]]]]]]].
  rewrite Hpinch in Hk1. assert (Hp1 : k1 = pinch) by congruence.
  rewrite Hp1 in Hc1, Hg1, Hs1. cbn in Hs1.
  assert (Hwf1 : wellFormedDetector (touchTime 200 g1)).
  { intros l Hl. cbn in Hl. rewrite Hl1 in Hl. inversion Hl; subst l.
    exact pointingPinchFrame_wellFormed. }
  destruct (detect_frame 300 pointingPinchFrame (touchTime 200 g1)
              pointingPinchFrame_wellFormed Hwf1)
    as [v3 [k3 [r3 [g3 [Hk3 [Hd3 [Hc3 [Hg3 [Hs3 [Hdur3 _]]]]]]]]]].
  rewrite Hpinch in Hk3. assert (Hp3 : k3 = pinch) by congruence.
  rewrite Hp3 in Hc3, Hs3.
  cbn [touchTime currentGesture gestureStartTime] in Hs3.
  rewrite Hg1 in Hs3. cbn in Hs3.
  exists r1, g1. eexists. exists (touchTime 200 g1), r3, g3.
  split; [exact Hd1|]. split; [exact Hc1|].
  split; [rewrite Hdur1, Hs1; lra|].
  split; [reflexivity|]. split; [reflexivity|].
  split; [exact Hd3|]. split; [exact Hc3|].
  rewrite Hdur3, Hs3, Hs1. lra.
Qed.

(** C10. Whenever [detect] returns, the gesture it reports is none, draw,
    pinch, palm or fist, and so neither swipe nor poke; and it does return
    on every null frame and on every frame of 21 landmarks. *)
Theorem detect_never_swipe_or_poke (now : R) (frame : option HandLandmarks)
  (g : t) :
  (forall r g',
     detect now frame g = Some (r, g') ->
     In (current (state r)) classified
     /\ current (state r) <> swipe /\ current (state r) <> poke)
  /\ ((forall l, frame = Some l -> wellFormed l) ->
      wellFormedDetector g ->
      exists r g', detect now frame g = Some (r, g')).
Proof.
  split.
  - intros r g' Hdet.
    assert (Hin : In (current (state r)) classified).
    { destruct frame as [l|].
      - destruct (detect_frame_inv now l g r g' Hdet)
          as [v [gesture [Hgesture [Hcur _]]]].
        rewrite Hcur. exact (detectGestureType_classified l v gesture Hgesture).
      - inversion Hdet; subst. cbn. tauto. }
    split; [exact Hin|].
    unfold classified in Hin. cbn in Hin.
    split; intros Heq; rewrite Heq in Hin;
      repeat (destruct Hin as [Hin|Hin]; try discriminate); contradiction.
  - intros Hwf Hg. destruct frame as [l|].
    + destruct (detect_frame now l g (Hwf l eq_refl) Hg)
        as [v [gesture [r [g' [_ [Hdet _]]]]]].
      now exists r, g'.
    + eexists. eexists. reflexivity.
Qed.

Lemma detect_never_swipe_or_poke_witness :
  exists r g',
    detect 0 (Some pointingPinchFrame) init = Some (r, g')
    /\ In (current (state r)) classified
    /\ current (state r) <> swipe /\ current (state r) <> poke.
Proof.
  pose proof (detect_never_swipe_or_poke 0 (Some pointingPinchFrame) init)
    as [Hrange Htotal].
  destruct Htotal as [r [g' Hdet]].
  - intros l Hl. inversion Hl; subst l. exact pointingPinchFrame_wellFormed.
  - exact init_wellFormed.
  - exists r, g'. split; [exact Hdet|]. exact (Hrange r g' Hdet).
Defined.

(** *** Further properties of the classifier *)

Lemma ltb_shift (a b c : R) : Num.ltb (a + c) (b + c) = Num.ltb a b.
Proof.
  destruct (Num.ltb a b) eqn:H.
  - apply NumFacts.ltb_lt in H. apply NumFacts.ltb_lt. lra.
  - apply NumFacts.ltb_ge in H. apply NumFacts.ltb_ge. lra.
Qed.

Lemma lm_translate (a b : R) (l : HandLandmarks) (i : nat) :
  lm (translate a b l) i
  = option_map (fun p => mkPoint2D (x p + a) (y p + b)) (lm l i).
Proof.
  unfold lm, translate. cbn [landmarks]. apply nth_error_map.
Qed.

Lemma distance_translate (a b : R) (p q : Point2D) :
  distance (mkPoint2D (x p + a) (y p + b)) (mkPoint2D (x q + a) (y q + b))
  = distance p q.
Proof.
  unfold distance, hypot. cbn [x y]. f_equal. ring.
Qed.

Lemma isFingerExtended_translate (a b : R) (l : HandLandmarks)
  (tipIdx pipIdx : nat) :
  isFingerExtended (translate a b l) tipIdx pipIdx
  = isFingerExtended l tipIdx pipIdx.
Proof.
  unfold isFingerExtended. rewrite !lm_translate.
  destruct (lm l tipIdx) as [tip|]; [|reflexivity].
  destruct (lm l pipIdx) as [pip|]; [|reflexivity].
  cbn. now rewrite ltb_shift.
Qed.

(** The velocity argument of [detectGestureType] is not read. *)
Lemma classification_translation_invariant_aux (l : HandLandmarks)
  (v v' : Point2D) :
  detectGestureType l v = detectGestureType l v'.
Proof. reflexivity. Qed.

(** X6. The classification does not depend on where the hand is on the
    screen: moving every landmark by the same vector gives the same
    gesture (or the same failure on a frame that lacks a landmark). *)
Theorem classification_translation_invariant (a b : R) (l : HandLandmarks)
  (v v' : Point2D) :
  detectGestureType (translate a b l) v' = detectGestureType l v.
Proof.
  unfold detectGestureType, isPointingIndex, isOpenPalm, isFist.
  rewrite !isFingerExtended_translate, !lm_translate.
  destruct (lm l LANDMARKS.THUMB_TIP) as [tt|]; [|reflexivity].
  destruct (lm l LANDMARKS.INDEX_TIP) as [it|]; [|reflexivity].
  cbn [option_map bind]. now rewrite distance_translate.
Qed.

(** X7. At most one of the three pose tests holds of a frame, so among
    draw, palm and fist the order of the tests in [detectGestureType] does
    not matter; only the pinch test, made first, takes precedence. *)
Theorem poses_exclusive (l : HandLandmarks) :
  (isPointingIndex l = Some true ->
   isOpenPalm l = Some false /\ isFist l = Some false)
  /\ (isOpenPalm l = Some true ->
      isPointingIndex l = Some false /\ isFist l = Some false)
  /\ (isFist l = Some true ->
      isPointingIndex l = Some false /\ isOpenPalm l = Some false).
Proof.
  unfold isPointingIndex, isOpenPalm, isFist, and_then, not_, bind.
  destruct (isFingerExtended l LANDMARKS.INDEX_TIP LANDMARKS.INDEX_PIP)
    as [[|]|];
  destruct (isFingerExtended l LANDMARKS.MIDDLE_TIP LANDMARKS.MIDDLE_PIP)
    as [[|]|];
  destruct (isFingerExtended l LANDMARKS.RING_TIP LANDMARKS.RING_PIP)
    as [[|]|];
  destruct (isFingerExtended l LANDMARKS.PINKY_TIP LANDMARKS.PINKY_PIP)
    as [[|]|];
  cbn; repeat split; intros; try discriminate; reflexivity.
Qed.

Lemma poses_exclusive_witness :
  isOpenPalm pointingPinchFrame = Some false
  /\ isFist pointingPinchFrame = Some false.
Proof.
  exact (proj1 (poses_exclusive pointingPinchFrame)
           pointingPinchFrame_pointing).
Defined.

(** Everything that a successful [detect] on a frame returns and leaves. *)
Lemma detect_frame_result (now : R) (l : HandLandmarks) (g : t)
  (r : Detected) (g' : t) :
  detect now (Some l) g = Some (r, g') ->
  exists v gesture pd,
    calculateVelocity (touchTime now g) l
      (if Num.gtb (lastTime g) 0 then (now - lastTime g) / 1000 else 0)
    = Some v
    /\ detectGestureType l v = Some gesture
    /\ let changed := negb (gesture_eqb gesture (currentGesture g)) in
       let start := if changed then now else gestureStartTime g in
       let prev := if changed then currentGesture g else previousGesture g in
       r = mkDetected (mkGestureState gesture prev (now - start) v 1.0)
                      (Some pd)
       /\ g' = mk (Some l) now start gesture prev
                  (palmHistory g) (velocityHistory g).
Proof.
  unfold detect. fold (touchTime now g).
  set (dt := if Num.gtb (lastTime g) 0 then _ else _).
  destruct (calculateVelocity (touchTime now g) l dt) as [v|] eqn:Hv;
    [|discriminate].
  cbn [bind].
  destruct (detectGestureType l v) as [gesture|] eqn:Hk; [|discriminate].
  cbn [bind].
  destruct (lm l LANDMARKS.THUMB_TIP) as [tt|]; [|discriminate].
  destruct (lm l LANDMARKS.INDEX_TIP) as [it|]; [|discriminate].
  cbn [bind]. intros H. inversion H; subst r g'. clear H.
  exists v, gesture, (distance tt it).
  split; [reflexivity|]. split; [exact Hk|].
  cbn [touchTime currentGesture].
  destruct (gesture_eqb gesture (currentGesture g)) eqn:Heq; cbn.
  - apply gesture_eqb_eq in Heq. rewrite <- Heq. now split.
  - now split.
Qed.

Lemma calculateVelocity_still (g : t) (l : HandLandmarks) (dt : R) :
  lastLandmarks g = Some l ->
  forall v, calculateVelocity g l dt = Some v -> v = mkPoint2D 0 0.
Proof.
  intros Hlast v. unfold calculateVelocity. rewrite Hlast.
  destruct (Num.eqb_num dt 0); [congruence|].
  destruct (getPalmCenter l) as [c|]; [|discriminate].
  cbn [bind]. intros H. inversion H. f_equal; unfold Rdiv; ring.
Qed.

(** X8. A hand that does not move is classified without spurious changes:
    when [detect] is called again with the frame it was last called with,
    it reports the same gesture and the same previous gesture, a velocity of
    zero, and a duration counted from the same start. *)
Theorem still_hand_stable (now1 now2 : R) (l : HandLandmarks) (g g1 g2 : t)
  (r1 r2 : Detected) :
  detect now1 (Some l) g = Some (r1, g1) ->
  detect now2 (Some l) g1 = Some (r2, g2) ->
  current (state r2) = current (state r1)
  /\ previous (state r2) = previous (state r1)
  /\ velocity (state r2) = mkPoint2D 0 0
  /\ gestureStartTime g2 = gestureStartTime g1
  /\ duration (state r2) = now2 - gestureStartTime g1.
Proof.
  intros H1 H2.
  destruct (detect_frame_result _ _ _ _ _ H1)
    as [v1 [k1 [pd1 [_ [Hk1 [Hr1 Hg1]]]]]].
  destruct (detect_frame_result _ _ _ _ _ H2)
    as [v2 [k2 [pd2 [Hv2 [Hk2 [Hr2 Hg2]]]]]].
  assert (Hsame : k2 = k1).
  { rewrite (classification_translation_invariant_aux l v2 v1) in Hk2.
    congruence. }
  assert (Hzero : v2 = mkPoint2D 0 0).
  { refine (calculateVelocity_still (touchTime now2 g1) l _ _ v2 Hv2).
    rewrite Hg1. reflexivity. }
  assert (Hcur1 : currentGesture g1 = k1) by (rewrite Hg1; reflexivity).
  rewrite Hsame, Hcur1 in Hr2, Hg2.
  replace (gesture_eqb k1 k1) with true in Hr2, Hg2
    by (symmetry; now apply gesture_eqb_eq).
  cbn [negb] in Hr2, Hg2.
  rewrite Hr2, Hg2, Hr1. cbn. rewrite Hg1. cbn.
  repeat split; trivial.
Qed.

Lemma still_hand_stable_witness :
  exists r1 g1 r2 g2,
    detect 100 (Some pointingPinchFrame) init = Some (r1, g1)
    /\ detect 133 (Some pointingPinchFrame) g1 = Some (r2, g2)
    /\ current (state r2) = current (state r1)
    /\ velocity (state r2) = mkPoint2D 0 0.
Proof.
  destruct (detect_frame 100 pointingPinchFrame init
              pointingPinchFrame_wellFormed init_wellFormed)
    as [v1 [k1 [r1 [g1 [_ [Hd1 [_ [_ [_ [_ Hl1]]]]]]]]]].
  assert (Hwf1 : wellFormedDetector g1).
  { intros l Hl. rewrite Hl1 in Hl. inversion Hl; subst l.
    exact pointingPinchFrame_wellFormed. }
  destruct (detect_frame 133 pointingPinchFrame g1
              pointingPinchFrame_wellFormed Hwf1)
    as [v2 [k2 [r2 [g2 [_ [Hd2 _]]]]]].
  exists r1, g1, r2, g2.
  split; [exact Hd1|]. split; [exact Hd2|].
  pose proof (still_hand_stable 100 133 pointingPinchFrame init g1 g2 r1 r2
                Hd1 Hd2) as [Hc [_ [Hv _]]].
  now split.
Defined.

(** X9. The bookkeeping of [detect] on a frame.  When the gesture differs
    from the current one, the old current gesture becomes the previous one
    and the duration reported is 0; otherwise the previous gesture is kept
    and the duration is counted from the start of the gesture.  If the
    start time is not after the time of the last call and the clock has not
    gone back, the duration is not negative, and the start time is not
    after the time of this call either. *)
Theorem detect_bookkeeping (now : R) (l : HandLandmarks) (g g' : t)
  (r : Detected) :
  detect now (Some l) g = Some (r, g') ->
  currentGesture g' = current (state r)
  /\ previousGesture g' = previous (state r)
  /\ lastTime g' = now
  /\ (current (state r) <> currentGesture g ->
      previous (state r) = currentGesture g
      /\ duration (state r) = 0
      /\ gestureStartTime g' = now)
  /\ (current (state r) = currentGesture g ->
      previous (state r) = previousGesture g
      /\ duration (state r) = now - gestureStartTime g
      /\ gestureStartTime g' = gestureStartTime g)
  /\ (gestureStartTime g <= lastTime g -> lastTime g <= now ->
      0 <= duration (state r) /\ gestureStartTime g' <= lastTime g').
Proof.
  intros Hdet.
  destruct (detect_frame_result _ _ _ _ _ Hdet)
    as [v [k [pd [_ [_ [Hr Hg']]]]]].
  cbv zeta in Hr, Hg'. rewrite Hr, Hg'. cbn.
  destruct (gesture_eqb k (currentGesture g)) eqn:Heq; cbn.
  - apply gesture_eqb_eq in Heq.
    do 3 (split; [reflexivity|]). split; [|split].
    + intros Hne. contradiction.
    + intros _. now repeat split.
    + intros Hstart Hclock. split; lra.
  - assert (Hne : k <> currentGesture g).
    { intros Hk. apply gesture_eqb_eq in Hk. congruence. }
    do 3 (split; [reflexivity|]). split; [|split].
    + intros _. repeat split; trivial. lra.
    + intros Hk. contradiction.
    + intros Hstart Hclock. split; lra.
Qed.

Lemma detect_bookkeeping_witness :
  exists r g',
    detect 100 (Some pointingPinchFrame) init = Some (r, g')
    /\ previous (state r) = none
    /\ duration (state r) = 0.
Proof.
  destruct (detect_frame 100 pointingPinchFrame init
              pointingPinchFrame_wellFormed init_wellFormed)
    as [v [k [r [g' [Hk [Hd [Hc _]]]]]]].
  exists r, g'. split; [exact Hd|].
  pose proof (detect_bookkeeping 100 pointingPinchFrame init g' r Hd)
    as [_ [_ [_ [Hchange _]]]].
  assert (Hpinch : k = pinch).
  { rewrite (detectGestureType_pinch _ _ _ (proj1 pointingPinchFrame_tips)
               (proj2 pointingPinchFrame_tips)) in Hk.
    - congruence.
    - pose proof pointingPinchFrame_near as H.
      unfold GESTURE.PINCH_THRESHOLD in H. lra. }
  destruct Hchange as [Hp [Hz _]].
  - rewrite Hc, Hpinch. discriminate.
  - now split.
Defined.

Lemma distance_sqr (p q : Point2D) :
  distance p q * distance p q
  = (x p - x q) * (x p - x q) + (y p - y q) * (y p - y q).
Proof.
  unfold distance, hypot. apply sqrt_sqrt.
  apply Rplus_le_le_0_compat; apply Rle_0_sqr.
Qed.

Lemma tip_distance_nonneg (p q : Point2D) : 0 <= distance p q.
Proof. apply sqrt_pos. Qed.

(** X10. The pinch centre is the midpoint of the thumb tip and the index
    tip: it is at half the pinch distance from each, so within 30 pixels of
    both whenever the frame passes the pinch test. *)
Theorem pinch_center_midpoint (l : HandLandmarks)
  (thumbTip indexTip center : Point2D) :
  lm l LANDMARKS.THUMB_TIP = Some thumbTip ->
  lm l LANDMARKS.INDEX_TIP = Some indexTip ->
  getPinchCenter l = Some center ->
  distance center thumbTip = distance thumbTip indexTip / 2
  /\ distance center indexTip = distance thumbTip indexTip / 2
  /\ (distance thumbTip indexTip < 60 ->
      distance center thumbTip < 30 /\ distance center indexTip < 30).
Proof.
  intros Htt Hit Hc. unfold getPinchCenter in Hc.
  rewrite Htt, Hit in Hc. cbn [bind] in Hc. inversion Hc; subst center.
  pose proof (distance_sqr thumbTip indexTip) as Hsq.
  pose proof (tip_distance_nonneg thumbTip indexTip) as Hpos.
  assert (Ht : distance (mkPoint2D ((x thumbTip + x indexTip) / 2)
                                   ((y thumbTip + y indexTip) / 2)) thumbTip
               = distance thumbTip indexTip / 2).
  { unfold distance at 1, hypot. cbn [x y].
    apply NumFacts.sqrt_eq; [lra|].
    replace (distance thumbTip indexTip / 2 * (distance thumbTip indexTip / 2))
      with (distance thumbTip indexTip * distance thumbTip indexTip / 4)
      by field.
    rewrite Hsq. field. }
  assert (Hi : distance (mkPoint2D ((x thumbTip + x indexTip) / 2)
                                   ((y thumbTip + y indexTip) / 2)) indexTip
               = distance thumbTip indexTip / 2).
  { unfold distance at 1, hypot. cbn [x y].
    apply NumFacts.sqrt_eq; [lra|].
    replace (distance thumbTip indexTip / 2 * (distance thumbTip indexTip / 2))
      with (distance thumbTip indexTip * distance thumbTip indexTip / 4)
      by field.
    rewrite Hsq. field. }
  split; [exact Ht|]. split; [exact Hi|].
  intros Hnear. rewrite Ht, Hi. split; lra.
Qed.

Lemma pinch_center_midpoint_witness :
  distance (mkPoint2D ((0 + 10) / 2) ((50 + 50) / 2)) (mkPoint2D 0 50)
  = distance (mkPoint2D 0 50) (mkPoint2D 10 50) / 2.
Proof.
  exact (proj1 (pinch_center_midpoint pointingPinchFrame _ _ _
                  (proj1 pointingPinchFrame_tips)
                  (proj2 pointingPinchFrame_tips) eq_refl)).
Defined.

Lemma classified_detector_step (now : R) (frame : option HandLandmarks)
  (g g' : t) (r : Detected) :
  In (currentGesture g) classified ->
  In (previousGesture g) classified ->
  detect now frame g = Some (r, g') ->
  In (currentGesture g') classified
  /\ In (previousGesture g') classified
  /\ In (current (state r)) classified
  /\ In (previous (state r)) classified.
Proof.
  intros Hcur Hprev Hdet. destruct frame as [l|].
  - destruct (detect_frame_result _ _ _ _ _ Hdet)
      as [v [k [pd [_ [Hk [Hr Hg']]]]]].
    apply detectGestureType_classified in Hk.
    cbv zeta in Hr, Hg'. rewrite Hr, Hg'. cbn.
    destruct (negb (gesture_eqb k (currentGesture g))); repeat split; trivial.
  - inversion Hdet; subst r g'. cbn.
    repeat split; trivial. unfold classified. cbn. tauto.
Qed.

Lemma reachableDetector_classified (g : t) :
  reachableDetector g ->
  In (currentGesture g) classified /\ In (previousGesture g) classified.
Proof.
  induction 1 as [|now frame g g' r _ [IHc IHp] Hdet].
  - unfold classified. cbn. tauto.
  - destruct (classified_detector_step now frame g g' r IHc IHp Hdet)
      as [Hc [Hp _]].
    now split.
Qed.

(** X11. Whatever calls of [detect] came before, the previous gesture that
    [detect] reports is none, draw, pinch, palm or fist as well: the states
    it returns never carry swipe or poke in either field. *)
Theorem previous_never_swipe_or_poke (now : R)
  (frame : option HandLandmarks) (g g' : t) (r : Detected) :
  reachableDetector g ->
  detect now frame g = Some (r, g') ->
  In (previous (state r)) classified
  /\ previous (state r) <> swipe /\ previous (state r) <> poke
  /\ current (state r) <> swipe /\ current (state r) <> poke.
Proof.
  intros Hreach Hdet.
  destruct (reachableDetector_classified g Hreach) as [Hc Hp].
  destruct (classified_detector_step now frame g g' r Hc Hp Hdet)
    as [_ [_ [Hcur Hprev]]].
  split; [exact Hprev|].
  unfold classified in Hcur, Hprev. cbn in Hcur, Hprev.
  repeat split; intros Heq;
    first [rewrite Heq in Hprev | rewrite Heq in Hcur];
    intuition discriminate.
Qed.

Lemma previous_never_swipe_or_poke_witness :
  exists r g',
    detect 200 None init = Some (r, g')
    /\ previous (state r) <> swipe /\ previous (state r) <> poke.
Proof.
  eexists. eexists. split; [reflexivity|].
  pose proof (previous_never_swipe_or_poke 200 None init _ _
                reachableDetector_init eq_refl) as [_ [Hs [Hp _]]].
  now split.
Defined.

End GestureDetectorFacts.

(** ** Curve fitting and mesh inflation *)

Module BalloonInflatorFacts.
Import BalloonInflator BalloonInflatorSpec.

Lemma distanceTo_nonneg (v c : Point3D) : 0 <= distanceTo v c.
Proof. apply sqrt_pos. Qed.

(** A vertex within 0.001 of the centre stays where it is. *)
Lemma inflateVertex_near (amount : R) (center v : Point3D) :
  distanceTo v center <= 0.001 -> inflateVertex amount center v = v.
Proof.
  intros Hnear. unfold inflateVertex. cbv zeta.
  fold (distanceTo v center).
  apply NumFacts.gtb_le in Hnear. now rewrite Hnear.
Qed.

(** A vertex further out moves along its ray from the centre, by a
    tenth of the inflation amount. *)
Lemma inflateVertex_far (amount : R) (center v : Point3D) :
  0 <= amount ->
  0.001 < distanceTo v center ->
  distanceTo (inflateVertex amount center v) center
  = distanceTo v center + amount * 0.1.
Proof.
  intros Hamount Hfar. unfold inflateVertex. cbv zeta.
  fold (distanceTo v center).
  pose proof Hfar as Hgt. apply NumFacts.gtb_gt in Hgt. rewrite Hgt.
  assert (Hsq : distanceTo v center * distanceTo v center
                = (x3 v - x3 center) * (x3 v - x3 center)
                  + (y3 v - y3 center) * (y3 v - y3 center)
                  + (z3 v - z3 center) * (z3 v - z3 center)).
  { unfold distanceTo. apply sqrt_sqrt.
    repeat apply Rplus_le_le_0_compat; apply Rle_0_sqr. }
  remember (distanceTo v center) as d eqn:Hd.
  unfold distanceTo at 1. cbn [x3 y3 z3].
  apply NumFacts.sqrt_eq; [lra|].
  set (k := amount * 0.1).
  transitivity
    (((x3 v - x3 center) * (x3 v - x3 center)
      + (y3 v - y3 center) * (y3 v - y3 center)
      + (z3 v - z3 center) * (z3 v - z3 center))
     * ((d + k) * (d + k)) / (d * d)).
  - field. lra.
  - rewrite <- Hsq. field. lra.
Qed.

(** C4. The inflation pass leaves in place every vertex whose distance from
    the centre of the bounding box is at most 0.001, and moves every other
    vertex to a strictly greater distance from that centre (greater by a
    tenth of the inflation amount), when the inflation amount is positive. *)
Theorem inflation_pass (computeVertexNormals : list Point3D -> list Point3D)
  (amount : R) (geometry : Geometry) (ps ns : list Point3D) :
  0 < amount ->
  position geometry = Some ps ->
  normal geometry = Some ns ->
  let center := getCenter (computeBoundingBox ps) in
  exists ps',
    position (inflateGeometryWith computeVertexNormals amount geometry)
    = Some ps'
    /\ List.length ps' = List.length ps
    /\ forall i v,
         nth_error ps i = Some v ->
         exists v',
           nth_error ps' i = Some v'
           /\ (distanceTo v center <= 0.001 -> v' = v)
           /\ (0.001 < distanceTo v center ->
               distanceTo v center < distanceTo v' center
               /\ distanceTo v' center = distanceTo v center + amount * 0.1).
Proof.
  intros Hpos Hps Hns center.
  unfold inflateGeometryWith. rewrite Hps, Hns. fold center.
  eexists. split; [reflexivity|]. split; [apply length_map|].
  intros i v Hv.
  exists (inflateVertex amount center v). split.
  - rewrite nth_error_map, Hv. reflexivity.
  - split.
    + apply inflateVertex_near.
    + intros Hfar. rewrite inflateVertex_far by lra. split; lra.
Qed.

Lemma INFLATION_AMOUNT_positive : 0 < SCENE.INFLATION_AMOUNT.
Proof. unfold SCENE.INFLATION_AMOUNT. lra. Qed.

Lemma inflation_pass_witness :
  let center :=
    getCenter (computeBoundingBox [mkPoint3D 1 0 0; mkPoint3D (-1) 0 0]) in
  exists ps',
    position (inflateGeometry positionNormals segmentGeometry) = Some ps'
    /\ List.length ps' = 2%nat
    /\ forall i v,
         nth_error [mkPoint3D 1 0 0; mkPoint3D (-1) 0 0] i = Some v ->
         exists v',
           nth_error ps' i = Some v'
           /\ (distanceTo v center <= 0.001 -> v' = v)
           /\ (0.001 < distanceTo v center ->
               distanceTo v center < distanceTo v' center
               /\ distanceTo v' center
                  = distanceTo v center + SCENE.INFLATION_AMOUNT * 0.1).
Proof.
  exact (inflation_pass positionNormals SCENE.INFLATION_AMOUNT segmentGeometry
           [mkPoint3D 1 0 0; mkPoint3D (-1) 0 0]
           [mkPoint3D 0 0 1; mkPoint3D 0 0 1]
           INFLATION_AMOUNT_positive eq_refl eq_refl).
Defined.

Lemma simplifyPoints_short (pts : list Point2D) (targetCount : nat) :
  (List.length pts <= targetCount)%nat -> simplifyPoints pts targetCount = pts.
Proof.
  intros H. unfold simplifyPoints.
  apply Nat.leb_le in H. now rewrite H.
Qed.

Lemma unitCircle_closed : closedCurve unitCircle.
Proof.
  apply closedCurve_circle; lra.
Qed.

(** C7. A stroke of fewer than 3 points is fitted by the unit circle, which
    is a closed curve, and nothing throws; and, the spline sampler returning
    one point more than the divisions asked for, every stroke is fitted by
    a closed curve. *)
Theorem degenerate_stroke_fallback
  (catmullRomGetPoints : list Point3D -> nat -> list Point3D)
  (stroke : Stroke) :
  (forall pts n, List.length (catmullRomGetPoints pts n) = S n) ->
  ((List.length (points stroke) < 3)%nat ->
   createShape catmullRomGetPoints (points stroke) = Some unitCircle
   /\ balloonShape catmullRomGetPoints stroke = Some unitCircle
   /\ closedCurve unitCircle)
  /\ exists shape,
       balloonShape catmullRomGetPoints stroke = Some shape
       /\ closedCurve shape.
Proof.
  intros Hsample.
  assert (Hshape : forall pts, exists shape,
             createShape catmullRomGetPoints pts = Some shape
             /\ closedCurve shape).
  { intros pts. unfold createShape.
    destruct (Nat.ltb (List.length pts) 3).
    - exists unitCircle. split; [reflexivity | exact unitCircle_closed].
    - cbv zeta.
      match goal with
      | |- context [catmullRomGetPoints ?c 64%nat] =>
          pose proof (Hsample c 64%nat) as Hlen;
          destruct (catmullRomGetPoints c 64%nat) as [|p0 rest]
      end; [discriminate|].
      eexists. split; [reflexivity|].
      apply closedCurve_polygon. cbn in Hlen. lia. }
  assert (Hfew : forall pts, (List.length pts < 3)%nat ->
             createShape catmullRomGetPoints pts = Some unitCircle).
  { intros pts Hlt. unfold createShape.
    apply Nat.ltb_lt in Hlt. now rewrite Hlt. }
  split.
  - intros Hlt. split; [now apply Hfew|]. split; [|exact unitCircle_closed].
    unfold balloonShape. rewrite simplifyPoints_short by lia. now apply Hfew.
  - apply Hshape.
Qed.

Lemma degenerate_stroke_fallback_witness :
  createShape flatSampler (points twoPointStroke) = Some unitCircle
  /\ balloonShape flatSampler twoPointStroke = Some unitCircle
  /\ closedCurve unitCircle.
Proof.
  apply (proj1 (degenerate_stroke_fallback flatSampler twoPointStroke
                  (fun pts n => repeat_length (mkPoint3D 0 0 0) (S n)))).
  cbn. lia.
Defined.

(** *** Further properties of curve fitting and inflation *)




Lemma strokeCenter_fold (pts : list Point2D) (acc : Point2D) :
  fold_left (fun acc p => mkPoint2D (x acc + x p) (y acc + y p)) pts acc
  = mkPoint2D (x acc + fold_right Rplus 0 (map x pts))
              (y acc + fold_right Rplus 0 (map y pts)).
Proof.
  revert acc. induction pts as [|p pts IH]; intros acc.
  - cbn. destruct acc. cbn. f_equal; lra.
  - cbn [fold_left map fold_right]. rewrite IH. cbn [x y]. f_equal; lra.
Qed.

Lemma getStrokeCenter_mean (pts : list Point2D) :
  getStrokeCenter pts
  = mkPoint2D (fold_right Rplus 0 (map x pts) / INR (List.length pts))
              (fold_right Rplus 0 (map y pts) / INR (List.length pts)).
Proof.
  unfold getStrokeCenter. rewrite strokeCenter_fold. cbn [x y].
  f_equal; f_equal; lra.
Qed.

Lemma sum_affine (g : Point2D -> R) (alpha beta : R) (pts : list Point2D) :
  fold_right Rplus 0 (map (fun p => alpha * g p + beta) pts)
  = alpha * fold_right Rplus 0 (map g pts) + INR (List.length pts) * beta.
Proof.
  induction pts as [|p pts IH].
  - cbn. lra.
  - cbn [map fold_right]. rewrite IH, length_cons, S_INR. lra.
Qed.

Lemma getStrokeCenter_shifted (a b : R) (pts : list Point2D) :
  pts <> [] ->
  getStrokeCenter (shifted a b pts)
  = mkPoint2D (x (getStrokeCenter pts) + a) (y (getStrokeCenter pts) + b).
Proof.
  intros Hne.
  assert (Hn : INR (List.length pts) <> 0).
  { apply not_0_INR. destruct pts; [contradiction | discriminate]. }
  rewrite !getStrokeCenter_mean. unfold shifted.
  rewrite length_map, !map_map. cbn [x y].
  rewrite (map_ext (fun p => x p + a) (fun p => 1 * x p + a))
    by (intros; lra).
  rewrite (map_ext (fun p => y p + b) (fun p => 1 * y p + b))
    by (intros; lra).
  rewrite !sum_affine. f_equal; field; assumption.
Qed.

Lemma normalizedPoints_shifted (a b : R) (pts : list Point2D) :
  normalizedPoints (shifted a b pts) = normalizedPoints pts.
Proof.
  destruct pts as [|p0 pts]; [reflexivity|].
  unfold normalizedPoints.
  rewrite getStrokeCenter_shifted by discriminate.
  unfold shifted. rewrite map_map. apply map_ext. intros p. cbn [x y].
  f_equal; field.
Qed.

Lemma createShape_normalized
  (catmullRomGetPoints : list Point3D -> nat -> list Point3D)
  (pts : list Point2D) :
  createShape catmullRomGetPoints pts
  = if Nat.ltb (List.length pts) 3 then Some unitCircle
    else
      match catmullRomGetPoints
              (map (fun p => mkPoint3D (x p) (y p) 0) (normalizedPoints pts))
              64%nat with
      | [] => None
      | p0 :: rest =>
          Some (MoveTo (x3 p0) (y3 p0)
                :: map (fun p => LineTo (x3 p) (y3 p)) rest ++ [ClosePath])
      end.
Proof. reflexivity. Qed.

(** X13. The fitted shape does not depend on where on the screen the
    stroke was drawn: a stroke moved by any vector gives the same shape.
    The points handed to the spline are centred: their centroid is the
    origin. *)
Theorem createShape_translation_invariant
  (catmullRomGetPoints : list Point3D -> nat -> list Point3D)
  (a b : R) (pts : list Point2D) :
  createShape catmullRomGetPoints (shifted a b pts)
  = createShape catmullRomGetPoints pts
  /\ (pts <> [] -> getStrokeCenter (normalizedPoints pts) = mkPoint2D 0 0).
Proof.
  split.
  - rewrite !createShape_normalized, normalizedPoints_shifted.
    unfold shifted at 1. now rewrite length_map.
  - intros Hne.
    assert (Hn : INR (List.length pts) <> 0).
    { apply not_0_INR. destruct pts; [contradiction | discriminate]. }
    rewrite getStrokeCenter_mean. unfold normalizedPoints.
    rewrite length_map, !map_map. cbn [x y].
    rewrite (map_ext (fun p => (x p - x (getStrokeCenter pts)) / 50)
               (fun p => / 50 * x p + - x (getStrokeCenter pts) / 50))
      by (intros; field).
    rewrite (map_ext (fun p => - (y p - y (getStrokeCenter pts)) / 50)
               (fun p => - / 50 * y p + y (getStrokeCenter pts) / 50))
      by (intros; field).
    rewrite !sum_affine, getStrokeCenter_mean. cbn [x y].
    f_equal; field; assumption.
Qed.




(** *** The size of a stroke *)

Lemma min_spec (a v : R) :
  Num.min a v <= a /\ Num.min a v <= v /\ (Num.min a v = a \/ Num.min a v = v).
Proof.
  unfold Num.min. destruct (Num.ltb v a) eqn:H.
  - apply NumFacts.ltb_lt in H. split; [lra|]. split; [lra|]. now right.
  - apply NumFacts.ltb_ge in H. split; [lra|]. split; [lra|]. now left.
Qed.

Lemma max_spec (a v : R) :
  a <= Num.max a v /\ v <= Num.max a v /\ (Num.max a v = a \/ Num.max a v = v).
Proof.
  unfold Num.max. destruct (Num.ltb a v) eqn:H.
  - apply NumFacts.ltb_lt in H. split; [lra|]. split; [lra|]. now right.
  - apply NumFacts.ltb_ge in H. split; [lra|]. split; [lra|]. now left.
Qed.

Lemma minAcc_fold (l : list R) (a : R) :
  exists m,
    fold_left minAcc l (Some a) = Some m
    /\ m <= a /\ (forall v, In v l -> m <= v) /\ (m = a \/ In m l).
Proof.
  revert a. induction l as [|v l IH]; intros a.
  - exists a. cbn. repeat split; try lra; try tauto.
  - cbn [fold_left minAcc].
    destruct (IH (Num.min a v)) as [m [Hfold [Hle [Hall Hin]]]].
    destruct (min_spec a v) as [Ha [Hv Hor]].
    exists m. split; [exact Hfold|]. split; [lra|]. split.
    + intros u [<- | Hu]; [lra | now apply Hall].
    + destruct Hin as [-> | Hin]; [|right; now right].
      destruct Hor as [-> | ->]; [now left | right; now left].
Qed.

Lemma maxAcc_fold (l : list R) (a : R) :
  exists m,
    fold_left maxAcc l (Some a) = Some m
    /\ a <= m /\ (forall v, In v l -> v <= m) /\ (m = a \/ In m l).
Proof.
  revert a. induction l as [|v l IH]; intros a.
  - exists a. cbn. repeat split; try lra; try tauto.
  - cbn [fold_left maxAcc].
    destruct (IH (Num.max a v)) as [m [Hfold [Hle [Hall Hin]]]].
    destruct (max_spec a v) as [Ha [Hv Hor]].
    exists m. split; [exact Hfold|]. split; [lra|]. split.
    + intros u [<- | Hu]; [lra | now apply Hall].
    + destruct Hin as [-> | Hin]; [|right; now right].
      destruct Hor as [-> | ->]; [now left | right; now left].
Qed.

(** The four accumulators of [getStrokeSize] run independently. *)
Lemma bounds_fold (pts : list Point2D) (b : Bounds) :
  fold_left
    (fun b p => mkBounds (minAcc (minX b) (x p)) (maxAcc (maxX b) (x p))
                         (minAcc (minY b) (y p)) (maxAcc (maxY b) (y p)))
    pts b
  = mkBounds (fold_left minAcc (map x pts) (minX b))
             (fold_left maxAcc (map x pts) (maxX b))
             (fold_left minAcc (map y pts) (minY b))
             (fold_left maxAcc (map y pts) (maxY b)).
Proof.
  revert b. induction pts as [|p pts IH]; intros b.
  - now destruct b.
  - cbn [fold_left map]. now rewrite IH.
Qed.

Lemma extent_spec (g : Point2D -> R) (p0 : Point2D) (pts : list Point2D) :
  exists lo hi,
    fold_left minAcc (map g (p0 :: pts)) None = Some lo
    /\ fold_left maxAcc (map g (p0 :: pts)) None = Some hi
    /\ (forall p q, In p (p0 :: pts) -> In q (p0 :: pts) -> g p - g q <= hi - lo)
    /\ (exists p q, In p (p0 :: pts) /\ In q (p0 :: pts) /\ g p - g q = hi - lo).
Proof.
  cbn [map fold_left minAcc maxAcc].
  destruct (minAcc_fold (map g pts) (g p0)) as [lo [Hlo [Hlo0 [Hloall Hloin]]]].
  destruct (maxAcc_fold (map g pts) (g p0)) as [hi [Hhi [Hhi0 [Hhiall Hhiin]]]].
  exists lo, hi. split; [exact Hlo|]. split; [exact Hhi|].
  assert (Hbound : forall p, In p (p0 :: pts) -> lo <= g p <= hi).
  { intros p [<- | Hp]; [lra|].
    split; [apply Hloall | apply Hhiall]; now apply in_map. }
  assert (Hattain : forall m, m = g p0 \/ In m (map g pts) ->
                    exists p, In p (p0 :: pts) /\ g p = m).
  { intros m [-> | Hm].
    - exists p0. split; [now left | reflexivity].
    - apply in_map_iff in Hm. destruct Hm as [p [Hgp Hp]].
      exists p. split; [now right | assumption]. }
  split.
  - intros p q Hp Hq.
    pose proof (Hbound p Hp). pose proof (Hbound q Hq). lra.
  - destruct (Hattain hi Hhiin) as [p [Hp Hgp]].
    destruct (Hattain lo Hloin) as [q [Hq Hgq]].
    exists p, q. repeat split; trivial. lra.
Qed.

(** X15. For a stroke with at least one point [getStrokeSize] returns the
    width and height of its bounding box: non-negative numbers that bound
    the horizontal and vertical distance of any two points and are attained
    by two of them; the scale of the balloon is then non-negative, and 0
    for a stroke of a single point.  For an empty stroke both are
    [-Infinity] ([None]). *)
Theorem getStrokeSize_extent (stroke : Stroke) :
  (points stroke = [] ->
   getStrokeSize (points stroke) = (None, None)
   /\ balloonScale stroke = None)
  /\ (points stroke <> [] ->
      exists w h,
        getStrokeSize (points stroke) = (Some w, Some h)
        /\ 0 <= w /\ 0 <= h
        /\ (forall p q, In p (points stroke) -> In q (points stroke) ->
                        x p - x q <= w /\ y p - y q <= h)
        /\ (exists p q, In p (points stroke) /\ In q (points stroke)
                        /\ x p - x q = w)
        /\ (exists p q, In p (points stroke) /\ In q (points stroke)
                        /\ y p - y q = h)
        /\ balloonScale stroke = Some (Num.max w h / 600)
        /\ 0 <= Num.max w h / 600
        /\ (List.length (points stroke) = 1%nat -> w = 0 /\ h = 0)).
Proof.
  split.
  - intros Hempty. unfold balloonScale. rewrite Hempty. now split.
  - intros Hne. unfold balloonScale.
    destruct (points stroke) as [|p0 pts]; [contradiction|].
    unfold getStrokeSize. rewrite bounds_fold. cbn [minX maxX minY maxY].
    destruct (extent_spec x p0 pts) as [xlo [xhi [Hxlo [Hxhi [Hxb Hxa]]]]].
    destruct (extent_spec y p0 pts) as [ylo [yhi [Hylo [Hyhi [Hyb Hya]]]]].
    rewrite Hxlo, Hxhi, Hylo, Hyhi.
    exists (xhi - xlo), (yhi - ylo).
    assert (Hw : 0 <= xhi - xlo).
    { pose proof (Hxb p0 p0 (or_introl eq_refl) (or_introl eq_refl)). lra. }
    assert (Hh : 0 <= yhi - ylo).
    { pose proof (Hyb p0 p0 (or_introl eq_refl) (or_introl eq_refl)). lra. }
    split; [reflexivity|]. split; [exact Hw|]. split; [exact Hh|].
    split; [intros p q Hp Hq; split; [now apply Hxb | now apply Hyb]|].
    split; [exact Hxa|]. split; [exact Hya|]. split; [reflexivity|].
    split.
    + destruct (max_spec (xhi - xlo) (yhi - ylo)) as [Hm _]. lra.
    + intros Hone. destruct pts; [|discriminate].
      destruct Hxa as [p [q [Hp [Hq Hx]]]].
      destruct Hya as [p' [q' [Hp' [Hq' Hy]]]].
      destruct Hp as [<- | []], Hq as [<- | []],
               Hp' as [<- | []], Hq' as [<- | []].
      split; lra.
Qed.

Lemma getStrokeSize_extent_witness :
  exists w h,
    getStrokeSize (points twoPointStroke) = (Some w, Some h)
    /\ 0 <= w /\ 0 <= h.
Proof.
  destruct (proj2 (getStrokeSize_extent twoPointStroke) ltac:(discriminate))
    as [w [h [Hsize [Hw [Hh _]]]]].
  exists w, h. now repeat split.
Defined.

End BalloonInflatorFacts.

(** ** Object layout *)

Module ObjectManagerFacts.
Import ObjectManager ObjectManagerSpec.

(** *** Removal *)

Lemma indexOf_In (l : list Ref) (r : Ref) :
  In r l -> exists index, indexOf l r = Some index.
Proof.
  induction l as [|r' l IH]; intros Hin; [contradiction|].
  cbn [indexOf]. destruct (Nat.eqb r' r) eqn:Heq; [eauto|].
  apply Nat.eqb_neq in Heq. destruct Hin as [Hin | Hin]; [contradiction|].
  destruct (IH Hin) as [index ->]. cbn. eauto.
Qed.

Lemma indexOf_not_In (l : list Ref) (r : Ref) :
  ~ In r l -> indexOf l r = None.
Proof.
  induction l as [|r' l IH]; intros Hnot; [reflexivity|].
  cbn [indexOf]. destruct (Nat.eqb r' r) eqn:Heq.
  - apply Nat.eqb_eq in Heq. exfalso. apply Hnot. now left.
  - rewrite IH; [reflexivity|]. intros Hin. apply Hnot. now right.
Qed.

(** Splicing at the index of [r] removes the first occurrence of [r] and
    nothing else. *)
Lemma splice1_indexOf (l : list Ref) (r : Ref) (index : nat) :
  indexOf l r = Some index ->
  List.length (splice1 l index) = pred (List.length l)
  /\ (forall r', r' <> r -> (In r' (splice1 l index) <-> In r' l))
  /\ (NoDup l -> ~ In r (splice1 l index)).
Proof.
  revert index. induction l as [|r0 l IH]; intros index Hidx; [discriminate|].
  cbn [indexOf] in Hidx. destruct (Nat.eqb r0 r) eqn:Heq.
  - apply Nat.eqb_eq in Heq. inversion Hidx; subst index r0. cbn.
    split; [reflexivity|]. split.
    + intros r' Hne. split; [now right|].
      intros [H | H]; [congruence | assumption].
    + intros Hnd. now inversion Hnd.
  - apply Nat.eqb_neq in Heq.
    destruct (indexOf l r) as [i|] eqn:Hi; [|discriminate].
    inversion Hidx; subst index. cbn [splice1].
    destruct (IH i eq_refl) as [Hlen [Hkeep Hgone]].
    split; [|split].
    + cbn [List.length]. rewrite Hlen.
      destruct l; [discriminate | reflexivity].
    + intros r' Hne. split.
      * intros [H | H]; [now left | right; now apply Hkeep].
      * intros [H | H]; [now left | right; now apply Hkeep].
    + intros Hnd [H | H]; [congruence|].
      inversion Hnd; subst. now apply Hgone.
Qed.

(** *** The store *)

Lemma write_same (r : Ref) (o : BalloonObject) (h : Store) : write r o h r = o.
Proof. unfold write. now rewrite Nat.eqb_refl. Qed.

Lemma write_other (r r' : Ref) (o : BalloonObject) (h : Store) :
  r' <> r -> write r o h r' = h r'.
Proof.
  intros Hne. unfold write. apply Nat.eqb_neq in Hne. now rewrite Hne.
Qed.

(** [softCollisionAvoidance] and the loop body of [update] write to the
    object they are called for and to no other. *)
Lemma avoid_other (r other r' : Ref) (deltaTime : R) (h : Store) :
  r' <> r -> avoid r deltaTime h other r' = h r'.
Proof.
  intros Hne. unfold avoid.
  destruct (String.eqb _ _); [reflexivity|].
  destruct (_ && _)%bool; [|reflexivity].
  now apply write_other.
Qed.

Lemma softCollisionAvoidance_other (objs : list Ref) (r r' : Ref)
  (deltaTime : R) (h : Store) :
  r' <> r -> softCollisionAvoidance objs r deltaTime h r' = h r'.
Proof.
  intros Hne. unfold softCollisionAvoidance. revert h.
  induction objs as [|other objs IH]; intros h; [reflexivity|].
  cbn [fold_left]. rewrite IH. now apply avoid_other.
Qed.

Lemma updateObject_other (objs : list Ref) (deltaTime elapsedTime : R)
  (h : Store) (r r' : Ref) :
  r' <> r -> updateObject objs deltaTime elapsedTime h r r' = h r'.
Proof.
  intros Hne. unfold updateObject.
  destruct (isGrabbed (h r)); [reflexivity|]. cbv zeta.
  destruct (Num.gtb _ 0).
  - rewrite write_other by assumption.
    rewrite softCollisionAvoidance_other by assumption.
    now apply write_other.
  - rewrite softCollisionAvoidance_other by assumption.
    now apply write_other.
Qed.

Lemma updateObject_grabbed (objs : list Ref) (deltaTime elapsedTime : R)
  (h : Store) (r : Ref) :
  isGrabbed (h r) = true -> updateObject objs deltaTime elapsedTime h r = h.
Proof.
  intros Hg. unfold updateObject. now rewrite Hg.
Qed.

Lemma update_loop_grabbed (objs l : list Ref) (deltaTime elapsedTime : R)
  (h : Store) (g : Ref) :
  isGrabbed (h g) = true ->
  fold_left (updateObject objs deltaTime elapsedTime) l h g = h g.
Proof.
  revert h. induction l as [|r l IH]; intros h Hg; [reflexivity|].
  cbn [fold_left].
  assert (Hstep : updateObject objs deltaTime elapsedTime h r g = h g).
  { destruct (Nat.eq_dec g r) as [-> | Hne].
    - now rewrite updateObject_grabbed.
    - now apply updateObject_other. }
  rewrite IH; [exact Hstep | now rewrite Hstep].
Qed.

Lemma update_loop_absent (objs l : list Ref) (deltaTime elapsedTime : R)
  (h : Store) (r : Ref) :
  ~ In r l ->
  fold_left (updateObject objs deltaTime elapsedTime) l h r = h r.
Proof.
  revert h. induction l as [|r0 l IH]; intros h Hnot; [reflexivity|].
  cbn [fold_left]. rewrite IH by (intros Hin; apply Hnot; now right).
  apply updateObject_other. intros ->. apply Hnot. now left.
Qed.

(** *** Objects that are not in the array do not matter *)

Lemma agreeExcept_write (r r0 : Ref) (o : BalloonObject) (h1 h2 : Store) :
  agreeExcept r h1 h2 -> agreeExcept r (write r0 o h1) (write r0 o h2).
Proof.
  intros Hag r' Hne. unfold write.
  destruct (Nat.eqb r' r0); [reflexivity | now apply Hag].
Qed.

Lemma avoid_agree (r r0 other : Ref) (deltaTime : R) (h1 h2 : Store) :
  r0 <> r -> other <> r ->
  agreeExcept r h1 h2 ->
  agreeExcept r (avoid r0 deltaTime h1 other) (avoid r0 deltaTime h2 other).
Proof.
  intros H0 Hother Hag. unfold avoid.
  rewrite (Hag r0 H0), (Hag other Hother).
  destruct (String.eqb _ _); [assumption|].
  destruct (_ && _)%bool; [|assumption].
  now apply agreeExcept_write.
Qed.

Lemma softCollisionAvoidance_agree (objs : list Ref) (r r0 : Ref)
  (deltaTime : R) (h1 h2 : Store) :
  r0 <> r -> ~ In r objs ->
  agreeExcept r h1 h2 ->
  agreeExcept r (softCollisionAvoidance objs r0 deltaTime h1)
                (softCollisionAvoidance objs r0 deltaTime h2).
Proof.
  intros H0. unfold softCollisionAvoidance. revert h1 h2.
  induction objs as [|other objs IH]; intros h1 h2 Hnot Hag; [assumption|].
  cbn [fold_left]. apply IH.
  - intros Hin. apply Hnot. now right.
  - apply avoid_agree; trivial. intros ->. apply Hnot. now left.
Qed.

Lemma updateObject_agree (objs : list Ref) (deltaTime elapsedTime : R)
  (r r0 : Ref) (h1 h2 : Store) :
  r0 <> r -> ~ In r objs ->
  agreeExcept r h1 h2 ->
  agreeExcept r (updateObject objs deltaTime elapsedTime h1 r0)
                (updateObject objs deltaTime elapsedTime h2 r0).
Proof.
  intros H0 Hnot Hag. unfold updateObject.
  rewrite (Hag r0 H0).
  destruct (isGrabbed (h2 r0)); [assumption|]. cbv zeta.
  match goal with
  | |- context [softCollisionAvoidance objs r0 deltaTime (write r0 ?o h1)] =>
      pose proof (softCollisionAvoidance_agree objs r r0 deltaTime
                    (write r0 o h1) (write r0 o h2) H0 Hnot
                    (agreeExcept_write r r0 o h1 h2 Hag)) as Hsoft
  end.
  rewrite (Hsoft r0 H0).
  destruct (Num.gtb _ 0); [|assumption].
  now apply agreeExcept_write.
Qed.

Lemma update_loop_agree (objs l : list Ref) (deltaTime elapsedTime : R)
  (r : Ref) (h1 h2 : Store) :
  ~ In r objs -> ~ In r l ->
  agreeExcept r h1 h2 ->
  agreeExcept r (fold_left (updateObject objs deltaTime elapsedTime) l h1)
                (fold_left (updateObject objs deltaTime elapsedTime) l h2).
Proof.
  intros Hobjs. revert h1 h2.
  induction l as [|r0 l IH]; intros h1 h2 Hnot Hag; [assumption|].
  cbn [fold_left]. apply IH.
  - intros Hin. apply Hnot. now right.
  - apply updateObject_agree; trivial. intros ->. apply Hnot. now left.
Qed.

(** *** One obstacle *)

Lemma pushAt_nonneg (d deltaTime : R) :
  d < SCENE.COLLISION_RADIUS -> 0 <= deltaTime -> 0 <= pushAt d deltaTime.
Proof.
  intros Hd Hdt. unfold pushAt, SCENE.COLLISION_RADIUS in *.
  apply Rmult_le_pos; [|lra].
  apply Rmult_le_pos; [|lra].
  apply Rmult_le_pos; [lra|].
  apply Rlt_le, Rinv_0_lt_compat. lra.
Qed.

Lemma pushAt_pos (d deltaTime : R) :
  d < SCENE.COLLISION_RADIUS -> 0 < deltaTime -> 0 < pushAt d deltaTime.
Proof.
  intros Hd Hdt. unfold pushAt, SCENE.COLLISION_RADIUS in *.
  apply Rmult_lt_0_compat; [|lra].
  apply Rmult_lt_0_compat; [|lra].
  apply Rmult_lt_0_compat; [lra|].
  apply Rinv_0_lt_compat. lra.
Qed.

Lemma length3_sqr (a : Point3D) :
  length3 a * length3 a = x3 a * x3 a + y3 a * y3 a + z3 a * z3 a.
Proof.
  unfold length3. apply sqrt_sqrt.
  repeat apply Rplus_le_le_0_compat; apply Rle_0_sqr.
Qed.

(** Moving a point along the ray from [o] through it, by [k]. *)
Lemma length3_pushed (p o : Point3D) (k : R) :
  let d := length3 (sub p o) in
  0 < d -> 0 <= d + k ->
  length3 (sub (add p (multiplyScalar (multiplyScalar (sub p o) (1 / d)) k)) o)
  = d + k.
Proof.
  intros d Hd Hk.
  pose proof (length3_sqr (sub p o)) as Hsq. fold d in Hsq.
  clearbody d.
  unfold length3, sub, add, multiplyScalar in *. cbn [x3 y3 z3] in *.
  apply NumFacts.sqrt_eq; [assumption|].
  transitivity
    (((x3 p - x3 o) * (x3 p - x3 o) + (y3 p - y3 o) * (y3 p - y3 o)
      + (z3 p - z3 o) * (z3 p - z3 o))
     * ((d + k) * (d + k)) / (d * d)).
  - field. lra.
  - rewrite <- Hsq. field. lra.
Qed.

(** When the object at [r] is examined against an obstacle with
    another id at a distance between 0.001 and the collision radius, it is
    moved away from the obstacle by [pushAt]; the obstacle stays. *)
Lemma avoid_push (r other : Ref) (deltaTime : R) (h : Store) :
  String.eqb (id (h other)) (id (h r)) = false ->
  let d := separation (h r) (h other) in
  0.001 < d < SCENE.COLLISION_RADIUS ->
  0 <= deltaTime ->
  let h' := avoid r deltaTime h other in
  h' other = h other
  /\ separation (h' r) (h' other) = d + pushAt d deltaTime.
Proof.
  intros Hid d [Hlo Hhi] Hdt h'.
  assert (Hne : other <> r).
  { intros ->. rewrite String.eqb_refl in Hid. discriminate. }
  pose proof (pushAt_nonneg d deltaTime Hhi Hdt) as Hpush.
  subst h'. unfold avoid. rewrite Hid.
  change (length3 (sub (mesh_position (mesh (h r)))
                       (mesh_position (mesh (h other))))) with d.
  rewrite (proj2 (NumFacts.ltb_lt d SCENE.COLLISION_RADIUS) Hhi).
  rewrite (proj2 (NumFacts.gtb_gt d 0.001) Hlo).
  cbn [andb]. rewrite write_same, write_other by assumption.
  split; [reflexivity|].
  unfold separation at 1.
  cbn [mesh mesh_position set_targetPosition set_mesh_position].
  unfold normalize.
  change (length3 (sub (mesh_position (mesh (h r)))
                       (mesh_position (mesh (h other))))) with d.
  rewrite (proj2 (NumFacts.eqb_num_neq d 0)) by lra.
  fold (pushAt d deltaTime).
  apply length3_pushed; fold (separation (h r) (h other)); fold d; lra.
Qed.

(** At a distance of at most 0.001, or of the collision radius or more,
    nothing moves. *)
Lemma avoid_skip (r other : Ref) (deltaTime : R) (h : Store) :
  separation (h r) (h other) <= 0.001
  \/ SCENE.COLLISION_RADIUS <= separation (h r) (h other) ->
  avoid r deltaTime h other = h.
Proof.
  intros Hout. unfold avoid.
  destruct (String.eqb _ _); [reflexivity|].
  fold (separation (h r) (h other)).
  destruct Hout as [Hnear | Hfar].
  - rewrite (proj2 (NumFacts.gtb_le _ 0.001) Hnear).
    now rewrite andb_false_r.
  - now rewrite (proj2 (NumFacts.ltb_ge _ SCENE.COLLISION_RADIUS) Hfar).
Qed.

Lemma avoid_self (r : Ref) (deltaTime : R) (h : Store) :
  avoid r deltaTime h r = h.
Proof.
  unfold avoid. now rewrite String.eqb_refl.
Qed.

(** *** Grabbed objects *)

(** The loop body of [update] on an object that is not grabbed. *)
Lemma updateObject_free (objs : list Ref) (deltaTime elapsedTime : R)
  (h : Store) (r : Ref) :
  isGrabbed (h r) = false ->
  updateObject objs deltaTime elapsedTime h r
  = let h' :=
      softCollisionAvoidance objs r deltaTime
        (write r (drifted deltaTime elapsedTime (h r)) h) in
    if Num.gtb (squishAmount (h' r)) 0 then
      write r
        (set_mesh_scale (h' r)
           (mkPoint3D (scale (h' r) * (1 + squishAmount (h' r) * 0.15))
                      (scale (h' r) * (1 - squishAmount (h' r) * 0.3))
                      (scale (h' r) * (1 + squishAmount (h' r) * 0.15))))
        h'
    else h'.
Proof.
  intros Hfree. unfold updateObject. rewrite Hfree. reflexivity.
Qed.

(** A collision pass in which every obstacle is the object itself, or
    closer than 0.001, or at the collision radius or further, moves
    nothing. *)
Lemma softCollisionAvoidance_quiet (objs : list Ref) (r : Ref)
  (deltaTime : R) (h : Store) :
  (forall other, In other objs ->
     other = r
     \/ separation (h r) (h other) <= 0.001
     \/ SCENE.COLLISION_RADIUS <= separation (h r) (h other)) ->
  softCollisionAvoidance objs r deltaTime h = h.
Proof.
  unfold softCollisionAvoidance.
  induction objs as [|other objs IH]; intros Hquiet; [reflexivity|].
  cbn [fold_left].
  assert (Hstep : avoid r deltaTime h other = h).
  { destruct (Hquiet other (or_introl eq_refl)) as [-> | Hout].
    - apply avoid_self.
    - now apply avoid_skip. }
  rewrite Hstep. apply IH. intros o Hin. apply Hquiet. now right.
Qed.

Lemma drifted_resting (name : string) (deltaTime : R) :
  drifted deltaTime 0 (restingObject name false)
  = restingObject name false.
Proof.
  unfold drifted, restingObject, set_mesh_position, set_mesh_rotation,
    add, multiplyScalar, origin.
  cbn [mesh mesh_position mesh_rotation mesh_scale id object_color
       originalStroke position targetPosition rotation rotationSpeed
       bobOffset bobSpeed scale targetScale createdAt isGrabbed squishAmount
       x3 y3 z3].
  replace (0 * 0.2 + 0) with 0 by lra.
  replace (0 * 1 + 0) with 0 by lra.
  rewrite sin_0.
  f_equal. f_equal; f_equal; lra.
Qed.


(** C8, as the code has it.  An update leaves a grabbed object as it was: no
    rotation, bobbing, drift or collision displacement.  The grabbed object
    is still an obstacle: the collision pass of any object examines it like
    every other member of the array, and an object with another id examined
    against it at a distance [d] with [0.001 < d < COLLISION_RADIUS] is
    moved to the distance [d + pushAt d deltaTime] from it, strictly further
    when [deltaTime] is positive, while the grabbed object stays; at a
    distance of at most 0.001, or of the radius or more, the pass moves
    nothing.  In a scene of the grabbed object and one free object, the
    update as a whole leaves the free object at [d + pushAt d deltaTime]
    from the grabbed one, [d] being their distance after the drift. *)
Theorem grabbed_obstacle_not_mover (deltaTime elapsedTime : R) (m : t)
  (g : Ref) :
  isGrabbed (store m g) = true ->
  store (update deltaTime elapsedTime m) g = store m g
  /\ (forall r pre post h,
        softCollisionAvoidance (pre ++ g :: post) r deltaTime h
        = softCollisionAvoidance post r deltaTime
            (avoid r deltaTime (softCollisionAvoidance pre r deltaTime h) g))
  /\ (forall r h,
        isGrabbed (h g) = true ->
        String.eqb (id (h g)) (id (h r)) = false ->
        0.001 < separation (h r) (h g) < SCENE.COLLISION_RADIUS ->
        0 <= deltaTime ->
        avoid r deltaTime h g g = h g
        /\ separation (avoid r deltaTime h g r) (avoid r deltaTime h g g)
           = separation (h r) (h g)
             + pushAt (separation (h r) (h g)) deltaTime
        /\ (0 < deltaTime ->
            separation (h r) (h g)
            < separation (avoid r deltaTime h g r) (avoid r deltaTime h g g)))
  /\ (forall r h,
        separation (h r) (h g) <= 0.001
        \/ SCENE.COLLISION_RADIUS <= separation (h r) (h g) ->
        avoid r deltaTime h g = h)
  /\ (forall r,
        objects m = [g; r] ->
        isGrabbed (store m r) = false ->
        String.eqb (id (store m g)) (id (store m r)) = false ->
        let d :=
          separation (drifted deltaTime elapsedTime (store m r)) (store m g) in
        0.001 < d < SCENE.COLLISION_RADIUS ->
        0 < deltaTime ->
        separation (store (update deltaTime elapsedTime m) r)
                   (store (update deltaTime elapsedTime m) g)
        = d + pushAt d deltaTime
        /\ d < d + pushAt d deltaTime).
Proof.
  intros Hg. split; [|split; [|split; [|split]]].
  - unfold update. cbn [store]. now apply update_loop_grabbed.
  - intros r pre post h. unfold softCollisionAvoidance.
    now rewrite fold_left_app.
  - intros r h _ Hid Hrange Hdt.
    destruct (avoid_push r g deltaTime h Hid Hrange Hdt) as [Hstay Hsep].
    split; [exact Hstay|]. split; [exact Hsep|].
    intros Hpos. rewrite Hsep.
    pose proof (pushAt_pos (separation (h r) (h g)) deltaTime
                  (proj2 Hrange) Hpos).
    lra.
  - intros r h. apply avoid_skip.
  - intros r Hobjs Hfree Hid d Hrange Hdt.
    assert (Hne : g <> r).
    { intros ->. rewrite String.eqb_refl in Hid. discriminate. }
    pose proof (pushAt_pos d deltaTime (proj2 Hrange) Hdt) as Hpush.
    split; [|lra].
    unfold update. cbn [store]. rewrite Hobjs. cbn [fold_left].
    rewrite (updateObject_grabbed _ _ _ _ g) by assumption.
    rewrite updateObject_free by assumption. cbv zeta.
    unfold softCollisionAvoidance. cbn [fold_left]. rewrite avoid_self.
    set (h1 := write r (drifted deltaTime elapsedTime (store m r)) (store m)).
    assert (H1r : h1 r = drifted deltaTime elapsedTime (store m r))
      by apply write_same.
    assert (H1g : h1 g = store m g) by (now apply write_other).
    destruct (avoid_push r g deltaTime h1) as [Hstay Hsep].
    { rewrite H1r, H1g. exact Hid. }
    { rewrite H1r, H1g. exact Hrange. }
    { lra. }
    rewrite H1r, H1g in Hsep. fold d in Hsep.
    destruct (Num.gtb _ 0).
    + rewrite write_same, write_other by assumption.
      rewrite <- Hsep. reflexivity.
    + exact Hsep.
Qed.

Lemma grabbed_obstacle_not_mover_witness :
  store (update 0.016 0 coincidentScene) 0%nat = store coincidentScene 0%nat.
Proof.
  exact (proj1 (grabbed_obstacle_not_mover 0.016 0 coincidentScene 0%nat
                  eq_refl)).
Defined.

Lemma coincident_grabbed_stays (deltaTime elapsedTime : R) :
  store (update deltaTime elapsedTime coincidentScene) 0%nat
  = store coincidentScene 0%nat.
Proof.
  unfold update. cbn [store]. now apply update_loop_grabbed.
Qed.

Lemma sub_origin : sub origin origin = origin.
Proof. unfold sub, origin. cbn. f_equal; lra. Qed.

Lemma length3_origin : length3 origin = 0.
Proof.
  unfold length3, origin. cbn. apply NumFacts.sqrt_eq; lra.
Qed.

(** C8 as stated fails for coincident objects: a grabbed object and a free
    one at the same place are within the collision radius of each other,
    and an update at time 0 leaves the free one where it is. *)
Lemma coincident_not_pushed_counterexample :
  isGrabbed (store coincidentScene 0%nat) = true
  /\ isGrabbed (store coincidentScene 1%nat) = false
  /\ separation (store coincidentScene 1%nat) (store coincidentScene 0%nat)
     < SCENE.COLLISION_RADIUS
  /\ mesh_position (mesh (store (update 0.016 0 coincidentScene) 1%nat))
     = mesh_position (mesh (store coincidentScene 1%nat))
  /\ separation (store (update 0.016 0 coincidentScene) 1%nat)
                (store (update 0.016 0 coincidentScene) 0%nat)
     = 0.
Proof.
  assert (Hsep0 : separation (store coincidentScene 1%nat)
                             (store coincidentScene 0%nat) = 0).
  { unfold separation. cbn. change (length3 (sub origin origin) = 0).
    now rewrite sub_origin, length3_origin. }
  assert (Hpos : mesh_position (mesh (store (update 0.016 0 coincidentScene) 1%nat))
                 = origin).
  { unfold update, coincidentScene.
    cbn [objects store fold_left].
    rewrite (updateObject_grabbed _ _ _ _ 0%nat) by reflexivity.
    rewrite updateObject_free by reflexivity.
    cbn [Nat.eqb].
    rewrite softCollisionAvoidance_quiet.
    - rewrite write_same, drifted_resting.
      change (squishAmount (restingObject "balloon_1" false)) with 0.
      replace (Num.gtb 0 0) with false
        by (symmetry; apply NumFacts.gtb_le; lra).
      reflexivity.
    - intros other _. destruct (Nat.eq_dec other 1) as [-> | Hne];
        [now left | right; left].
      unfold separation. rewrite write_same, write_other by assumption.
      rewrite drifted_resting.
      destruct other as [|[|other]]; [|contradiction|];
        cbn [Nat.eqb mesh mesh_position restingObject];
        change (length3 (sub origin origin) <= 0.001);
        rewrite sub_origin, length3_origin; lra. }
  split; [reflexivity|]. split; [reflexivity|].
  split; [rewrite Hsep0; unfold SCENE.COLLISION_RADIUS; lra|].
  split; [exact Hpos|].
  unfold separation. rewrite Hpos.
  rewrite coincident_grabbed_stays.
  change (length3 (sub origin origin) = 0).
  now rewrite sub_origin, length3_origin.
Qed.

(** *** Removal, as a whole *)

Lemma sceneRemove_gone (r : Ref) (m : t) (tw : Tween) :
  tw = FadeOut r \/ tw = Shrink r ->
  ~ In r (sceneChildren (complete tw m)).
Proof.
  intros [-> | ->]; cbn [complete sceneChildren]; unfold sceneRemove;
    rewrite filter_In, Nat.eqb_refl; cbn; intros [_ H]; discriminate.
Qed.

(** C9. [removeObject] takes the object out of the array at once: the scene
    still holds its mesh and the first tween has only been handed over, yet
    the object is no longer a member, every other member is kept, a later
    update neither moves it nor depends on it, and the end of the tween
    takes the mesh out of the scene without touching the array.  On an
    object that is not in the array, a second call for the same object
    included, [removeObject] changes nothing at all. *)
Theorem removeObject_immediate (r : Ref) (fade : bool) (m : t) :
  NoDup (objects m) ->
  let m' := removeObject r fade m in
  (In r (objects m) ->
   ~ In r (objects m')
   /\ (forall r', r' <> r -> (In r' (objects m') <-> In r' (objects m)))
   /\ List.length (objects m') = pred (List.length (objects m))
   /\ sceneChildren m' = sceneChildren m
   /\ tweens m' = tweens m ++ [if fade then FadeOut r else Pop r]
   /\ (forall tw, objects (complete tw m') = objects m')
   /\ ~ In r (sceneChildren
               (complete (if fade then FadeOut r else Shrink r) m'))
   /\ (forall deltaTime elapsedTime,
         store (update deltaTime elapsedTime m') r = store m r)
   /\ (forall deltaTime elapsedTime h,
         agreeExcept r (store m) h ->
         agreeExcept r
           (store (update deltaTime elapsedTime m'))
           (store (update deltaTime elapsedTime
                     (mk (objects m') h (sceneChildren m') (tweens m')
                         (idCounter m'))))))
  /\ (~ In r (objects m) -> m' = m)
  /\ removeObject r fade m' = m'.
Proof.
  intros Hnd m'.
  assert (Hpresent : In r (objects m) ->
            exists index,
              indexOf (objects m) r = Some index
              /\ m' = mk (splice1 (objects m) index) (store m)
                         (sceneChildren m)
                         (tweens m ++ [if fade then FadeOut r else Pop r])
                         (idCounter m)).
  { intros Hin. destruct (indexOf_In _ _ Hin) as [index Hidx].
    exists index. split; [assumption|].
    subst m'. unfold removeObject. now rewrite Hidx. }
  assert (Habsent : ~ In r (objects m) -> m' = m).
  { intros Hnot. subst m'. unfold removeObject.
    now rewrite indexOf_not_In. }
  assert (Hgone : ~ In r (objects m')).
  { destruct (in_dec Nat.eq_dec r (objects m)) as [Hin | Hnot].
    - destruct (Hpresent Hin) as [index [Hidx ->]]. cbn [objects].
      now apply (splice1_indexOf _ _ _ Hidx).
    - now rewrite (Habsent Hnot). }
  split; [|split].
  - intros Hin. destruct (Hpresent Hin) as [index [Hidx Hm']].
    destruct (splice1_indexOf _ _ _ Hidx) as [Hlen [Hkeep _]].
    split; [exact Hgone|].
    rewrite Hm' in *. cbn [objects sceneChildren tweens store idCounter] in *.
    split; [exact Hkeep|]. split; [exact Hlen|].
    split; [reflexivity|]. split; [reflexivity|].
    split; [intros [r0|r0|r0]; reflexivity|].
    split; [destruct fade; apply sceneRemove_gone; tauto|]. split.
    + intros deltaTime elapsedTime. unfold update. cbn [store objects].
      now apply update_loop_absent.
    + intros deltaTime elapsedTime h Hag. unfold update. cbn [store objects].
      now apply update_loop_agree.
  - exact Habsent.
  - unfold removeObject at 1. now rewrite indexOf_not_In.
Qed.

Lemma removeObject_immediate_witness :
  ~ In 0%nat (objects (removeObject 0%nat false coincidentScene))
  /\ removeObject 0%nat false (removeObject 0%nat false coincidentScene)
     = removeObject 0%nat false coincidentScene.
Proof.
  assert (Hnd : NoDup (objects coincidentScene)).
  { cbn. repeat constructor; cbn; intuition lia. }
  assert (Hin : In 0%nat (objects coincidentScene)) by (cbn; tauto).
  split.
  - exact (proj1 (proj1 (removeObject_immediate 0%nat false coincidentScene Hnd)
                    Hin)).
  - exact (proj2 (proj2 (removeObject_immediate 0%nat false coincidentScene Hnd))).
Defined.

(** *** Clearing the scene *)

Lemma indexOf_app_fresh (pre rest : list Ref) (r : Ref) :
  ~ In r pre ->
  indexOf (pre ++ r :: rest) r = Some (List.length pre).
Proof.
  induction pre as [|a pre IH]; intros Hnot.
  - cbn. now rewrite Nat.eqb_refl.
  - cbn [app indexOf List.length].
    replace (Nat.eqb a r) with false
      by (symmetry; apply Nat.eqb_neq; intros ->; apply Hnot; now left).
    rewrite IH by (intros Hin; apply Hnot; now right).
    reflexivity.
Qed.

Lemma splice1_app (pre rest : list Ref) (r : Ref) :
  splice1 (pre ++ r :: rest) (List.length pre) = pre ++ rest.
Proof.
  induction pre as [|a pre IH]; [reflexivity|].
  cbn [app List.length splice1]. now rewrite IH.
Qed.

(** A callback whose index is past the end of the array does nothing. *)
Lemma clearAllCallbacks_past (cnt k : nat) (m : t) :
  (List.length (objects m) <= k)%nat ->
  fold_left clearAllCallback (seq k cnt) m = m.
Proof.
  revert k. induction cnt as [|cnt IH]; intros k Hlen; [reflexivity|].
  cbn [seq fold_left]. unfold clearAllCallback at 2.
  replace (nth_error (objects m) k) with (@None Ref)
    by (symmetry; apply nth_error_None; assumption).
  apply IH. lia.
Qed.

(** The callbacks from the index [length pre] on remove every other
    object of the rest of the array, the first one first. *)
Lemma clearAllCallbacks_alternate (n : nat) :
  forall (rest pre : list Ref) (cnt : nat) (m : t),
    (List.length rest <= n)%nat ->
    objects m = pre ++ rest ->
    NoDup (objects m) ->
    (List.length rest <= cnt)%nat ->
    let m' := fold_left clearAllCallback (seq (List.length pre) cnt) m in
    objects m' = pre ++ odds rest
    /\ tweens m' = tweens m ++ map FadeOut (evens rest)
    /\ sceneChildren m' = sceneChildren m
    /\ store m' = store m.
Proof.
  induction n as [|n IH]; intros rest pre cnt m Hn Hobjs Hnd Hcnt m'.
  - destruct rest; [|cbn in Hn; lia]. subst m'.
    rewrite clearAllCallbacks_past
      by (rewrite Hobjs, app_nil_r; lia).
    cbn. now rewrite Hobjs, !app_nil_r.
  - destruct rest as [|a rest].
    + subst m'. rewrite clearAllCallbacks_past
        by (rewrite Hobjs, app_nil_r; lia).
      cbn. now rewrite Hobjs, !app_nil_r.
    + destruct cnt as [|cnt]; [cbn in Hcnt; lia|].
      subst m'. cbn [seq fold_left].
      assert (Hfresh : ~ In a pre).
      { rewrite Hobjs in Hnd. apply NoDup_remove_2 in Hnd.
        intros Hin. apply Hnd. apply in_or_app. now left. }
      set (m1 := mk (pre ++ rest) (store m) (sceneChildren m)
                    (tweens m ++ [FadeOut a]) (idCounter m)).
      assert (Hstep : clearAllCallback m (List.length pre) = m1).
      { unfold clearAllCallback.
        rewrite Hobjs, nth_error_app2, Nat.sub_diag by lia.
        cbn [nth_error]. unfold removeObject.
        now rewrite Hobjs, indexOf_app_fresh, splice1_app by assumption. }
      rewrite Hstep.
      assert (Hnd1 : NoDup (objects m1)).
      { cbn. rewrite Hobjs in Hnd. now apply NoDup_remove_1 in Hnd. }
      destruct rest as [|b rest].
      * rewrite clearAllCallbacks_past
          by (unfold m1; cbn [objects]; rewrite app_nil_r; lia).
        unfold m1. cbn. now rewrite !app_nil_r.
      * destruct (IH rest (pre ++ [b]) cnt m1) as [Ho [Ht [Hs Hh]]].
        { cbn in Hn. lia. }
        { cbn. now rewrite <- app_assoc. }
        { exact Hnd1. }
        { cbn in Hcnt. lia. }
        rewrite length_app, Nat.add_comm in Ho, Ht, Hs, Hh.
        cbn [List.length Nat.add] in Ho, Ht, Hs, Hh.
        rewrite Ho, Ht, Hs, Hh. unfold m1.
        cbn [odds evens map tweens sceneChildren store].
        rewrite <- !app_assoc. now repeat split.
Qed.

Lemma evens_In {A} (l : list A) (a : A) : In a (evens l) -> In a l.
Proof.
  assert (H : forall n (l : list A), (List.length l <= n)%nat ->
                In a (evens l) -> In a l).
  { clear l. induction n as [|n IH]; intros l Hn Hin.
    - destruct l; [assumption | cbn in Hn; lia].
    - destruct l as [|x [|y l]]; trivial.
      cbn [evens] in Hin. destruct Hin as [-> | Hin]; [now left|].
      right. right. apply IH; [cbn in Hn; lia | assumption]. }
  exact (H (List.length l) l (Nat.le_refl _)).
Qed.

Lemma odds_In {A} (l : list A) (a : A) : In a (odds l) -> In a l.
Proof.
  assert (H : forall n (l : list A), (List.length l <= n)%nat ->
                In a (odds l) -> In a l).
  { clear l. induction n as [|n IH]; intros l Hn Hin.
    - destruct l; [assumption | cbn in Hn; lia].
    - destruct l as [|x [|y l]]; try contradiction.
      cbn [odds] in Hin. destruct Hin as [-> | Hin]; [right; now left|].
      right. right. apply IH; [cbn in Hn; lia | assumption]. }
  exact (H (List.length l) l (Nat.le_refl _)).
Qed.

Lemma evens_odds_disjoint (l : list Ref) (r : Ref) :
  NoDup l -> In r (evens l) -> ~ In r (odds l).
Proof.
  assert (H : forall n (l : list Ref), (List.length l <= n)%nat ->
                NoDup l -> In r (evens l) -> ~ In r (odds l)).
  { clear l. induction n as [|n IH]; intros l Hn Hnd He Ho.
    - destruct l; [contradiction | cbn in Hn; lia].
    - destruct l as [|x [|y l]]; try contradiction.
      inversion Hnd as [|? ? Hx Hnd1]; subst.
      inversion Hnd1 as [|? ? Hy Hnd2]; subst.
      cbn [evens] in He. cbn [odds] in Ho.
      destruct He as [-> | He], Ho as [-> | Ho].
      + apply Hx. now left.
      + apply Hx. right. now apply odds_In.
      + apply Hy. now apply evens_In.
      + apply (IH l); trivial. cbn in Hn. lia. }
  exact (H (List.length l) l (Nat.le_refl _)).
Qed.

Lemma complete_fades (rs : list Ref) (m : t) :
  let m' := fold_left (fun m tw => complete tw m) (map FadeOut rs) m in
  objects m' = objects m
  /\ store m' = store m
  /\ tweens m' = tweens m
  /\ forall r, In r (sceneChildren m')
               <-> In r (sceneChildren m) /\ ~ In r rs.
Proof.
  revert m. induction rs as [|a rs IH]; intros m.
  - cbn. repeat split; tauto.
  - cbn [map fold_left].
    destruct (IH (complete (FadeOut a) m)) as [Ho [Hh [Ht Hs]]].
    cbv zeta. rewrite Ho, Hh, Ht. cbn [complete objects store tweens].
    repeat split; try (apply Hs; assumption).
    + apply Hs in H. cbn [complete sceneChildren] in H.
      unfold sceneRemove in H. rewrite filter_In in H. tauto.
    + apply Hs in H. cbn [complete sceneChildren] in H.
      unfold sceneRemove in H. rewrite filter_In, negb_true_iff in H.
      destruct H as [[_ Hne] Hnot]. apply Nat.eqb_neq in Hne.
      intros [-> | Hin]; [now apply Hne | contradiction].
    + intros [Hin Hnot]. apply Hs. split.
      * cbn [complete sceneChildren]. unfold sceneRemove.
        rewrite filter_In, negb_true_iff. split; [assumption|].
        apply Nat.eqb_neq. intros ->. apply Hnot. now left.
      * intros Hrs. apply Hnot. now right.
Qed.

(** X16. [clearAll] fades out and takes out of the scene only every other
    object: its callbacks index the array while earlier callbacks have
    already spliced it, so the objects at the even positions go and the
    objects at the odd positions are skipped.  At the end the array is
    emptied all the same, and the meshes of the skipped objects stay in the
    scene. *)
Theorem clearAll_skips_every_other (m : t) :
  NoDup (objects m) ->
  objects (clearAll m) = []
  /\ tweens (clearAll m) = tweens m ++ map FadeOut (evens (objects m))
  /\ (forall r, In r (evens (objects m)) ->
                ~ In r (sceneChildren (clearAll m)))
  /\ (forall r, In r (odds (objects m)) -> In r (sceneChildren m) ->
                In r (sceneChildren (clearAll m))).
Proof.
  intros Hnd. unfold clearAll.
  destruct (clearAllCallbacks_alternate (List.length (objects m))
              (objects m) [] (List.length (objects m)) m
              (Nat.le_refl _) eq_refl Hnd (Nat.le_refl _))
    as [Ho [Ht [Hs Hh]]].
  cbn [List.length app] in Ho, Ht, Hs, Hh.
  set (m1 := fold_left clearAllCallback (seq 0 (List.length (objects m))) m)
    in *.
  cbv zeta. rewrite Ht.
  rewrite skipn_app, skipn_all, Nat.sub_diag. cbn [app skipn].
  destruct (complete_fades (evens (objects m)) m1) as [_ [_ [Ht2 Hs2]]].
  cbn [objects tweens sceneChildren].
  split; [reflexivity|]. split; [now rewrite Ht2|]. split.
  - intros r He Hin. apply Hs2 in Hin. tauto.
  - intros r Hodd Hin. apply Hs2. rewrite Hs. split; [assumption|].
    intros He. exact (evens_odds_disjoint _ _ Hnd He Hodd).
Qed.

Lemma clearAll_skips_every_other_witness :
  objects (clearAll threeObjects) = []
  /\ In 1%nat (sceneChildren (clearAll threeObjects))
  /\ ~ In 0%nat (sceneChildren (clearAll threeObjects)).
Proof.
  assert (Hnd : NoDup (objects threeObjects)).
  { cbn. repeat constructor; cbn; intuition lia. }
  destruct (clearAll_skips_every_other threeObjects Hnd)
    as [Hempty [_ [Hgone Hstay]]].
  split; [exact Hempty|]. split.
  - apply Hstay; cbn; tauto.
  - apply Hgone. cbn. tauto.
Defined.

(** *** Placement *)

Lemma clamp_bounds (lo hi v : R) : lo <= hi -> lo <= clamp lo hi v <= hi.
Proof.
  intros Hle. unfold clamp.
  destruct (BalloonInflatorFacts.min_spec hi v) as [Hm1 [Hm2 Hm3]].
  destruct (BalloonInflatorFacts.max_spec lo (Num.min hi v)) as [Hx1 [Hx2 Hx3]].
  split; [lra|]. destruct Hx3 as [-> | ->]; lra.
Qed.

Lemma length3_zero (p : Point3D) : length3 (sub p p) = 0.
Proof.
  unfold length3, sub. cbn [x3 y3 z3].
  apply NumFacts.sqrt_eq; [lra | ring].
Qed.

(** An obstacle with the same id, at the very same position, or at the
    collision radius or further, leaves the position as it is. *)
Lemma balance_unmoved (r other : Ref) (h : Store) (newPos : Point3D) :
  String.eqb (id (h other)) (id (h r)) = true
  \/ position (h other) = newPos
  \/ SCENE.COLLISION_RADIUS <= length3 (sub newPos (position (h other))) ->
  balance r h newPos other = newPos.
Proof.
  intros Hcase. unfold balance.
  destruct (String.eqb _ _); [reflexivity|].
  destruct Hcase as [Habs | [Hsame | Hfar]]; [discriminate | |].
  - rewrite Hsame, length3_zero.
    replace (Num.ltb 0 SCENE.COLLISION_RADIUS) with true
      by (symmetry; apply NumFacts.ltb_lt; unfold SCENE.COLLISION_RADIUS; lra).
    unfold normalize. rewrite length3_zero.
    replace (Num.eqb_num 0 0) with true
      by (symmetry; now apply NumFacts.eqb_num_eq).
    destruct newPos as [px py pz].
    unfold add, multiplyScalar, sub. cbn [x3 y3 z3]. f_equal; ring.
  - now rewrite (proj2 (NumFacts.ltb_ge _ _) Hfar).
Qed.

(** X17. [findBalancedPosition] sets the target position of its object and
    nothing else, and the target lies within the region [-4, 4] x [-3, 3]
    x [-2, 2].  When every other object is at the very position of the
    object, or at the collision radius or further from it, the target is
    the position of the object clamped to the region: an object placed
    exactly on another one is not moved apart. *)
Theorem findBalancedPosition_target (objs : list Ref) (r : Ref) (h : Store) :
  inBounds (targetPosition (findBalancedPosition objs r h r))
  /\ sameButTarget (h r) (findBalancedPosition objs r h r)
  /\ (forall r', r' <> r -> findBalancedPosition objs r h r' = h r')
  /\ ((forall other, In other objs ->
         String.eqb (id (h other)) (id (h r)) = true
         \/ position (h other) = position (h r)
         \/ SCENE.COLLISION_RADIUS
            <= length3 (sub (position (h r)) (position (h other)))) ->
      targetPosition (findBalancedPosition objs r h r)
      = mkPoint3D (clamp (-4) 4 (x3 (position (h r))))
                  (clamp (-3) 3 (y3 (position (h r))))
                  (clamp (-2) 2 (z3 (position (h r))))).
Proof.
  unfold findBalancedPosition. rewrite write_same.
  cbn [set_targetPosition targetPosition].
  split; [|split; [|split]].
  - unfold inBounds, balancedPosition. cbn [x3 y3 z3].
    repeat split; apply clamp_bounds; lra.
  - now repeat split.
  - intros r' Hne. now apply write_other.
  - intros Hquiet. unfold balancedPosition.
    assert (Hfold : fold_left (balance r h) objs (position (h r))
                    = position (h r)).
    { induction objs as [|other objs IH]; [reflexivity|].
      cbn [fold_left]. rewrite balance_unmoved.
      - apply IH. intros o Ho. apply Hquiet. now right.
      - apply Hquiet. now left. }
    now rewrite Hfold.
Qed.

(** *** Grabbing *)

Lemma findBalancedPosition_keeps (objs : list Ref) (r r' : Ref) (h : Store) :
  sameButTarget (h r') (findBalancedPosition objs r h r').
Proof.
  unfold findBalancedPosition, write.
  destruct (Nat.eqb r' r) eqn:Heq.
  - apply Nat.eqb_eq in Heq. subst r'. now repeat split.
  - now repeat split.
Qed.

Lemma release_loop (objs l : list Ref) (r : Ref) (h : Store) :
  let h' :=
    fold_left
      (fun h other =>
         if String.eqb (id (h other)) (id (h r)) then h
         else findBalancedPosition objs other h)
      l h in
  h' r = h r /\ forall r', sameButTarget (h r') (h' r').
Proof.
  revert h. induction l as [|other l IH]; intros h.
  - cbn. split; [reflexivity|]. intros r'. now repeat split.
  - cbn [fold_left].
    set (h1 := if String.eqb (id (h other)) (id (h r)) then h
               else findBalancedPosition objs other h).
    assert (H1 : h1 r = h r /\ forall r', sameButTarget (h r') (h1 r')).
    { subst h1. destruct (String.eqb (id (h other)) (id (h r))) eqn:Hid.
      - split; [reflexivity|]. intros r'. now repeat split.
      - split.
        + unfold findBalancedPosition. apply write_other.
          intros ->. rewrite String.eqb_refl in Hid. discriminate.
        + intros r'. apply findBalancedPosition_keeps. }
    destruct H1 as [H1r H1all].
    destruct (IH h1) as [IHr IHall]. cbv zeta. subst h1.
    split; [exact (eq_trans IHr H1r)|].
    intros r'. destruct (H1all r') as [Ha [Hb [Hc Hd]]].
    destruct (IHall r') as [Ha' [Hb' [Hc' Hd']]].
    split; [exact (eq_trans Ha' Ha)|].
    split; [exact (eq_trans Hb' Hb)|].
    split; [exact (eq_trans Hc' Hc) | exact (eq_trans Hd' Hd)].
Qed.

(** X18. Grabbing, moving and releasing.  [moveGrabbedObject] does nothing
    to an object that is not grabbed.  A grabbed object that is moved is at
    the given place, and the updates leave it there while it is grabbed.
    [releaseObject] clears the flag and makes the place of the mesh the
    target position of the object; of the other objects it changes only
    the target positions. *)
Theorem grab_move_release (objs l : list Ref) (r : Ref) (worldPos : Point3D)
  (h : Store) (deltaTime elapsedTime : R) :
  let h1 := moveGrabbedObject r worldPos (grabObject r h) in
  let h2 := releaseObject objs r h1 in
  (isGrabbed (h r) = false -> moveGrabbedObject r worldPos h = h)
  /\ isGrabbed (h1 r) = true
  /\ mesh_position (mesh (h1 r)) = worldPos
  /\ position (h1 r) = worldPos
  /\ fold_left (updateObject objs deltaTime elapsedTime) l h1 r = h1 r
  /\ isGrabbed (h2 r) = false
  /\ mesh_position (mesh (h2 r)) = worldPos
  /\ targetPosition (h2 r) = worldPos
  /\ (forall r', r' <> r -> sameButTarget (h1 r') (h2 r')).
Proof.
  intros h1 h2.
  assert (Hg : isGrabbed (grabObject r h r) = true).
  { unfold grabObject. now rewrite write_same. }
  assert (H1 : h1 r = set_position
                        (set_mesh_position (grabObject r h r) worldPos)
                        worldPos).
  { subst h1. unfold moveGrabbedObject. rewrite Hg. apply write_same. }
  assert (H1g : isGrabbed (h1 r) = true) by (rewrite H1; exact Hg).
  split; [|split; [|split; [|split; [|split]]]].
  - intros Hfree. unfold moveGrabbedObject. now rewrite Hfree.
  - exact H1g.
  - now rewrite H1.
  - now rewrite H1.
  - now apply update_loop_grabbed.
  - subst h2. unfold releaseObject. cbv zeta.
    match goal with
    | |- context [fold_left ?f objs ?h0] =>
        destruct (release_loop objs objs r h0) as [Hr Hall]
    end.
    cbv zeta in Hr, Hall. rewrite !Hr, !write_same. cbn. rewrite H1. cbn.
    do 3 (split; [reflexivity|]).
    intros r' Hne. specialize (Hall r').
    rewrite write_other in Hall by assumption.
    rewrite H1 in Hall. exact Hall.
Qed.

Lemma releaseObject_flag (objs : list Ref) (r : Ref) (h : Store) :
  isGrabbed (releaseObject objs r h r) = false.
Proof.
  unfold releaseObject. cbv zeta.
  match goal with
  | |- context [fold_left ?f objs ?h0] =>
      destruct (release_loop objs objs r h0) as [Hr _]
  end.
  cbv zeta in Hr. now rewrite Hr, write_same.
Qed.

(** *** Identifiers *)

Lemma append_inj (p s1 s2 : string) :
  (p ++ s1)%string = (p ++ s2)%string -> s1 = s2.
Proof.
  induction p as [|c p IH]; cbn; intros H; [exact H|].
  inversion H. now apply IH.
Qed.

Lemma balloonId_inj (n k : nat) : balloonId n = balloonId k -> n = k.
Proof.
  unfold balloonId. intros H. apply append_inj in H.
  apply DecimalNat.Unsigned.to_uint_inj.
  pose proof (NilEmpty.usu (Nat.to_uint n)) as Hn.
  pose proof (NilEmpty.usu (Nat.to_uint k)) as Hk.
  rewrite H in Hn. congruence.
Qed.

Lemma splice1_incl (l : list Ref) (index : nat) (r : Ref) :
  In r (splice1 l index) -> In r l.
Proof.
  revert index. induction l as [|r0 l IH]; intros [|i]; cbn; try tauto.
  intros [H | H]; [now left | right; now apply (IH i)].
Qed.

Lemma splice1_NoDup (l : list Ref) (index : nat) :
  NoDup l -> NoDup (splice1 l index).
Proof.
  revert index. induction l as [|r0 l IH]; intros [|i] Hnd; cbn;
    try assumption.
  - now inversion Hnd.
  - inversion Hnd; subst. constructor; [|now apply IH].
    intros Hin. now apply splice1_incl in Hin.
Qed.

Lemma avoid_id (r other r' : Ref) (deltaTime : R) (h : Store) :
  id (avoid r deltaTime h other r') = id (h r').
Proof.
  unfold avoid. destruct (String.eqb _ _); [reflexivity|].
  destruct (_ && _)%bool; [|reflexivity].
  unfold write. destruct (Nat.eqb r' r) eqn:Heq; [|reflexivity].
  apply Nat.eqb_eq in Heq. now subst.
Qed.

Lemma softCollisionAvoidance_id (objs : list Ref) (r r' : Ref)
  (deltaTime : R) (h : Store) :
  id (softCollisionAvoidance objs r deltaTime h r') = id (h r').
Proof.
  unfold softCollisionAvoidance. revert h.
  induction objs as [|other objs IH]; intros h; [reflexivity|].
  cbn [fold_left]. rewrite IH. apply avoid_id.
Qed.

Lemma write_id (r r' : Ref) (o : BalloonObject) (h : Store) :
  id o = id (h r) -> id (write r o h r') = id (h r').
Proof.
  intros Ho. unfold write. destruct (Nat.eqb r' r) eqn:Heq; [|reflexivity].
  apply Nat.eqb_eq in Heq. now subst.
Qed.

Lemma updateObject_id (objs : list Ref) (deltaTime elapsedTime : R)
  (h : Store) (r r' : Ref) :
  id (updateObject objs deltaTime elapsedTime h r r') = id (h r').
Proof.
  unfold updateObject. destruct (isGrabbed (h r)); [reflexivity|].
  cbv zeta.
  match goal with
  | |- context [softCollisionAvoidance objs r deltaTime ?h0] =>
      set (h1 := softCollisionAvoidance objs r deltaTime h0);
      assert (H1 : forall r'', id (h1 r'') = id (h r''))
        by (intros r''; subst h1; rewrite softCollisionAvoidance_id;
            now apply write_id)
  end.
  destruct (Num.gtb _ 0); [|apply H1].
  rewrite write_id; [apply H1 | reflexivity].
Qed.

Lemma update_loop_id (objs l : list Ref) (deltaTime elapsedTime : R)
  (h : Store) (r' : Ref) :
  id (fold_left (updateObject objs deltaTime elapsedTime) l h r') = id (h r').
Proof.
  revert h. induction l as [|r l IH]; intros h; [reflexivity|].
  cbn [fold_left]. rewrite IH. apply updateObject_id.
Qed.

Lemma releaseObject_id (objs : list Ref) (r r' : Ref) (h : Store) :
  id (releaseObject objs r h r') = id (h r').
Proof.
  unfold releaseObject. cbv zeta.
  match goal with
  | |- context [fold_left ?f objs ?h0] =>
      destruct (release_loop objs objs r h0) as [_ Hall]
  end.
  cbv zeta in Hall. destruct (Hall r') as [Hid _]. rewrite Hid.
  now apply write_id.
Qed.

(** A change of the store that keeps the ids keeps the invariant. *)
Lemma idsInvariant_store (h : Store) (m : t) :
  (forall r, id (h r) = id (store m r)) ->
  idsInvariant m -> idsInvariant (withStore h m).
Proof.
  intros Hid [Hnd [Hk Hinj]]. unfold idsInvariant, withStore.
  cbn [objects store idCounter].
  split; [exact Hnd|]. split.
  - intros r Hr. rewrite Hid. now apply Hk.
  - intros r1 r2 H1 H2. rewrite !Hid. now apply Hinj.
Qed.

Lemma idsInvariant_objects (objs : list Ref) (m : t) :
  NoDup objs -> (forall r, In r objs -> In r (objects m)) ->
  idsInvariant m ->
  idsInvariant (mk objs (store m) (sceneChildren m) (tweens m) (idCounter m)).
Proof.
  intros Hnd' Hincl [Hnd [Hk Hinj]]. unfold idsInvariant.
  cbn [objects store idCounter].
  split; [exact Hnd'|]. split.
  - intros r Hr. apply Hk. now apply Hincl.
  - intros r1 r2 H1 H2. apply Hinj; now apply Hincl.
Qed.

Lemma reachableManager_ids (h0 : Store) (m : t) :
  reachableManager h0 m -> idsInvariant m.
Proof.
  induction 1 as [|r newMesh random now stroke m _ IH Hfresh
                  |r m _ IH|dt et m _ IH|r fade m _ IH|tw m _ IH|m _ IH
                  |r m _ IH|r p m _ IH|r dx dy m _ IH|r m _ IH].
  - split; [constructor|]. split; intros; contradiction.
  - destruct IH as [Hnd [Hk Hinj]]. unfold idsInvariant, createFromStroke.
    cbn [objects store idCounter].
    split; [|split].
    + apply NoDup_app; [exact Hnd | repeat constructor; intros [] |].
      intros r' Hin [Heq | []]. subst. contradiction.
    + intros r' Hin. apply in_app_or in Hin.
      destruct Hin as [Hin | [Heq | []]].
      * rewrite write_other by (intros ->; contradiction).
        destruct (Hk r' Hin) as [k [Hlt Hid]]. exists k. split; [lia | exact Hid].
      * subst r'. rewrite write_same. exists (idCounter m).
        split; [lia | reflexivity].
    + assert (Hnew : forall r', In r' (objects m) ->
                id (store m r') <> balloonId (idCounter m)).
      { intros r' Hin Heq. destruct (Hk r' Hin) as [k [Hlt Hid]].
        rewrite Hid in Heq. apply balloonId_inj in Heq. lia. }
      intros r1 r2 H1 H2. apply in_app_or in H1. apply in_app_or in H2.
      destruct H1 as [H1 | [H1 | []]]; destruct H2 as [H2 | [H2 | []]].
      * rewrite !write_other by (intros ->; contradiction). now apply Hinj.
      * subst r2. rewrite write_same.
        rewrite write_other by (intros ->; contradiction).
        cbn [id]. intros Heq. now apply Hnew in Heq.
      * subst r1. rewrite write_same.
        rewrite write_other by (intros ->; contradiction).
        cbn [id]. intros Heq. symmetry in Heq. now apply Hnew in Heq.
      * congruence.
  - apply (idsInvariant_store _ m); [|exact IH].
    intros r'. now destruct (findBalancedPosition_keeps (objects m) r r' (store m)).
  - apply (idsInvariant_store _ m); [|exact IH].
    intros r'. apply update_loop_id.
  - unfold removeObject. destruct (indexOf (objects m) r) as [index|];
      [|exact IH].
    destruct IH as [Hnd [Hk Hinj]]. unfold idsInvariant.
    cbn [objects store idCounter].
    split; [now apply splice1_NoDup|]. split.
    + intros r' Hr'. apply Hk. now apply splice1_incl in Hr'.
    + intros r1 r2 H1 H2. apply Hinj; now apply (splice1_incl _ index).
  - destruct tw; exact IH.
  - unfold idsInvariant, clearAll. cbv zeta. cbn [objects].
    split; [constructor|]. split; intros; contradiction.
  - apply (idsInvariant_store _ m); [|exact IH].
    intros r'. unfold grabObject. now apply write_id.
  - apply (idsInvariant_store _ m); [|exact IH].
    intros r'. unfold moveGrabbedObject.
    destruct (isGrabbed (store m r)); [now apply write_id | reflexivity].
  - apply (idsInvariant_store _ m); [|exact IH].
    intros r'. unfold rotateObject. now apply write_id.
  - apply (idsInvariant_store _ m); [|exact IH].
    intros r'. apply releaseObject_id.
Qed.

(** X26. Ids and identity.  In every manager that the methods produce from
    an empty one, the array holds no object twice and no two of its
    objects have the same id, so that the id test of the collision pass
    and of [releaseObject] skips an object of the array exactly when it is
    the object itself; and the array never holds more objects than the
    counter has given out ids. *)
Theorem ids_identify_objects (h0 : Store) (m : t) :
  reachableManager h0 m ->
  NoDup (objects m)
  /\ (forall r other, In r (objects m) -> In other (objects m) ->
        String.eqb (id (store m other)) (id (store m r)) = Nat.eqb other r)
  /\ (List.length (objects m) <= idCounter m)%nat.
Proof.
  intros Hreach. destruct (reachableManager_ids h0 m Hreach) as [Hnd [Hk Hinj]].
  split; [exact Hnd|]. split.
  - intros r other Hr Ho.
    destruct (Nat.eqb other r) eqn:Heq.
    + apply Nat.eqb_eq in Heq. subst. apply String.eqb_refl.
    + apply String.eqb_neq. intros Hid. apply Nat.eqb_neq in Heq.
      apply Heq. now apply Hinj.
  - clear Hk Hinj Hnd.
    induction Hreach; cbn [objects idCounter empty List.length];
      try exact IHHreach.
    + lia.
    + unfold createFromStroke. cbn [objects idCounter].
      rewrite length_app. cbn [List.length]. lia.
    + unfold removeObject. destruct (indexOf (objects m) r) as [index|] eqn:Hi;
        [|exact IHHreach].
      cbn [objects idCounter].
      rewrite (proj1 (splice1_indexOf _ _ _ Hi)). lia.
    + destruct tw; exact IHHreach.
    + unfold clearAll. cbv zeta. cbn [objects List.length]. lia.
Qed.

Lemma crowd_reachable (h : Store) (n : nat) :
  reachableManager h (crowd h n)
  /\ objects (crowd h n) = seq 0 n.
Proof.
  induction n as [|n [IH1 IH2]]; [split; [constructor | reflexivity]|].
  cbn [crowd]. split.
  - apply reachableManager_create; [exact IH1|].
    rewrite IH2, in_seq. lia.
  - unfold createFromStroke. cbn [objects]. rewrite IH2.
    now rewrite seq_S.
Qed.

Lemma ids_identify_objects_witness :
  reachableManager (fun _ => restingObject "balloon" false)
                   (crowd (fun _ => restingObject "balloon" false) 2)
  /\ NoDup (objects (crowd (fun _ => restingObject "balloon" false) 2))
  /\ id (store (crowd (fun _ => restingObject "balloon" false) 2) 1%nat)
     = "balloon_1"%string.
Proof.
  pose proof (crowd_reachable (fun _ => restingObject "balloon" false) 2)
    as [Hreach _].
  split; [exact Hreach|].
  split; [exact (proj1 (ids_identify_objects _ _ Hreach)) | reflexivity].
Defined.

(** X27. Nothing caps the number of objects.  [createFromStroke] always
    appends the new object and removes none, so that the array can reach
    any length, beyond [SCENE.MAX_OBJECTS] too. *)
Theorem object_count_unbounded (h0 : Store) :
  (forall r newMesh random now stroke m,
     objects (createFromStroke r newMesh random now stroke m)
     = objects m ++ [r])
  /\ (forall n, exists m,
        reachableManager h0 m /\ List.length (objects m) = n)
  /\ (exists m,
        reachableManager h0 m
        /\ (SCENE.MAX_OBJECTS < List.length (objects m))%nat).
Proof.
  split; [reflexivity|]. split.
  - intros n. exists (crowd h0 n).
    destruct (crowd_reachable h0 n) as [Hreach Hobjs].
    split; [exact Hreach|]. now rewrite Hobjs, length_seq.
  - exists (crowd h0 11).
    destruct (crowd_reachable h0 11) as [Hreach Hobjs].
    split; [exact Hreach|]. rewrite Hobjs, length_seq.
    unfold SCENE.MAX_OBJECTS. lia.
Qed.

End ObjectManagerFacts.

(** ** The orbit camera *)

Module Scene3DFacts.
Import Scene3D Scene3DSpec.

Lemma PI_gt_3 : 3 < PI.
Proof. pose proof PI2_3_2. lra. Qed.

Lemma updateCameraPosition_invariant (s : t) :
  3 <= cameraDistance s <= 30 ->
  0.1 <= cameraPhi s <= PI - 0.1 ->
  cameraTarget s = mkPoint3D 0 0 0 ->
  cameraInvariant (updateCameraPosition s).
Proof.
  intros Hd Hp Ht. unfold cameraInvariant.
  split; [exact Hd|]. split; [exact Hp|]. split; [exact Ht|]. reflexivity.
Qed.

Lemma reachableCamera_invariant (s : t) :
  reachableCamera s -> cameraInvariant s.
Proof.
  pose proof PI_gt_3 as Hpi.
  induction 1 as [|dt dp s _ [Hd [Hp [Ht _]]]|delta s _ [Hd [Hp [Ht _]]]
                  |s _ _].
  - apply updateCameraPosition_invariant; cbn; unfold SCENE.CAMERA_Z;
      try reflexivity; lra.
  - apply updateCameraPosition_invariant; cbn [cameraDistance cameraPhi cameraTarget];
      try assumption.
    apply (ObjectManagerFacts.clamp_bounds 0.1 (PI - 0.1)). lra.
  - apply updateCameraPosition_invariant; cbn [cameraDistance cameraPhi cameraTarget];
      try assumption.
    apply (ObjectManagerFacts.clamp_bounds 3 30). lra.
  - apply updateCameraPosition_invariant; cbn; unfold SCENE.CAMERA_Z;
      try reflexivity; lra.
Qed.

Lemma sin2_cos2_ring (a : R) : sin a * sin a + cos a * cos a = 1.
Proof. pose proof (sin2_cos2 a) as H. unfold Rsqr in H. exact H. Qed.

(** X19. The orbit camera.  Whatever sequence of orbits, zooms and resets
    is applied, the camera looks at the origin from a distance between 3
    and 30, its polar angle stays between 0.1 and PI - 0.1, it is at the
    distance [cameraDistance] from its target, and it is never on the
    vertical axis through the target. *)
Theorem camera_stays_in_range (s : t) :
  reachableCamera s ->
  3 <= cameraDistance s <= 30
  /\ 0.1 <= cameraPhi s <= PI - 0.1
  /\ cameraTarget s = mkPoint3D 0 0 0
  /\ ObjectManager.length3
       (ObjectManager.sub (camera_position s) (cameraTarget s))
     = cameraDistance s
  /\ 0 < x3 (camera_position s) * x3 (camera_position s)
         + z3 (camera_position s) * z3 (camera_position s).
Proof.
  intros Hreach.
  destruct (reachableCamera_invariant s Hreach) as [Hd [Hp [Ht Hpos]]].
  split; [exact Hd|]. split; [exact Hp|]. split; [exact Ht|].
  rewrite Hpos. unfold updateCameraPosition. cbn [camera_position].
  rewrite Ht. cbn [x3 y3 z3].
  set (d := cameraDistance s) in *. set (p := cameraPhi s) in *.
  set (th := cameraTheta s).
  pose proof (sin2_cos2_ring p) as Hsp.
  pose proof (sin2_cos2_ring th) as Hst.
  assert (Hsin : 0 < sin p) by (apply sin_gt_0; pose proof PI_gt_3; lra).
  split.
  - unfold ObjectManager.length3, ObjectManager.sub. cbn [x3 y3 z3].
    apply NumFacts.sqrt_eq; [lra|].
    replace ((0 + d * sin p * sin th - 0) * (0 + d * sin p * sin th - 0)
             + (0 + d * cos p - 0) * (0 + d * cos p - 0)
             + (0 + d * sin p * cos th - 0) * (0 + d * sin p * cos th - 0))
      with (d * d * (sin p * sin p * (sin th * sin th + cos th * cos th)
                     + cos p * cos p)) by ring.
    rewrite Hst, Rmult_1_r, Hsp. ring.
  - replace ((0 + d * sin p * sin th) * (0 + d * sin p * sin th)
             + (0 + d * sin p * cos th) * (0 + d * sin p * cos th))
      with ((d * sin p) * (d * sin p)
            * (sin th * sin th + cos th * cos th)) by ring.
    rewrite Hst, Rmult_1_r.
    assert (0 < d * sin p) by (apply Rmult_lt_0_compat; lra).
    now apply Rmult_lt_0_compat.
Qed.

Lemma camera_stays_in_range_witness :
  reachableCamera draggedCamera
  /\ 3 <= cameraDistance draggedCamera <= 30
  /\ 0.1 <= cameraPhi draggedCamera <= PI - 0.1
  /\ cameraTarget draggedCamera = mkPoint3D 0 0 0
  /\ ObjectManager.length3
       (ObjectManager.sub (camera_position draggedCamera)
          (cameraTarget draggedCamera))
     = cameraDistance draggedCamera
  /\ 0 < x3 (camera_position draggedCamera)
         * x3 (camera_position draggedCamera)
         + z3 (camera_position draggedCamera)
           * z3 (camera_position draggedCamera).
Proof.
  assert (H : reachableCamera draggedCamera).
  { unfold draggedCamera.
    apply reachableCamera_zoom, reachableCamera_orbit, reachableCamera_init. }
  split; [exact H|]. exact (camera_stays_in_range draggedCamera H).
Defined.

End Scene3DFacts.

(** ** Hand tracking *)

Module HandTrackerFacts.
Import HandTracker HandTrackerSpec.

(** X20. [onResults] on a result with a hand, for a tracker with a callback
    and a canvas of positive size.  The callback gets the first hand, with
    as many landmarks; the landmark [(u, v)] becomes
    [((1 - u) * canvasWidth, v * canvasHeight)], which lies on the canvas
    when [u] and [v] are between 0 and 1; the horizontal order of two
    landmarks is reversed and the vertical order is kept, so that
    [isFingerExtended] of the detector answers as it would on the
    coordinates of the tracker. *)
Theorem onResults_mirrors (results : Results) (h : t)
  (hand : list Point3D) (others : list (list Point3D)) :
  hasCallback h = true ->
  multiHandLandmarks results = Some (hand :: others) ->
  0 < canvasWidth h -> 0 < canvasHeight h ->
  exists l,
    onResults results h = Some (Some l)
    /\ List.length (landmarks l) = List.length hand
    /\ (forall i p, nth_error hand i = Some p ->
          exists q,
            nth_error (landmarks l) i = Some q
            /\ x q = (1 - x3 p) * canvasWidth h
            /\ y q = y3 p * canvasHeight h
            /\ (0 <= x3 p <= 1 -> 0 <= x q <= canvasWidth h)
            /\ (0 <= y3 p <= 1 -> 0 <= y q <= canvasHeight h))
    /\ (forall i j p p' q q',
          nth_error hand i = Some p -> nth_error hand j = Some p' ->
          nth_error (landmarks l) i = Some q ->
          nth_error (landmarks l) j = Some q' ->
          (x3 p < x3 p' <-> x q' < x q) /\ (y3 p < y3 p' <-> y q < y q'))
    /\ (forall i j p p',
          nth_error hand i = Some p -> nth_error hand j = Some p' ->
          GestureDetector.isFingerExtended l i j
          = Some (Num.ltb (y3 p) (y3 p'))).
Proof.
  intros Hcb Hhands HW HH. unfold onResults. rewrite Hcb, Hhands.
  cbn [negb]. eexists. split; [reflexivity|].
  cbn [landmarks].
  set (conv := fun lm : Point3D =>
                 mkPoint2D ((1 - x3 lm) * canvasWidth h)
                           (y3 lm * canvasHeight h)).
  assert (Hnth : forall i p, nth_error hand i = Some p ->
                 nth_error (map conv hand) i = Some (conv p)).
  { intros i p Hp. rewrite nth_error_map, Hp. reflexivity. }
  split; [apply length_map|]. split; [|split].
  - intros i p Hp. exists (conv p). split; [now apply Hnth|].
    cbn [conv x y]. split; [reflexivity|]. split; [reflexivity|]. split.
    + intros [H0 H1]. split; [apply Rmult_le_pos; lra|].
      assert ((1 - x3 p) * canvasWidth h <= 1 * canvasWidth h)
        by (apply Rmult_le_compat_r; lra).
      lra.
    + intros [H0 H1]. split; [apply Rmult_le_pos; lra|].
      assert (y3 p * canvasHeight h <= 1 * canvasHeight h)
        by (apply Rmult_le_compat_r; lra).
      lra.
  - intros i j p p' q q' Hp Hp' Hq Hq'.
    rewrite (Hnth i p Hp) in Hq. rewrite (Hnth j p' Hp') in Hq'.
    inversion Hq; inversion Hq'; subst q q'. cbn [conv x y].
    split; split; intros Hlt.
    + apply Rmult_lt_compat_r; lra.
    + apply Rmult_lt_reg_r in Hlt; lra.
    + apply Rmult_lt_compat_r; lra.
    + apply Rmult_lt_reg_r in Hlt; lra.
  - intros i j p p' Hp Hp'.
    unfold GestureDetector.isFingerExtended, GestureDetector.lm.
    cbn [landmarks]. rewrite (Hnth i p Hp), (Hnth j p' Hp').
    cbn [GestureDetector.bind conv y]. f_equal.
    unfold Num.ltb.
    destruct (Rlt_dec (y3 p * canvasHeight h) (y3 p' * canvasHeight h))
      as [Hlt | Hge];
      destruct (Rlt_dec (y3 p) (y3 p')) as [Hlt' | Hge']; try reflexivity.
    + apply Rmult_lt_reg_r in Hlt; [contradiction | lra].
    + exfalso. apply Hge. apply Rmult_lt_compat_r; lra.
Qed.

Lemma onResults_mirrors_witness :
  exists l,
    onResults twoHands tracker = Some (Some l)
    /\ List.length (landmarks l) = 3%nat
    /\ nth_error (landmarks l) 0 = Some (mkPoint2D ((1 - 0.25) * 640) (0.5 * 480)).
Proof.
  destruct (onResults_mirrors twoHands tracker
              [mkPoint3D 0.25 0.5 0; mkPoint3D 0.75 0.25 0; mkPoint3D 1 1 0]
              [[mkPoint3D 0 0 0; mkPoint3D 0 0 0; mkPoint3D 0 0 0]])
    as [l [Hres [Hlen [Hpts _]]]].
  - reflexivity.
  - reflexivity.
  - cbn. lra.
  - cbn. lra.
  - exists l. split; [exact Hres|]. split; [exact Hlen|].
    destruct (Hpts 0%nat (mkPoint3D 0.25 0.5 0) eq_refl)
      as [q [Hq [Hx [Hy _]]]].
    rewrite Hq. destruct q as [qx qy]. cbn in Hx, Hy. now subst.
Defined.

End HandTrackerFacts.

(** ** The gesture handlers *)

Module AirCanvasFacts.
Import AirCanvas AirCanvasSpec.
Import GestureDetectorSpec.

(** *** Frames *)

Lemma gestureOf_velocity (l : HandLandmarks) (v : Point2D) :
  GestureDetector.detectGestureType l v = gestureOf l.
Proof. reflexivity. Qed.

Lemma renderPreviewOverlay_defined (l : HandLandmarks) :
  wellFormed l -> renderPreviewOverlay l = Some tt.
Proof.
  destruct l as [lms wl]. unfold wellFormed. cbn [landmarks]. intros Hlen.
  do 21 (destruct lms as [|? lms]; [discriminate|]).
  destruct lms; [|discriminate]. reflexivity.
Qed.

Lemma getIndexTip_defined (l : HandLandmarks) :
  wellFormed l -> exists tip, GestureDetector.getIndexTip l = Some tip.
Proof.
  intros Hwf. apply GestureDetectorFacts.lm_defined; [assumption|].
  unfold LANDMARKS.INDEX_TIP. lia.
Qed.

Lemma getPinchCenter_defined (l : HandLandmarks) :
  wellFormed l -> exists c, GestureDetector.getPinchCenter l = Some c.
Proof.
  intros Hwf. unfold GestureDetector.getPinchCenter.
  destruct (GestureDetectorFacts.lm_defined l LANDMARKS.THUMB_TIP Hwf)
    as [tt ->]; [unfold LANDMARKS.THUMB_TIP; lia|].
  destruct (GestureDetectorFacts.lm_defined l LANDMARKS.INDEX_TIP Hwf)
    as [it ->]; [unfold LANDMARKS.INDEX_TIP; lia|].
  cbn. eauto.
Qed.

(** A frame with a hand: [detect] classifies it, and the frame is handled
    with the gesture. *)
Lemma onHandResults_frame (w : World) (l : HandLandmarks) (a : t)
  (gesture : GestureType) :
  ready a -> wellFormed l -> gestureOf l = Some gesture ->
  exists st g',
    current st = gesture
    /\ wellFormedDetector g'
    /\ onHandResults w (Some l) a
       = (a2 <- handleGesture w st l
                  (set_gestureDetector g' (set_hand (Some l) a)) ;;
          Some (set_lastGestureState (Some st) a2)).
Proof.
  intros Hready Hwf Hgesture.
  destruct (GestureDetectorFacts.detect_frame (now w) l (gestureDetector a)
              Hwf Hready)
    as [v [gesture' [r [g' [Hg [Hdet [Hcur [_ [_ [_ Hlast]]]]]]]]]].
  rewrite gestureOf_velocity, Hgesture in Hg.
  assert (Heq : gesture' = gesture) by congruence.
  rewrite Heq in Hcur. clear Hg Heq.
  exists (GestureDetector.state r), g'.
  split; [exact Hcur|]. split.
  - intros l' Hl'. rewrite Hlast in Hl'. now inversion Hl'; subst.
  - unfold onHandResults.
    rewrite (renderPreviewOverlay_defined l Hwf).
    cbn [GestureDetector.bind set_hand gestureDetector].
    rewrite Hdet. reflexivity.
Qed.

(** A frame with a hand that was handled, read back. *)
Lemma onHandResults_inv (w : World) (l : HandLandmarks) (a a' : t) :
  onHandResults w (Some l) a = Some a' ->
  exists st g' a2,
    In (current st) classified
    /\ handleGesture w st l (set_gestureDetector g' (set_hand (Some l) a))
       = Some a2
    /\ a' = set_lastGestureState (Some st) a2.
Proof.
  unfold onHandResults.
  destruct (renderPreviewOverlay l); [|discriminate].
  cbn [GestureDetector.bind set_hand gestureDetector].
  destruct (GestureDetector.detect (now w) (Some l) (gestureDetector a))
    as [[r g']|] eqn:Hdet; [|discriminate].
  cbn [GestureDetector.bind fst snd].
  destruct (handleGesture w (GestureDetector.state r) l _) as [a2|] eqn:Hh;
    [|discriminate].
  cbn [GestureDetector.bind]. intros H. inversion H.
  exists (GestureDetector.state r), g', a2.
  split; [|split; [exact Hh | reflexivity]].
  destruct (GestureDetectorFacts.detect_frame_inv _ _ _ _ _ Hdet)
    as [v [gesture [Hg [Hcur _]]]].
  rewrite Hcur. exact (GestureDetectorFacts.detectGestureType_classified _ _ _ Hg).
Qed.

Lemma far_thumb :
  Num.ltb (GestureDetector.distance (mkPoint2D 200 50) (mkPoint2D 0 50)) 60
  = false.
Proof.
  apply NumFacts.ltb_ge.
  unfold GestureDetector.distance, GestureDetector.hypot. cbn [x y].
  apply NumFacts.sqrt_ge_bound; lra.
Qed.

Ltac compare_landmarks :=
  replace (Num.ltb 50 100) with true
    by (symmetry; apply NumFacts.ltb_lt; lra);
  replace (Num.ltb 100 100) with false
    by (symmetry; apply NumFacts.ltb_ge; lra).

Ltac read_landmarks :=
  unfold GestureDetector.isPointingIndex, GestureDetector.isOpenPalm,
    GestureDetector.isFist, GestureDetector.and_then,
    GestureDetector.isFingerExtended, GestureDetector.not_,
    GestureDetector.lm, hand;
  cbn [landmarks nth_error GestureDetector.bind y LANDMARKS.THUMB_TIP
       LANDMARKS.INDEX_TIP LANDMARKS.INDEX_PIP
       LANDMARKS.MIDDLE_TIP LANDMARKS.MIDDLE_PIP LANDMARKS.RING_TIP
       LANDMARKS.RING_PIP LANDMARKS.PINKY_TIP LANDMARKS.PINKY_PIP].

Lemma pointingFrame_draw :
  wellFormed pointingFrame /\ gestureOf pointingFrame = Some draw.
Proof.
  split; [reflexivity|].
  unfold gestureOf, GestureDetector.detectGestureType, pointingFrame.
  read_landmarks. rewrite far_thumb. compare_landmarks. reflexivity.
Qed.

Lemma openPalmFrame_palm :
  wellFormed openPalmFrame /\ gestureOf openPalmFrame = Some palm.
Proof.
  split; [reflexivity|].
  unfold gestureOf, GestureDetector.detectGestureType, openPalmFrame.
  read_landmarks. rewrite far_thumb. compare_landmarks. reflexivity.
Qed.

Lemma pointingPinchFrame_pinch :
  wellFormed pointingPinchFrame /\ gestureOf pointingPinchFrame = Some pinch.
Proof.
  split; [exact GestureDetectorFacts.pointingPinchFrame_wellFormed|].
  apply (GestureDetectorFacts.detectGestureType_pinch _ _ _
           (proj1 GestureDetectorFacts.pointingPinchFrame_tips)
           (proj2 GestureDetectorFacts.pointingPinchFrame_tips)).
  pose proof GestureDetectorFacts.pointingPinchFrame_near as H.
  unfold GESTURE.PINCH_THRESHOLD in H. lra.
Qed.

Lemma init_ready (a : t) :
  gestureDetector a = GestureDetector.init -> ready a.
Proof. intros H l Hl. rewrite H in Hl. discriminate. Qed.

(** *** The parts of [handleGesture] *)

Lemma handleGesture_parts (w : World) (st : GestureState) (l : HandLandmarks)
  (a : t) :
  handleGesture w st l a
  = (a1 <- dispatch w st l (GestureDetector.getIndexTip l) a ;;
     Some (settle st a1)).
Proof.
  unfold handleGesture, dispatch. cbv zeta.
  match goal with
  | |- GestureDetector.bind ?m _ = _ => destruct m as [a1|]; [|reflexivity]
  end.
  cbn [GestureDetector.bind]. unfold settle, gestureChanged.
  destruct (lastGestureState a1) as [lastState|] eqn:Hlast; [|reflexivity].
  destruct (negb _); [|reflexivity].
  cbn [set_palmHoldStart lastGestureState]. rewrite Hlast.
  destruct (GestureDetector.gesture_eqb (current lastState) draw);
    reflexivity.
Qed.

(** The resets touch the hold timer and the live position only. *)
Lemma settle_fields (st : GestureState) (a : t) :
  isDrawing (settle st a) = isDrawing a
  /\ currentColor (settle st a) = currentColor a
  /\ lastGestureState (settle st a) = lastGestureState a
  /\ grabbedObject (settle st a) = grabbedObject a
  /\ gestureDetector (settle st a) = gestureDetector a
  /\ objectManager (settle st a) = objectManager a
  /\ DrawingCanvas.currentStroke (drawingCanvas (settle st a))
     = DrawingCanvas.currentStroke (drawingCanvas a)
  /\ DrawingCanvas.completedStrokes (drawingCanvas (settle st a))
     = DrawingCanvas.completedStrokes (drawingCanvas a)
  /\ palmHoldStart (settle st a)
     = (if gestureChanged st a then 0 else palmHoldStart a).
Proof.
  unfold settle. destruct (gestureChanged st a); [|now repeat split].
  cbn [set_palmHoldStart lastGestureState].
  match goal with
  | |- context [if ?c then set_drawingCanvas _ _ else _] => destruct c
  end; now repeat split.
Qed.

Ltac fields :=
  cbn [isDrawing currentColor lastGestureState currentLandmarks palmHoldStart
       handDetected grabbedObject lastPinchPosition gestureDetector
       drawingCanvas objectManager set_isDrawing set_lastGestureState
       set_hand set_palmHoldStart set_grabbedObject set_lastPinchPosition
       set_gestureDetector set_drawingCanvas set_objectManager onObjects
       ObjectManager.objects ObjectManager.store
       ObjectManager.sceneChildren ObjectManager.tweens
       ObjectManager.idCounter] in *.

(** *** The handlers *)

(** [handlePinch] stops the drawing and leaves the canvas and the array of
    objects as they are. *)
Lemma handlePinch_fields (w : World) (l : HandLandmarks) (a a1 : t) :
  handlePinch w l a = Some a1 ->
  isDrawing a1 = false
  /\ drawingCanvas a1 = drawingCanvas a
  /\ currentColor a1 = currentColor a
  /\ gestureDetector a1 = gestureDetector a
  /\ lastGestureState a1 = lastGestureState a
  /\ palmHoldStart a1 = palmHoldStart a
  /\ ObjectManager.objects (objectManager a1)
     = ObjectManager.objects (objectManager a).
Proof.
  unfold handlePinch.
  destruct (GestureDetector.getPinchCenter l) as [c|]; [|discriminate].
  cbn [GestureDetector.bind].
  destruct (isDrawing a) eqn:Hdrawing; fields;
    destruct (grabbedObject a) as [grabbed|];
    try destruct (lastPinchPosition a) as [last|];
    try destruct (hitObject w) as [hit|];
    intros H; inversion H; subst a1; fields; now repeat split.
Qed.

Lemma handlePinch_defined (w : World) (l : HandLandmarks) (a : t) :
  wellFormed l -> exists a1, handlePinch w l a = Some a1.
Proof.
  intros Hwf. destruct (getPinchCenter_defined l Hwf) as [c Hc].
  unfold handlePinch. rewrite Hc. cbn [GestureDetector.bind].
  match goal with
  | |- context [grabbedObject ?a0] => destruct (grabbedObject a0)
  end; [eauto|].
  destruct (hitObject w); eauto.
Qed.

(** What [handlePinch] does to the grabbed object. *)
Lemma handlePinch_grab (w : World) (l : HandLandmarks) (a a1 : t) :
  handlePinch w l a = Some a1 ->
  match grabbedObject a with
  | Some r =>
      grabbedObject a1 = Some r
      /\ ObjectManager.isGrabbed (ObjectManager.store (objectManager a1) r)
         = ObjectManager.isGrabbed (ObjectManager.store (objectManager a) r)
  | None =>
      grabbedObject a1 = hitObject w
      /\ forall r, hitObject w = Some r ->
           ObjectManager.isGrabbed (ObjectManager.store (objectManager a1) r)
           = true
  end.
Proof.
  unfold handlePinch.
  destruct (GestureDetector.getPinchCenter l) as [c|]; [|discriminate].
  cbn [GestureDetector.bind].
  set (a0 := if isDrawing a then _ else a).
  assert (H0 : grabbedObject a0 = grabbedObject a
               /\ objectManager a0 = objectManager a).
  { subst a0. destruct (isDrawing a); now split. }
  destruct H0 as [Hg0 Hm0]. rewrite Hg0.
  destruct (grabbedObject a) as [r|].
  - intros H; inversion H; subst a1. clear H. fields.
    destruct (lastPinchPosition a0) as [last|]; fields;
      (split; [exact Hg0|]); rewrite Hm0; [|reflexivity].
    unfold ObjectManager.rotateObject.
    rewrite ObjectManagerFacts.write_same.
    cbn [ObjectManager.isGrabbed ObjectManager.set_mesh_rotation].
    unfold ObjectManager.moveGrabbedObject.
    destruct (ObjectManager.isGrabbed
                (ObjectManager.store (objectManager a) r)) eqn:Hgr.
    + rewrite ObjectManagerFacts.write_same. exact Hgr.
    + exact Hgr.
  - destruct (hitObject w) as [hit|]; intros H; inversion H; subst a1;
      clear H; fields.
    + split; [reflexivity|]. intros r Hr. inversion Hr; subst r.
      unfold ObjectManager.grabObject.
      now rewrite ObjectManagerFacts.write_same.
    + split; [exact Hg0|]. intros r Hr. discriminate.
Qed.

(** A draw frame that hits no object while no stroke is being drawn starts
    a stroke at the index tip. *)
Lemma handleDraw_start (w : World) (tip : Point2D) (a : t) :
  hitObject w = None -> isDrawing a = false ->
  exists a1,
    handleDraw w tip a = Some a1
    /\ isDrawing a1 = true
    /\ DrawingCanvas.currentStroke (drawingCanvas a1)
       = Some (mkStroke [tip] (currentColor a) STROKE.WIDTH false)
    /\ DrawingCanvas.completedStrokes (drawingCanvas a1)
       = DrawingCanvas.completedStrokes (drawingCanvas a)
    /\ currentColor a1 = currentColor a
    /\ gestureDetector a1 = gestureDetector a
    /\ lastGestureState a1 = lastGestureState a.
Proof.
  intros Hhit Hidle. unfold handleDraw. rewrite Hhit. fields.
  rewrite Hidle. cbn [negb]. eexists. split; [reflexivity|]. fields.
  unfold DrawingCanvas.startStroke, DrawingCanvas.updateLivePosition.
  destruct (DrawingCanvas.applyJitterFilter tip _). now repeat split.
Qed.

(** [handleDraw] leaves the objects and the grabbed object as they are. *)
Lemma handleDraw_fields (w : World) (tip : Point2D) (a a1 : t) :
  handleDraw w tip a = Some a1 ->
  grabbedObject a1 = grabbedObject a
  /\ ObjectManager.objects (objectManager a1)
     = ObjectManager.objects (objectManager a)
  /\ ObjectManager.store (objectManager a1)
     = ObjectManager.store (objectManager a).
Proof.
  unfold handleDraw. fields.
  destruct (hitObject w) as [hit|].
  - intros H; inversion H; subst a1. fields. now repeat split.
  - destruct (isDrawing a); cbn [negb].
    + destruct (DrawingCanvas.addPoint tip _) as [d|]; [|discriminate].
      cbn [GestureDetector.bind].
      intros H; inversion H; subst a1. fields. now repeat split.
    + intros H; inversion H; subst a1. fields. now repeat split.
Qed.

(** A draw frame when the application takes itself to be drawing and the
    canvas has no stroke: nothing is started and nothing is added. *)
Lemma handleDraw_blocked (w : World) (tip : Point2D) (a : t) :
  isDrawing a = true ->
  DrawingCanvas.currentStroke (drawingCanvas a) = None ->
  exists a1,
    handleDraw w tip a = Some a1
    /\ isDrawing a1 = true
    /\ DrawingCanvas.currentStroke (drawingCanvas a1) = None
    /\ DrawingCanvas.completedStrokes (drawingCanvas a1)
       = DrawingCanvas.completedStrokes (drawingCanvas a)
    /\ gestureDetector a1 = gestureDetector a.
Proof.
  intros Hdrawing Hstroke. unfold handleDraw. fields. rewrite Hdrawing.
  cbn [negb].
  assert (Hlive :
    DrawingCanvas.currentStroke
      (DrawingCanvas.updateLivePosition tip (drawingCanvas a)) = None
    /\ DrawingCanvas.completedStrokes
         (DrawingCanvas.updateLivePosition tip (drawingCanvas a))
       = DrawingCanvas.completedStrokes (drawingCanvas a)).
  { unfold DrawingCanvas.updateLivePosition.
    destruct (DrawingCanvas.applyJitterFilter tip _). now split. }
  destruct Hlive as [Hlive1 Hlive2].
  destruct (hitObject w) as [hit|].
  - eexists. split; [reflexivity|]. fields. now repeat split.
  - unfold DrawingCanvas.addPoint. rewrite Hlive1.
    cbn [GestureDetector.bind]. eexists. split; [reflexivity|]. fields.
    now repeat split.
Qed.

(** The release of the grabbed object. *)
Lemma releaseGrabbed_fields (a : t) :
  isDrawing (releaseGrabbed a) = isDrawing a
  /\ currentColor (releaseGrabbed a) = currentColor a
  /\ lastGestureState (releaseGrabbed a) = lastGestureState a
  /\ palmHoldStart (releaseGrabbed a) = palmHoldStart a
  /\ gestureDetector (releaseGrabbed a) = gestureDetector a
  /\ drawingCanvas (releaseGrabbed a) = drawingCanvas a
  /\ ObjectManager.objects (objectManager (releaseGrabbed a))
     = ObjectManager.objects (objectManager a)
  /\ grabbedObject (releaseGrabbed a) = None
  /\ (forall r, grabbedObject a = Some r ->
        ObjectManager.isGrabbed
          (ObjectManager.store (objectManager (releaseGrabbed a)) r)
        = false).
Proof.
  unfold releaseGrabbed.
  destruct (grabbedObject a) as [r|] eqn:Hg; fields.
  - do 8 (split; [reflexivity|]). intros r' Hr'. inversion Hr'; subst r'.
    apply ObjectManagerFacts.releaseObject_flag.
  - do 7 (split; [reflexivity|]). split; [exact Hg | discriminate].
Qed.

Lemma closeStroke_current (d : DrawingCanvas.t) :
  DrawingCanvas.currentStroke (snd (DrawingCanvas.closeStroke d)) = None
  /\ match fst (DrawingCanvas.closeStroke d) with
     | Some stroke =>
         DrawingCanvas.completedStrokes (snd (DrawingCanvas.closeStroke d))
         = DrawingCanvas.completedStrokes d ++ [stroke]
     | None =>
         DrawingCanvas.completedStrokes (snd (DrawingCanvas.closeStroke d))
         = DrawingCanvas.completedStrokes d
     end.
Proof.
  unfold DrawingCanvas.closeStroke.
  destruct (DrawingCanvas.currentStroke d) as [s|] eqn:Hs.
  - destruct (Num.ltb _ _); [now split|].
    destruct (Nat.ltb _ _); now split.
  - now split.
Qed.

(** [handlePalm]: the hold is measured from [holdStart]; short of the hold
    time the canvas is left alone, from the hold time on the stroke is
    closed. *)
Lemma handlePalm_fields (w : World) (a : t) :
  currentColor (handlePalm w a) = currentColor a
  /\ lastGestureState (handlePalm w a) = lastGestureState a
  /\ gestureDetector (handlePalm w a) = gestureDetector a
  /\ ObjectManager.objects (objectManager (handlePalm w a))
     = ObjectManager.objects (objectManager a)
  /\ grabbedObject (handlePalm w a) = None
  /\ (forall r, grabbedObject a = Some r ->
        ObjectManager.isGrabbed
          (ObjectManager.store (objectManager (handlePalm w a)) r)
        = false)
  /\ (palmNow' w - holdStart w a < GESTURE.PALM_HOLD_TIME ->
      isDrawing (handlePalm w a) = isDrawing a
      /\ drawingCanvas (handlePalm w a) = drawingCanvas a
      /\ palmHoldStart (handlePalm w a) = holdStart w a)
  /\ (GESTURE.PALM_HOLD_TIME <= palmNow' w - holdStart w a ->
      palmHoldStart (handlePalm w a) = 0
      /\ drawingCanvas (handlePalm w a)
         = DrawingCanvas.clearLivePosition
             (snd (DrawingCanvas.closeStroke (drawingCanvas a)))
      /\ isDrawing (handlePalm w a)
         = match fst (DrawingCanvas.closeStroke (drawingCanvas a)) with
           | Some _ => false
           | None => isDrawing a
           end).
Proof.
  destruct (releaseGrabbed_fields a)
    as [Hr1 [Hr2 [Hr3 [Hr4 [Hr5 [Hr6 [Hr7 [Hr8 Hr9]]]]]]]].
  unfold handlePalm, holdStart. rewrite Hr4.
  set (a0 := releaseGrabbed a) in *.
  set (a1 := if Num.eqb_num (palmHoldStart a) 0
             then set_palmHoldStart (palmNow w) a0 else a0).
  assert (H1 : isDrawing a1 = isDrawing a
               /\ currentColor a1 = currentColor a
               /\ lastGestureState a1 = lastGestureState a
               /\ gestureDetector a1 = gestureDetector a
               /\ drawingCanvas a1 = drawingCanvas a
               /\ objectManager a1 = objectManager a0
               /\ grabbedObject a1 = None
               /\ palmHoldStart a1
                  = (if Num.eqb_num (palmHoldStart a) 0
                     then palmNow w else palmHoldStart a)).
  { subst a1. destruct (Num.eqb_num (palmHoldStart a) 0); fields;
      now repeat split. }
  destruct H1 as [H1 [H2 [H3 [H4 [H5 [H6 [H7 H8]]]]]]].
  rewrite H8.
  set (start := if Num.eqb_num (palmHoldStart a) 0
                then palmNow w else palmHoldStart a) in *.
  destruct (Num.geb (palmNow' w - start) GESTURE.PALM_HOLD_TIME) eqn:Hheld.
  - apply NumFacts.geb_ge in Hheld.
    unfold closeAndInflate. rewrite H5.
    destruct (DrawingCanvas.closeStroke (drawingCanvas a)) as [stroke d].
    cbn [fst snd].
    destruct stroke as [stroke|]; fields;
      (split; [exact H2|]); (split; [exact H3|]); (split; [exact H4|]);
      (split; [now rewrite H6|]); (split; [exact H7|]);
      (split; [now rewrite H6|]);
      (split; [intros Hlt; lra|]); intros _; now repeat split.
  - apply NumFacts.geb_lt in Hheld.
    split; [exact H2|]. split; [exact H3|]. split; [exact H4|].
    split; [now rewrite H6|]. split; [exact H7|].
    split; [now rewrite H6|].
    split; [intros _; now repeat split | intros Hge; lra].
Qed.

(** X21. A pause loses the polyline.  A frame without a hand, or a pinch
    frame, stops the drawing and keeps the stroke in progress; the next
    draw frame that hits no object then starts a new stroke at the index
    tip, and the polyline drawn before the pause is gone and is not among
    the completed strokes. *)
Theorem pause_then_draw_restarts (w1 w2 : World)
  (f1 : option HandLandmarks) (l2 : HandLandmarks) (a : t) :
  ready a ->
  f1 = None
  \/ (exists l1, f1 = Some l1 /\ wellFormed l1 /\ gestureOf l1 = Some pinch) ->
  wellFormed l2 -> gestureOf l2 = Some draw -> hitObject w2 = None ->
  exists a1 a2 tip,
    onHandResults w1 f1 a = Some a1
    /\ isDrawing a1 = false
    /\ DrawingCanvas.currentStroke (drawingCanvas a1)
       = DrawingCanvas.currentStroke (drawingCanvas a)
    /\ onHandResults w2 (Some l2) a1 = Some a2
    /\ GestureDetector.getIndexTip l2 = Some tip
    /\ isDrawing a2 = true
    /\ DrawingCanvas.currentStroke (drawingCanvas a2)
       = Some (mkStroke [tip] (currentColor a) STROKE.WIDTH false)
    /\ DrawingCanvas.completedStrokes (drawingCanvas a2)
       = DrawingCanvas.completedStrokes (drawingCanvas a).
Proof.
  intros Hready Hf1 Hwf2 Hg2 Hhit.
  assert (Hfirst : exists a1,
    onHandResults w1 f1 a = Some a1
    /\ isDrawing a1 = false
    /\ DrawingCanvas.currentStroke (drawingCanvas a1)
       = DrawingCanvas.currentStroke (drawingCanvas a)
    /\ DrawingCanvas.completedStrokes (drawingCanvas a1)
       = DrawingCanvas.completedStrokes (drawingCanvas a)
    /\ currentColor a1 = currentColor a
    /\ ready a1).
  { destruct Hf1 as [-> | [l1 [-> [Hwf1 Hg1]]]].
    - unfold onHandResults. fields.
      destruct (isDrawing a) eqn:Hdrawing; eexists;
        (split; [reflexivity|]); fields; now repeat split.
    - destruct (onHandResults_frame w1 l1 a pinch Hready Hwf1 Hg1)
        as [st [g' [Hcur [Hg' ->]]]].
      rewrite handleGesture_parts. unfold dispatch. rewrite Hcur.
      destruct (handlePinch_defined w1 l1
                  (set_gestureDetector g' (set_hand (Some l1) a)) Hwf1)
        as [a1 Hpinch].
      rewrite Hpinch.
      destruct (handlePinch_fields _ _ _ _ Hpinch)
        as [Hd [Hc [Hcol [Hdet _]]]].
      cbn [GestureDetector.bind]. eexists. split; [reflexivity|].
      destruct (settle_fields st a1)
        as [Hs1 [Hs2 [_ [_ [Hs5 [_ [Hs7 [Hs8 _]]]]]]]].
      unfold ready. fields.
      rewrite Hs1, Hs2, Hs5, Hs7, Hs8, Hd, Hc, Hcol, Hdet. fields.
      now repeat split. }
  destruct Hfirst as [a1 [Hres1 [Hd1 [Hstroke1 [Hdone1 [Hcol1 Hready1]]]]]].
  destruct (onHandResults_frame w2 l2 a1 draw Hready1 Hwf2 Hg2)
    as [st [g' [Hcur [Hg' Hres2]]]].
  rewrite handleGesture_parts in Hres2.
  destruct (getIndexTip_defined l2 Hwf2) as [tip Htip].
  unfold dispatch in Hres2. rewrite Hcur, Htip in Hres2.
  cbn [GestureDetector.bind] in Hres2.
  destruct (handleDraw_start w2 tip
              (set_gestureDetector g' (set_hand (Some l2) a1)) Hhit Hd1)
    as [a2 [Hdraw [Hd2 [Hstroke2 [Hdone2 _]]]]].
  rewrite Hdraw in Hres2. cbn [GestureDetector.bind] in Hres2.
  exists a1. eexists. exists tip.
  split; [exact Hres1|]. split; [exact Hd1|]. split; [exact Hstroke1|].
  split; [exact Hres2|]. split; [exact Htip|].
  destruct (settle_fields st a2) as [Hs1 [_ [_ [_ [_ [_ [Hs7 [Hs8 _]]]]]]]].
  fields. rewrite Hs1, Hs7, Hs8, Hd2, Hstroke2, Hdone2. fields.
  rewrite Hcol1, Hdone1. now repeat split.
Qed.

Lemma pause_then_draw_restarts_witness :
  exists a1 a2,
    onHandResults (clearWorld 100) (Some pointingPinchFrame) midStroke
    = Some a1
    /\ DrawingCanvas.currentStroke (drawingCanvas a1)
       = DrawingCanvas.currentStroke (drawingCanvas midStroke)
    /\ onHandResults (clearWorld 133) (Some pointingFrame) a1 = Some a2
    /\ DrawingCanvas.currentStroke (drawingCanvas a2)
       = Some (mkStroke [mkPoint2D 0 50] "#FFB3BA"%string STROKE.WIDTH false).
Proof.
  destruct (pause_then_draw_restarts (clearWorld 100) (clearWorld 133)
              (Some pointingPinchFrame) pointingFrame midStroke)
    as [a1 [a2 [tip [H1 [_ [Hkeep [H2 [Htip [_ [Hstroke _]]]]]]]]]].
  - now apply init_ready.
  - right. exists pointingPinchFrame. split; [reflexivity|].
    exact pointingPinchFrame_pinch.
  - exact (proj1 pointingFrame_draw).
  - exact (proj2 pointingFrame_draw).
  - reflexivity.
  - exists a1, a2. split; [exact H1|]. split; [exact Hkeep|].
    split; [exact H2|]. rewrite Hstroke.
    inversion Htip. reflexivity.
Defined.

Lemma handleSwipe_fields (w : World) (tip : Point2D) (a : t) :
  isDrawing (handleSwipe w tip a) = isDrawing a
  /\ drawingCanvas (handleSwipe w tip a) = drawingCanvas a
  /\ gestureDetector (handleSwipe w tip a) = gestureDetector a.
Proof.
  unfold handleSwipe. destruct (hitObject w); now repeat split.
Qed.

(** X22. Drawing is blocked after a rejected close.  When the application
    takes itself to be drawing and the canvas has no stroke (as after a
    palm hold on a stroke that [closeStroke] discards, which leaves
    [isDrawing] set), a frame of any gesture but pinch leaves it so: a draw
    frame starts no stroke and adds no point, and no stroke is completed.
    Only a pinch frame or a frame without a hand ends this. *)
Theorem drawing_blocked_without_stroke (w : World) (l : HandLandmarks)
  (a : t) (gesture : GestureType) :
  ready a -> wellFormed l -> gestureOf l = Some gesture ->
  gesture <> pinch ->
  isDrawing a = true ->
  DrawingCanvas.currentStroke (drawingCanvas a) = None ->
  exists a',
    onHandResults w (Some l) a = Some a'
    /\ isDrawing a' = true
    /\ DrawingCanvas.currentStroke (drawingCanvas a') = None
    /\ DrawingCanvas.completedStrokes (drawingCanvas a')
       = DrawingCanvas.completedStrokes (drawingCanvas a)
    /\ ready a'.
Proof.
  intros Hready Hwf Hg Hnp Hdrawing Hstroke.
  destruct (onHandResults_frame w l a gesture Hready Hwf Hg)
    as [st [g' [Hcur [Hg' ->]]]].
  rewrite handleGesture_parts.
  destruct (getIndexTip_defined l Hwf) as [tip ->].
  set (b := set_gestureDetector g' (set_hand (Some l) a)).
  assert (Hb : exists a1,
    dispatch w st l (Some tip) b = Some a1
    /\ isDrawing a1 = true
    /\ DrawingCanvas.currentStroke (drawingCanvas a1) = None
    /\ DrawingCanvas.completedStrokes (drawingCanvas a1)
       = DrawingCanvas.completedStrokes (drawingCanvas a)
    /\ gestureDetector a1 = g').
  { unfold dispatch. rewrite Hcur. cbn [GestureDetector.bind].
    destruct gesture; try contradiction.
    - destruct (releaseGrabbed_fields b) as [H1 [_ [_ [_ [H5 [H6 _]]]]]].
      eexists. split; [reflexivity|]. rewrite H1, H5, H6. now repeat split.
    - destruct (handleDraw_blocked w tip b Hdrawing Hstroke)
        as [a1 [-> [H1 [H2 [H3 H4]]]]].
      exists a1. now repeat split.
    - destruct (handlePalm_fields w b)
        as [_ [_ [H3 [_ [_ [_ [Hshort Hheld]]]]]]].
      eexists. split; [reflexivity|].
      destruct (Rlt_le_dec (palmNow' w - holdStart w b)
                  GESTURE.PALM_HOLD_TIME) as [Hlt | Hge].
      + destruct (Hshort Hlt) as [H1 [H2 _]]. rewrite H1, H2, H3.
        now repeat split.
      + destruct (Hheld Hge) as [_ [H2 H1]]. rewrite H1, H2, H3.
        subst b. fields. unfold DrawingCanvas.closeStroke.
        rewrite Hstroke. cbn [fst snd]. now repeat split.
    - destruct (releaseGrabbed_fields b) as [H1 [_ [_ [_ [H5 [H6 _]]]]]].
      eexists. split; [reflexivity|]. rewrite H1, H5, H6. now repeat split.
    - destruct (releaseGrabbed_fields b) as [H1 [_ [_ [_ [H5 [H6 _]]]]]].
      eexists. split; [reflexivity|]. rewrite H1, H5, H6. now repeat split.
    - destruct (handleSwipe_fields w tip b) as [H1 [H2 H3]].
      eexists. split; [reflexivity|]. rewrite H1, H2, H3. now repeat split. }
  destruct Hb as [a1 [-> [H1 [H2 [H3 H4]]]]].
  cbn [GestureDetector.bind]. eexists. split; [reflexivity|].
  destruct (settle_fields st a1) as [Hs1 [_ [_ [_ [Hs5 [_ [Hs7 [Hs8 _]]]]]]]].
  unfold ready. fields. rewrite Hs1, Hs5, Hs7, Hs8, H1, H2, H3, H4.
  now repeat split.
Qed.

Lemma drawing_blocked_without_stroke_witness :
  exists a',
    onHandResults (clearWorld 100) (Some pointingFrame) blocked = Some a'
    /\ isDrawing a' = true
    /\ DrawingCanvas.currentStroke (drawingCanvas a') = None
    /\ DrawingCanvas.completedStrokes (drawingCanvas a') = [].
Proof.
  destruct (drawing_blocked_without_stroke (clearWorld 100) pointingFrame
              blocked draw)
    as [a' [Hres [Hd [Hs [Hc _]]]]].
  - now apply init_ready.
  - exact (proj1 pointingFrame_draw).
  - exact (proj2 pointingFrame_draw).
  - discriminate.
  - reflexivity.
  - reflexivity.
  - exists a'. now repeat split.
Defined.

(** X23. The palm hold.  On a palm frame the hold is measured from
    [palmHoldStart], or from the clock when that is 0.  Short of
    [GESTURE.PALM_HOLD_TIME] the stroke and the drawing flag are left
    alone; the timer keeps its start when the frame before was a palm
    frame too (or there was none) and is set back to 0 when the gesture
    has just changed, so that the hold then counts from the next palm
    frame.  From the hold time on the timer is 0 and the canvas has no
    stroke in progress: a stroke that [closeStroke] accepts is added to
    the completed strokes and the drawing flag is cleared, a stroke that
    it discards leaves the flag as it was. *)
Theorem palm_hold_closes (w : World) (l : HandLandmarks) (a : t) :
  ready a -> wellFormed l -> gestureOf l = Some palm ->
  exists a',
    onHandResults w (Some l) a = Some a'
    /\ (palmNow' w - holdStart w a < GESTURE.PALM_HOLD_TIME ->
        isDrawing a' = isDrawing a
        /\ DrawingCanvas.currentStroke (drawingCanvas a')
           = DrawingCanvas.currentStroke (drawingCanvas a)
        /\ DrawingCanvas.completedStrokes (drawingCanvas a')
           = DrawingCanvas.completedStrokes (drawingCanvas a)
        /\ palmHoldStart a'
           = match lastGesture a with
             | Some palm | None => holdStart w a
             | Some _ => 0
             end)
    /\ (GESTURE.PALM_HOLD_TIME <= palmNow' w - holdStart w a ->
        palmHoldStart a' = 0
        /\ DrawingCanvas.currentStroke (drawingCanvas a') = None
        /\ match fst (DrawingCanvas.closeStroke (drawingCanvas a)) with
           | Some stroke =>
               isDrawing a' = false
               /\ DrawingCanvas.completedStrokes (drawingCanvas a')
                  = DrawingCanvas.completedStrokes (drawingCanvas a)
                    ++ [stroke]
           | None =>
               isDrawing a' = isDrawing a
               /\ DrawingCanvas.completedStrokes (drawingCanvas a')
                  = DrawingCanvas.completedStrokes (drawingCanvas a)
           end).
Proof.
  intros Hready Hwf Hg.
  destruct (onHandResults_frame w l a palm Hready Hwf Hg)
    as [st [g' [Hcur [Hg' ->]]]].
  rewrite handleGesture_parts. unfold dispatch. rewrite Hcur.
  cbn [GestureDetector.bind]. eexists. split; [reflexivity|].
  set (b := set_gestureDetector g' (set_hand (Some l) a)).
  destruct (handlePalm_fields w b)
    as [_ [Hlast [_ [_ [_ [_ [Hshort Hheld]]]]]]].
  destruct (settle_fields st (handlePalm w b))
    as [Hs1 [_ [_ [_ [_ [_ [Hs7 [Hs8 Hs9]]]]]]]].
  fields. rewrite Hs1, Hs7, Hs8, Hs9.
  assert (Hchanged : gestureChanged st (handlePalm w b)
                     = match lastGesture a with
                       | Some palm | None => false
                       | Some _ => true
                       end).
  { unfold gestureChanged, lastGesture. rewrite Hlast. subst b. fields.
    destruct (lastGestureState a) as [lastState|]; [|reflexivity].
    cbn [option_map]. rewrite Hcur. now destruct (current lastState). }
  rewrite Hchanged.
  change (holdStart w b) with (holdStart w a) in *.
  change (drawingCanvas b) with (drawingCanvas a) in *.
  change (isDrawing b) with (isDrawing a) in *.
  split.
  - intros Hlt. destruct (Hshort Hlt) as [H1 [H2 H3]].
    rewrite H1, H2, H3. do 3 (split; [reflexivity|]).
    destruct (lastGesture a) as [[]|]; reflexivity.
  - intros Hge. destruct (Hheld Hge) as [H3 [H2 H1]].
    rewrite H1, H2, H3.
    destruct (closeStroke_current (drawingCanvas a)) as [Hc1 Hc2].
    split; [destruct (lastGesture a) as [[]|]; reflexivity|].
    split; [exact Hc1|].
    destruct (fst (DrawingCanvas.closeStroke (drawingCanvas a)));
      (split; [reflexivity | exact Hc2]).
Qed.

Lemma palm_hold_closes_witness :
  exists a',
    onHandResults heldWorld (Some openPalmFrame) midStroke = Some a'
    /\ palmHoldStart a' = 0
    /\ DrawingCanvas.currentStroke (drawingCanvas a') = None.
Proof.
  destruct (palm_hold_closes heldWorld openPalmFrame midStroke)
    as [a' [Hres [_ Hheld]]].
  - now apply init_ready.
  - exact (proj1 openPalmFrame_palm).
  - exact (proj2 openPalmFrame_palm).
  - exists a'. split; [exact Hres|].
    assert (Hge : GESTURE.PALM_HOLD_TIME
                  <= palmNow' heldWorld - holdStart heldWorld midStroke).
    { unfold holdStart, midStroke, heldWorld, GESTURE.PALM_HOLD_TIME.
      cbn [palmHoldStart palmNow palmNow'].
      replace (Num.eqb_num 0 0) with true
        by (symmetry; now apply NumFacts.eqb_num_eq).
      lra. }
    destruct (Hheld Hge) as [H1 [H2 _]]. now split.
Defined.

(** *** The objects *)

Lemma sameArray_refl (m : ObjectManager.t) : sameArray m m.
Proof. now repeat split. Qed.

Lemma handleDraw_array (w : World) (tip : Point2D) (a a1 : t) :
  handleDraw w tip a = Some a1 ->
  sameArray (objectManager a) (objectManager a1).
Proof.
  unfold handleDraw. fields.
  destruct (hitObject w) as [hit|].
  - intros H; inversion H; subst a1. fields. now repeat split.
  - destruct (isDrawing a); cbn [negb].
    + destruct (DrawingCanvas.addPoint tip _) as [d|]; [|discriminate].
      cbn [GestureDetector.bind].
      intros H; inversion H; subst a1. fields. now repeat split.
    + intros H; inversion H; subst a1. fields. now repeat split.
Qed.

Lemma handlePinch_array (w : World) (l : HandLandmarks) (a a1 : t) :
  handlePinch w l a = Some a1 ->
  sameArray (objectManager a) (objectManager a1).
Proof.
  unfold handlePinch.
  destruct (GestureDetector.getPinchCenter l) as [c|]; [|discriminate].
  cbn [GestureDetector.bind].
  destruct (isDrawing a); fields;
    destruct (grabbedObject a) as [grabbed|];
    try destruct (lastPinchPosition a) as [last|];
    try destruct (hitObject w) as [hit|];
    intros H; inversion H; subst a1; fields; now repeat split.
Qed.

Lemma releaseGrabbed_array (a : t) :
  sameArray (objectManager a) (objectManager (releaseGrabbed a)).
Proof.
  unfold releaseGrabbed. destruct (grabbedObject a); fields;
    now repeat split.
Qed.

Lemma handlePalm_array (w : World) (a : t) :
  sameArray (objectManager a) (objectManager (handlePalm w a)).
Proof.
  pose proof (releaseGrabbed_array a) as Hrel.
  unfold handlePalm.
  set (a0 := releaseGrabbed a) in *.
  set (a1 := if Num.eqb_num (palmHoldStart a0) 0 then _ else a0).
  assert (H1 : objectManager a1 = objectManager a0)
    by (subst a1; now destruct (Num.eqb_num (palmHoldStart a0) 0)).
  destruct (Num.geb _ _); [|now rewrite H1].
  unfold closeAndInflate.
  destruct (DrawingCanvas.closeStroke (drawingCanvas a1)) as [[stroke|] d];
    fields; now rewrite H1.
Qed.

(** The handlers that a classified gesture selects leave the array of
    objects alone, and what they do to the grabbed object. *)
Lemma dispatch_classified (w : World) (st : GestureState)
  (l : HandLandmarks) (tip : option Point2D) (a a1 : t) :
  In (current st) classified ->
  dispatch w st l tip a = Some a1 ->
  sameArray (objectManager a) (objectManager a1)
  /\ match current st with
     | draw =>
         grabbedObject a1 = grabbedObject a
         /\ ObjectManager.store (objectManager a1)
            = ObjectManager.store (objectManager a)
     | pinch =>
         match grabbedObject a with
         | Some r =>
             grabbedObject a1 = Some r
             /\ ObjectManager.isGrabbed
                  (ObjectManager.store (objectManager a1) r)
                = ObjectManager.isGrabbed
                    (ObjectManager.store (objectManager a) r)
         | None =>
             grabbedObject a1 = hitObject w
             /\ forall r, hitObject w = Some r ->
                  ObjectManager.isGrabbed
                    (ObjectManager.store (objectManager a1) r)
                  = true
         end
     | _ =>
         grabbedObject a1 = None
         /\ forall r, grabbedObject a = Some r ->
              ObjectManager.isGrabbed
                (ObjectManager.store (objectManager a1) r)
              = false
     end.
Proof.
  intros Hclass. unfold dispatch, classified in *.
  destruct (current st); cbn [In] in Hclass;
    try (exfalso; intuition discriminate).
  - intros H; inversion H; subst a1. split; [apply releaseGrabbed_array|].
    destruct (releaseGrabbed_fields a) as [_ [_ [_ [_ [_ [_ [_ H8]]]]]]].
    exact H8.
  - destruct tip as [position|]; [|discriminate].
    cbn [GestureDetector.bind].
    intros H. split; [exact (handleDraw_array _ _ _ _ H)|].
    destruct (handleDraw_fields _ _ _ _ H) as [H1 [_ H3]]. now split.
  - intros H. split; [exact (handlePinch_array _ _ _ _ H)|].
    exact (handlePinch_grab _ _ _ _ H).
  - intros H; inversion H; subst a1. split; [apply handlePalm_array|].
    destruct (handlePalm_fields w a) as [_ [_ [_ [_ [H5 [H6 _]]]]]].
    now split.
  - intros H; inversion H; subst a1. split; [apply releaseGrabbed_array|].
    destruct (releaseGrabbed_fields a) as [_ [_ [_ [_ [_ [_ [_ H8]]]]]]].
    exact H8.
Qed.

(** A frame with a hand, read back down to the handler. *)
Lemma onHandResults_dispatch (w : World) (l : HandLandmarks) (a a' : t) :
  onHandResults w (Some l) a = Some a' ->
  exists st b a1,
    In (current st) classified
    /\ grabbedObject b = grabbedObject a
    /\ objectManager b = objectManager a
    /\ dispatch w st l (GestureDetector.getIndexTip l) b = Some a1
    /\ grabbedObject a' = grabbedObject a1
    /\ objectManager a' = objectManager a1
    /\ lastGesture a' = Some (current st).
Proof.
  intros Hres.
  destruct (onHandResults_inv w l a a' Hres)
    as [st [g' [a2 [Hclass [Hhandle ->]]]]].
  rewrite handleGesture_parts in Hhandle.
  destruct (dispatch w st l _ _) as [a1|] eqn:Hdispatch; [|discriminate].
  cbn [GestureDetector.bind] in Hhandle. inversion Hhandle; subst a2.
  exists st, (set_gestureDetector g' (set_hand (Some l) a)), a1.
  destruct (settle_fields st a1) as [_ [_ [_ [Hs4 [_ [Hs6 _]]]]]].
  unfold lastGesture. fields. rewrite Hs4, Hs6. now repeat split.
Qed.

(** X24. No gesture removes an object.  Whatever the frame, the handlers
    leave the array of objects, the meshes in the scene and the removals
    under way as they are: the swipe handler, the only one that calls
    [removeObject], is never reached, since the detector never reports a
    swipe. *)
Theorem gestures_never_remove_objects (w : World)
  (f : option HandLandmarks) (a a' : t) :
  onHandResults w f a = Some a' ->
  sameArray (objectManager a) (objectManager a').
Proof.
  destruct f as [l|].
  - intros Hres.
    destruct (onHandResults_dispatch w l a a' Hres)
      as [st [b [a1 [Hclass [_ [Hb [Hd [_ [-> _]]]]]]]]].
    rewrite <- Hb.
    exact (proj1 (dispatch_classified _ _ _ _ _ _ Hclass Hd)).
  - unfold onHandResults. fields.
    destruct (isDrawing a); intros H; inversion H; now repeat split.
Qed.

(** A draw frame that starts a stroke is handled. *)
Lemma onHandResults_draw_start (w : World) (l : HandLandmarks) (a : t) :
  ready a -> wellFormed l -> gestureOf l = Some draw ->
  hitObject w = None -> isDrawing a = false ->
  exists a', onHandResults w (Some l) a = Some a'.
Proof.
  intros Hready Hwf Hg Hhit Hidle.
  destruct (onHandResults_frame w l a draw Hready Hwf Hg)
    as [st [g' [Hcur [_ ->]]]].
  rewrite handleGesture_parts.
  destruct (getIndexTip_defined l Hwf) as [tip ->].
  unfold dispatch. rewrite Hcur. cbn [GestureDetector.bind].
  destruct (handleDraw_start w tip
              (set_gestureDetector g' (set_hand (Some l) a)) Hhit Hidle)
    as [a1 [-> _]].
  cbn [GestureDetector.bind]. eauto.
Qed.

Lemma gestures_never_remove_objects_witness :
  exists a',
    onHandResults (clearWorld 100) (Some pointingFrame) fresh = Some a'
    /\ ObjectManager.objects (objectManager a') = [0%nat; 1%nat].
Proof.
  destruct (onHandResults_draw_start (clearWorld 100) pointingFrame fresh)
    as [a' Hres].
  - now apply init_ready.
  - exact (proj1 pointingFrame_draw).
  - exact (proj2 pointingFrame_draw).
  - reflexivity.
  - reflexivity.
  - exists a'. split; [exact Hres|].
    exact (proj1 (gestures_never_remove_objects _ _ _ _ Hres)).
Defined.

(** X25. Who lets go of a grabbed object.  A frame without a hand and a
    draw frame leave the grabbed object grabbed and the objects as they
    are; a pinch frame keeps the object it holds, or grabs the object
    that the ray finds; every other frame (palm, fist, no gesture)
    releases the grabbed object and clears its flag. *)
Theorem grab_release_policy (w : World) (f : option HandLandmarks)
  (a a' : t) :
  onHandResults w f a = Some a' ->
  match f with
  | None =>
      grabbedObject a' = grabbedObject a
      /\ ObjectManager.store (objectManager a')
         = ObjectManager.store (objectManager a)
  | Some _ =>
      match lastGesture a' with
      | Some draw =>
          grabbedObject a' = grabbedObject a
          /\ ObjectManager.store (objectManager a')
             = ObjectManager.store (objectManager a)
      | Some pinch =>
          match grabbedObject a with
          | Some r =>
              grabbedObject a' = Some r
              /\ ObjectManager.isGrabbed
                   (ObjectManager.store (objectManager a') r)
                 = ObjectManager.isGrabbed
                     (ObjectManager.store (objectManager a) r)
          | None =>
              grabbedObject a' = hitObject w
              /\ forall r, hitObject w = Some r ->
                   ObjectManager.isGrabbed
                     (ObjectManager.store (objectManager a') r)
                   = true
          end
      | _ =>
          grabbedObject a' = None
          /\ forall r, grabbedObject a = Some r ->
               ObjectManager.isGrabbed
                 (ObjectManager.store (objectManager a') r)
               = false
      end
  end.
Proof.
  destruct f as [l|].
  - intros Hres.
    destruct (onHandResults_dispatch w l a a' Hres)
      as [st [b [a1 [Hclass [Hgb [Hb [Hd [-> [-> ->]]]]]]]]].
    pose proof (proj2 (dispatch_classified _ _ _ _ _ _ Hclass Hd)) as Hgrab.
    rewrite Hgb, Hb in Hgrab.
    unfold classified in Hclass.
    destruct (current st); cbn [In] in Hclass;
      try (exfalso; intuition discriminate); exact Hgrab.
  - unfold onHandResults. fields.
    destruct (isDrawing a); intros H; inversion H; now split.
Qed.

Lemma grab_release_policy_witness :
  exists a',
    onHandResults (clearWorld 100) (Some pointingFrame) holding = Some a'
    /\ lastGesture a' = Some draw
    /\ grabbedObject a' = Some 0%nat.
Proof.
  destruct (onHandResults_draw_start (clearWorld 100) pointingFrame holding)
    as [a' Hres].
  - now apply init_ready.
  - exact (proj1 pointingFrame_draw).
  - exact (proj2 pointingFrame_draw).
  - reflexivity.
  - reflexivity.
  - exists a'. split; [exact Hres|].
    pose proof (grab_release_policy _ _ _ _ Hres) as Hpolicy.
    cbv beta iota in Hpolicy.
    assert (Hdraw : lastGesture a' = Some draw).
    { destruct (onHandResults_frame (clearWorld 100) pointingFrame holding
                  draw (init_ready holding eq_refl)
                  (proj1 pointingFrame_draw) (proj2 pointingFrame_draw))
        as [st' [g' [Hcur [_ Hres']]]].
      rewrite Hres' in Hres.
      destruct (handleGesture _ st' _ _) as [a2|]; [|discriminate].
      cbn [GestureDetector.bind] in Hres. inversion Hres.
      unfold lastGesture. cbn. now rewrite Hcur. }
    rewrite Hdraw in Hpolicy. split; [exact Hdraw|]. exact (proj1 Hpolicy).
Defined.

End AirCanvasFacts.
